(** * Lifecycle controller of niondir/go-service (package [service])

    A shallow embedding of [service.go]: the registry of services, the
    sequential Init phase and the concurrent Run phase of
    [Container.StartAll], the shared cancellation signal, the bounded join
    of [Container.WaitAllStoppedTimeout], the error aggregation of
    [Container.ServiceErrors] and the process-wide [Default] container.

    Conventions.
    - A Go [error] value is an [option error]; [None] is [nil].
    - A call that may panic runs in the monad [M]: it ends in [Ok] with a
      result or in [Panic] with the message, both carrying the state
      reached at that point.
    - [Init] and [Run] are code of the user.  What the controller can
      observe of them is a function of the state of the context they are
      given: the result of [Init], and for [Run] whether it has returned
      and with what.
    - Goroutines started with [go func() {...}()] are entries of a pool;
      the scheduler picks one entry at a time and runs its body.  The body
      of the unit of [runOne] runs from the return of [Run] to the end of
      the closure in one scheduling step.  A call of the API runs to its
      end before the next event, with two exceptions: the goroutines that
      [StartAll] has launched may take steps between two launches
      ([StartAll_sched]), and [WaitAllStoppedTimeout], which blocks, is
      run against a schedule of the events that happen while it waits.
    - Time is the logical clock of that schedule: a tick is one unit of
      [time.Duration], the timer of [context.WithTimeout] fires when the
      elapsed time reaches the timeout, and the caller blocked in
      [<-ctx.Done()] resumes as soon as the context is done.
    - [history] is ghost state: it records the calls of [Init], the
      launches of [Run] and the returns of [Run] in the order they happen.
    - Calls on the logger ([c.log.Info] and the like) have no effect on the
      container and are left out; [SetLogger] is not modelled. *)

From stdpp Require Import gmap strings list fin_maps.

Open Scope string_scope.
Open Scope list_scope.

(** ** Errors *)

(** Error values: [errors.New]/[fmt.Errorf] without [%w] yield a plain
    message; [fmt.Errorf] with [%w] yields a message and the wrapped cause. *)
Inductive error : Type :=
| errorString (msg : string)
| wrapError (msg : string) (cause : error).

(** [err.Error()] *)
Definition Error (e : error) : string :=
  match e with
  | errorString msg => msg
  | wrapError msg _ => msg
  end.

(** [errors.Unwrap(err)] *)
Definition Unwrap (e : error) : option error :=
  match e with
  | errorString _ => None
  | wrapError _ cause => Some cause
  end.

(** ** Contexts *)

(** What a service can observe of a [context.Context]: whether the channel
    returned by [Done()] is closed. *)
Record Context : Type := mkContext { ctx_done : bool }.

(** [context.Background()] *)
Definition Background : Context := mkContext false.

(** The [context.CancelFunc] stored in the container cancels [runCtx]. *)
Inductive CancelFunc : Type := cancelRunCtx.

(** [context.WithCancel(parent)]: the child starts out done exactly when
    the parent already is. *)
Definition WithCancel (parent : Context) : Context * CancelFunc :=
  (mkContext (ctx_done parent), cancelRunCtx).

(** ** Services *)

(** [type InitFunc func(ctx context.Context) error] *)
Definition InitFunc : Type := Context -> option error.

(** [type RunFunc func(ctx context.Context) error].  [Run] blocks; [None]
    says the call has not returned under the given state of the context,
    [Some r] that it returns [r]. *)
Definition RunFunc : Type := Context -> option (option error).

(** A value passed to [Register]: its dynamic type name, its [String]
    method when it is a [fmt.Stringer], its [Init] method when it is an
    [Initer], and the mandatory [Run] of the [Runner] interface. *)
Record Runner : Type := mkRunner {
  type_name : string;
  stringer : option string;
  initer : option InitFunc;
  Run : RunFunc
}.

Record serviceInfo : Type := mkServiceInfo {
  name : string;
  service : Runner
}.

(** [chan error] with a buffer: the queued values and the closed flag. *)
Record chan : Type := mkChan {
  chan_cap : nat;
  chan_buf : list (option error);
  chan_closed : bool
}.

(** [make(chan error, n)] *)
Definition make_chan (n : nat) : chan := mkChan n [] false.

Record runContext : Type := mkRunContext {
  rc_service : serviceInfo;
  running : bool;
  done : chan;
  err : option error
}.

Record Container : Type := mkContainer {
  runCtx : option Context;
  runCtxCancel : option CancelFunc;
  services : list serviceInfo;
  runContexts : gmap string runContext
}.

Definition NewContainer : Container :=
  mkContainer None None [] ∅.

(** Field updates. *)
Definition set_services (ss : list serviceInfo) (c : Container) : Container :=
  mkContainer (runCtx c) (runCtxCancel c) ss (runContexts c).

Definition set_runContexts (m : gmap string runContext) (c : Container) : Container :=
  mkContainer (runCtx c) (runCtxCancel c) (services c) m.

Definition set_runCtx (x : option Context) (f : option CancelFunc) (c : Container) : Container :=
  mkContainer x f (services c) (runContexts c).

Definition set_running (b : bool) (rc : runContext) : runContext :=
  mkRunContext (rc_service rc) b (done rc) (err rc).

Definition set_err (e : option error) (rc : runContext) : runContext :=
  mkRunContext (rc_service rc) (running rc) (done rc) e.

Definition set_done (ch : chan) (rc : runContext) : runContext :=
  mkRunContext (rc_service rc) (running rc) ch (err rc).

(** ** The monad of calls that may panic *)

Inductive Res (S A : Type) : Type :=
| Ok (a : A) (s : S)
| Panic (msg : string) (s : S).
Arguments Ok {S A} a s.
Arguments Panic {S A} msg s.

Definition M (S A : Type) : Type := S -> Res S A.

Definition ret {S A} (a : A) : M S A := fun s => Ok a s.

Definition bind {S A B} (m : M S A) (k : A -> M S B) : M S B :=
  fun s => match m s with
           | Ok a s' => k a s'
           | Panic msg s' => Panic msg s'
           end.

Definition panic {S A} (msg : string) : M S A := fun s => Panic msg s.
Definition get {S} : M S S := fun s => Ok s s.
Definition modify {S} (f : S -> S) : M S unit := fun s => Ok tt (f s).

Notation "x <~ m ;; k" := (bind m (fun x => k))
  (at level 20, m at level 99, k at level 200, only parsing).

(** The state a result carries. *)
Definition state_of {S A} (r : Res S A) : S :=
  match r with Ok _ s => s | Panic _ s => s end.

Definition is_panic {S A} (r : Res S A) : bool :=
  match r with Ok _ _ => false | Panic _ _ => true end.

(** ** Registration *)

(** The name [Register] resolves: [fmt.Sprintf("%T", service)], replaced by
    [String()] when the value is a [fmt.Stringer]. *)
Definition resolve_name (svc : Runner) : string :=
  match stringer svc with
  | Some s => s
  | None => type_name svc
  end.

(** [for _, s := range c.services { if s.name == name { panic(...) } }] *)
Fixpoint check_not_registered (nm : string) (ss : list serviceInfo) : M Container unit :=
  match ss with
  | [] => ret tt
  | s :: rest =>
      if String.eqb (name s) nm
      then panic ("Service '" +:+ nm +:+ "' already registered")
      else check_not_registered nm rest
  end.

Definition Register (svc : Runner) : M Container unit :=
  let nm := resolve_name svc in
  c <~ get ;;
  _ <~ check_not_registered nm (services c) ;;
  modify (fun c => set_services (services c ++ [mkServiceInfo nm svc]) c).

(** ** Stop, and the introspection calls *)

(** Calling the stored cancel function: [runCtx] becomes done; calling it
    again changes nothing. *)
Definition call_cancel (f : CancelFunc) : M Container unit :=
  match f with
  | cancelRunCtx =>
      modify (fun c => set_runCtx
                         (match runCtx c with
                          | Some _ => Some (mkContext true)
                          | None => None
                          end)
                         (runCtxCancel c) c)
  end.

Definition StopAll : M Container unit :=
  c <~ get ;;
  match runCtxCancel c with
  | None => panic "call Container.StartAll() before StopAll()"
  | Some f => call_cancel f
  end.

(** [RunningCount]: the fold over the map; Go does not fix the order of
    iteration and the result does not depend on it. *)
Definition RunningCount (c : Container) : nat :=
  map_fold (fun _ rc cnt => if running rc then S cnt else cnt) 0 (runContexts c).

Definition ServiceErrors (c : Container) : gmap string error :=
  map_fold (fun _ rc errs =>
              match err rc with
              | Some e => <[name (rc_service rc) := e]> errs
              | None => errs
              end) ∅ (runContexts c).

(** Whether the cancellation signal of the container has been triggered. *)
Definition cancelled (c : Container) : bool :=
  match runCtx c with
  | Some ctx => ctx_done ctx
  | None => false
  end.

(** ** Goroutines and the history of calls into the services *)

(** The two closures the controller starts with [go]: the one of [initOne]
    that sends [nil] on the [done] channel of the record named [nm], and
    the unit of [runOne] that executes [s.service.Run(ctx)]. *)
Inductive goroutine : Type :=
| GoSynthDone (nm : string)
| GoRun (s : serviceInfo).

(** Calls into the registered services, in the order they happen. *)
Inductive effect : Type :=
| CallInit (nm : string) (res : option error)
| LaunchRun (nm : string)
| RunReturned (nm : string) (res : option error).

Record World : Type := mkWorld {
  cont : Container;
  pool : list goroutine;
  history : list effect
}.

Definition init_world : World := mkWorld NewContainer [] [].

Definition on_cont (f : Container -> Container) (w : World) : World :=
  mkWorld (f (cont w)) (pool w) (history w).

(** Run a call on the container inside the world. *)
Definition liftC {A} (m : M Container A) : M World A :=
  fun w => match m (cont w) with
           | Ok a c => Ok a (mkWorld c (pool w) (history w))
           | Panic msg c => Panic msg (mkWorld c (pool w) (history w))
           end.

(** [go func() {...}()] *)
Definition go (g : goroutine) : M World unit :=
  modify (fun w => mkWorld (cont w) (pool w ++ [g]) (history w)).

(** Ghost: append a call into a service to the history. *)
Definition emit (e : effect) : M World unit :=
  modify (fun w => mkWorld (cont w) (pool w) (history w ++ [e])).

(** An update through the pointer [runner] that [initOne] stored and
    [runOne] looked up under [nm]; entries of [runContexts] are never
    replaced or removed, so the pointer and the key name one record. *)
Definition on_runner (nm : string) (f : runContext -> runContext) : M World unit :=
  modify (on_cont (fun c => set_runContexts (alter f nm (runContexts c)) c)).

Definition newRunContext (s : serviceInfo) : runContext :=
  mkRunContext s false (make_chan 1) None.

(** The context held in [c.runCtx]; it is non-nil from the assignment in
    [StartAll] on. *)
Definition runCtx_of (c : Container) : Context :=
  match runCtx c with
  | Some ctx => ctx
  | None => Background
  end.

(** ** Init and launch of one service *)

(** [c.initOne(ctx, s)]; the only caller passes [c.runCtx]. *)
Definition initOne (ctx : Context) (s : serviceInfo) : M World (option error) :=
  let runner := newRunContext s in
  w <~ get ;;
  match runContexts (cont w) !! name s with
  | Some _ =>
      ret (Some (errorString ("service '" +:+ name s +:+ "' already started")))
  | None =>
      _ <~ modify (on_cont (fun c =>
             set_runContexts (<[name s := runner]> (runContexts c)) c)) ;;
      match initer (service s) with
      | Some Init =>
          let err := Init ctx in
          _ <~ emit (CallInit (name s) err) ;;
          match err with
          | Some e =>
              _ <~ go (GoSynthDone (name s)) ;;
              ret (Some (wrapError
                           ("failed to init service " +:+ name s +:+ ": " +:+ Error e) e))
          | None => ret None
          end
      | None => ret None
      end
  end.

(** [c.runOne(ctx, s)]; the only caller passes [c.runCtx], the shared
    context, whose state the unit reads when it is scheduled ([go_body]).
    The closure started with [go] is the pool entry [GoRun s]. *)
Definition runOne (s : serviceInfo) : M World (option error) :=
  w <~ get ;;
  match runContexts (cont w) !! name s with
  | None =>
      ret (Some (errorString ("service '" +:+ name s +:+ "' not initialized")))
  | Some runner =>
      if running runner
      then ret (Some (errorString ("service '" +:+ name s +:+ "' already running")))
      else
        _ <~ on_runner (name s) (set_running true) ;;
        _ <~ go (GoRun s) ;;
        _ <~ emit (LaunchRun (name s)) ;;
        ret None
  end.

(** ** The bodies of the goroutines *)

(** [close(ch)] *)
Definition close_chan (ch : chan) : option chan :=
  if chan_closed ch then None
  else Some (mkChan (chan_cap ch) (chan_buf ch) true).

(** [ch <- v]: [None] when the send blocks (the buffer is full). *)
Definition send_chan (v : option error) (ch : chan) : option (option chan) :=
  if chan_closed ch then Some None
  else if Nat.ltb (length (chan_buf ch)) (chan_cap ch)
       then Some (Some (mkChan (chan_cap ch) (chan_buf ch ++ [v]) false))
       else None.

(** [close(runner.done)] *)
Definition close_done (nm : string) : M World unit :=
  w <~ get ;;
  match runContexts (cont w) !! nm with
  | Some rc =>
      match close_chan (done rc) with
      | Some ch => on_runner nm (set_done ch)
      | None => panic "close of closed channel"
      end
  | None => ret tt
  end.

(** The closure of [runOne] from the return of [Run] with [runErr] on. *)
Definition run_closure (s : serviceInfo) (runErr : option error) : M World unit :=
  _ <~ emit (RunReturned (name s) runErr) ;;
  _ <~ on_runner (name s) (set_err runErr) ;;
  _ <~ on_runner (name s) (set_running false) ;;
  _ <~ close_done (name s) ;;
  match runErr with
  | Some _ => liftC StopAll
  | None => ret tt
  end.

(** The closure of [initOne]: [runner.done <- nil]. *)
Definition synth_closure (nm : string) (w : World) : option (Res World unit) :=
  match runContexts (cont w) !! nm with
  | Some rc =>
      match send_chan None (done rc) with
      | None => None
      | Some None => Some (Panic "send on closed channel" w)
      | Some (Some ch) => Some (on_runner nm (set_done ch) w)
      end
  | None => Some (Ok tt w)
  end.

(** One scheduling step of a goroutine: [None] when it is blocked. *)
Definition go_body (g : goroutine) (w : World) : option (Res World unit) :=
  match g with
  | GoSynthDone nm => synth_closure nm w
  | GoRun s =>
      match Run (service s) (runCtx_of (cont w)) with
      | None => None
      | Some runErr => Some (run_closure s runErr w)
      end
  end.

Definition remove_goroutine (i : nat) (w : World) : World :=
  mkWorld (cont w) (delete i (pool w)) (history w).

(** The scheduler runs the [i]-th goroutine of the pool to its end. *)
Definition go_step (i : nat) (w : World) : option (Res World unit) :=
  match pool w !! i with
  | None => None
  | Some g => go_body g (remove_goroutine i w)
  end.

(** ** [StartAll] *)

(** The goroutines launched so far may run while [StartAll] is still in
    its second loop.  [yield_to i] lets the scheduler run the [i]-th entry
    of the pool; a goroutine that is blocked, or an index with no entry,
    leaves the world as it is. *)
Definition yield_to (i : nat) : M World unit :=
  fun w => match go_step i w with
           | Some r => r
           | None => Ok tt w
           end.

Fixpoint interleave (js : list nat) : M World unit :=
  match js with
  | [] => ret tt
  | j :: rest => _ <~ yield_to j ;; interleave rest
  end.

(** [for i := range c.services { err := c.initOne(c.runCtx, s); ... }] *)
Fixpoint init_loop (ss : list serviceInfo) : M World (option error) :=
  match ss with
  | [] => ret None
  | s :: rest =>
      w <~ get ;;
      err <~ initOne (runCtx_of (cont w)) s ;;
      match err with
      | Some e => _ <~ liftC StopAll ;; ret (Some e)
      | None => init_loop rest
      end
  end.

(** [for i := range c.services { err := c.runOne(c.runCtx, s); ... }];
    [steps] gives, launch by launch, the goroutines the scheduler runs
    before that launch. *)
Fixpoint run_loop (steps : list (list nat)) (ss : list serviceInfo)
  : M World (option error) :=
  match ss with
  | [] => ret None
  | s :: rest =>
      _ <~ interleave (hd [] steps) ;;
      err <~ runOne s ;;
      match err with
      | Some e => _ <~ liftC StopAll ;; ret (Some e)
      | None => run_loop (tl steps) rest
      end
  end.

(** [StartAll] under a schedule of the goroutines it launches. *)
Definition StartAll_sched (steps : list (list nat)) (ctx : Context)
  : M World (option error) :=
  w <~ get ;;
  match runCtx (cont w) with
  | Some _ => panic "Container.StartAll can only be called once"
  | None =>
      let '(rctx, cancel) := WithCancel ctx in
      _ <~ modify (on_cont (set_runCtx (Some rctx) (Some cancel))) ;;
      err <~ init_loop (services (cont w)) ;;
      match err with
      | Some e => ret (Some e)
      | None => run_loop steps (services (cont w))
      end
  end.

(** [StartAll] when no goroutine is scheduled before it returns. *)
Definition StartAll (ctx : Context) : M World (option error) :=
  StartAll_sched [] ctx.

(** ** Executions *)

Inductive event : Type :=
| EvRegister (svc : Runner)
| EvStartAll (ctx : Context) (steps : list (list nat))
| EvStopAll
| EvParentCancel
| EvGo (i : nat).

(** The parent context handed to [StartAll] is cancelled by its owner:
    the derived [runCtx] becomes done. *)
Definition parent_cancel (c : Container) : Container :=
  match runCtx c with
  | Some _ => set_runCtx (Some (mkContext true)) (runCtxCancel c) c
  | None => c
  end.

(** What an event does; a goroutine that is blocked yields [None]. *)
Definition exec (ev : event) (w : World) : option (Res World (option error)) :=
  match ev with
  | EvRegister svc => Some ((_ <~ liftC (Register svc) ;; ret None) w)
  | EvStartAll ctx steps => Some (StartAll_sched steps ctx w)
  | EvStopAll => Some ((_ <~ liftC StopAll ;; ret None) w)
  | EvParentCancel => Some (Ok None (on_cont parent_cancel w))
  | EvGo i => match go_step i w with
              | Some r => Some ((_ <~ (fun _ => r) ;; ret None) w)
              | None => None
              end
  end.

(** A step of the program: the event is enabled and does not panic. *)
Definition step (ev : event) (w : World) : option World :=
  match exec ev w with
  | Some (Ok _ w') => Some w'
  | _ => None
  end.

Fixpoint run (evs : list event) (w : World) : option World :=
  match evs with
  | [] => Some w
  | ev :: rest =>
      match step ev w with
      | Some w' => run rest w'
      | None => None
      end
  end.

Inductive reachable : World -> Prop :=
| reachable_init : reachable init_world
| reachable_step ev w w' :
    reachable w -> step ev w = Some w' -> reachable w'.

(** ** Waiting for the services to stop *)

(** The goroutines [WaitAllStoppedTimeout] starts, one per entry of
    [runContexts]: about to call [rc.wait()], or blocked in [<-rc.done]
    after it saw [rc.running]. *)
Inductive waiter : Type :=
| WaitEnter (nm : string)
| WaitRecv (nm : string).

(** The local state of one call: the time elapsed since the call (in the
    unit of [time.Duration]), the timeout, the counter of the
    [sync.WaitGroup], the waiters that have not called [wg.Done()] yet,
    whether the goroutine of [wg.Wait(); cancel()] is still pending, and
    whether [cancel] has been called on the local context. *)
Record waitState : Type := mkWaitState {
  elapsed : Z;
  timeout_of : Z;
  wg : nat;
  waiters : list waiter;
  joiner : bool;
  local_cancelled : bool
}.

(** The local context of the call is done: [cancel()] was called, or it
    was made by [context.WithTimeout] and the deadline has come. *)
Definition local_done (st : waitState) : bool :=
  local_cancelled st
  || (negb (Z.eqb (timeout_of st) 0) && Z.leb (timeout_of st) (elapsed st)).

(** [v := <-ch]: [None] when the receive blocks. *)
Definition recv_chan (ch : chan) : option (option error * chan) :=
  match chan_buf ch with
  | v :: rest => Some (v, mkChan (chan_cap ch) rest (chan_closed ch))
  | [] => if chan_closed ch then Some (None, ch) else None
  end.

Inductive wait_event : Type :=
| WTick                     (* one unit of time passes *)
| WWorld (ev : event)       (* something else happens in the program *)
| WWaiter (j : nat)         (* the j-th waiter is scheduled *)
| WJoin.                    (* the goroutine of wg.Wait() is scheduled *)

(** [wg.Done()] by the [j]-th waiter, which ends.  The counter is the
    number of waiters left ([wait_inv]), so it is positive here. *)
Definition waiter_done (j : nat) (st : waitState) : waitState :=
  mkWaitState (elapsed st) (timeout_of st) (wg st - 1) (delete j (waiters st))
              (joiner st) (local_cancelled st).

Definition set_waiter (j : nat) (x : waiter) (st : waitState) : waitState :=
  mkWaitState (elapsed st) (timeout_of st) (wg st) (<[j := x]> (waiters st))
              (joiner st) (local_cancelled st).

(** One scheduling step of a waiter: [rc.wait(); c.onStopped(rc); wg.Done()]
    with [func (rc *runContext) wait() { if !rc.running { return }; <-rc.done }].
    [None] when it is blocked or there is no such waiter. *)
Definition waiter_step (j : nat) (st : waitState) (w : World) : option (waitState * World) :=
  match waiters st !! j with
  | None => None
  | Some (WaitEnter nm) =>
      match runContexts (cont w) !! nm with
      | Some rc =>
          if running rc
          then Some (set_waiter j (WaitRecv nm) st, w)
          else Some (waiter_done j st, w)
      | None => Some (waiter_done j st, w)
      end
  | Some (WaitRecv nm) =>
      match runContexts (cont w) !! nm with
      | Some rc =>
          match recv_chan (done rc) with
          | Some (_, ch) =>
              Some (waiter_done j st,
                    on_cont (fun c => set_runContexts
                                        (alter (set_done ch) nm (runContexts c)) c) w)
          | None => None
          end
      | None => Some (waiter_done j st, w)
      end
  end.

(** [go func() { wg.Wait(); cancel() }()] *)
Definition join_step (st : waitState) : option waitState :=
  if joiner st && Nat.eqb (wg st) 0
  then Some (mkWaitState (elapsed st) (timeout_of st) (wg st) (waiters st) false true)
  else None.

Definition tick (st : waitState) : waitState :=
  mkWaitState (elapsed st + 1) (timeout_of st) (wg st) (waiters st)
              (joiner st) (local_cancelled st).

(** An event of the program that is not enabled leaves the world as it is. *)
Definition step_or_skip (ev : event) (w : World) : World :=
  match step ev w with
  | Some w' => w'
  | None => w
  end.

Definition wait_step (ev : wait_event) (st : waitState) (w : World) : waitState * World :=
  match ev with
  | WTick => (tick st, w)
  | WWorld e => (st, step_or_skip e w)
  | WWaiter j => match waiter_step j st w with
                 | Some r => r
                 | None => (st, w)
                 end
  | WJoin => match join_step st with
             | Some st' => (st', w)
             | None => (st, w)
             end
  end.

(** How a call of [WaitAllStoppedTimeout] ends under a schedule: it
    returns after some time, having let [n] events of the schedule happen,
    or it is still blocked in [<-ctx.Done()] when the schedule ends. *)
Inductive wait_outcome : Type :=
| WaitReturned (t : Z) (n : nat)
| WaitBlocked (st : waitState).

(** [<-ctx.Done()]: the caller resumes as soon as the local context is
    done. *)
Fixpoint wait_loop (sched : list wait_event) (n : nat) (st : waitState) (w : World)
  : wait_outcome * World :=
  if local_done st then (WaitReturned (elapsed st) n, w)
  else match sched with
       | [] => (WaitBlocked st, w)
       | ev :: rest =>
           let '(st', w') := wait_step ev st w in
           wait_loop rest (S n) st' w'
       end.

(** The state of the call when the caller reaches [<-ctx.Done()]:
    [wg.Add(len(c.runContexts))], one waiter per entry of the map, the
    joining goroutine pending. *)
Definition wait_start (timeout : Z) (c : Container) : waitState :=
  mkWaitState 0 timeout (size (runContexts c))
              (WaitEnter <$> (map_to_list (runContexts c)).*1) true false.

Definition WaitAllStoppedTimeout (timeout : Z) (sched : list wait_event)
  : M World wait_outcome :=
  fun w =>
    match runCtxCancel (cont w) with
    | None => Panic "call Container.StartAll() before WaitAllStopped()" w
    | Some _ =>
        let '(r, w') := wait_loop sched 0 (wait_start timeout (cont w)) w in
        Ok r w'
    end.

Definition WaitAllStopped (sched : list wait_event) : M World wait_outcome :=
  WaitAllStoppedTimeout 0 sched.


Definition run_skip (evs : list event) (w : World) : World :=
  foldl (fun w ev => step_or_skip ev w) w evs.


(** ** The process-wide default container *)

(** The heap of containers of the process (a [*Container] is an index
    into it) and the package variable [defaultContainer]. *)
Record Process : Type := mkProcess {
  heap : list Container;
  defaultContainer : option nat
}.

Definition init_process : Process := mkProcess [] None.

(** [&Container{...}]: a fresh address. *)
Definition alloc (c : Container) : M Process nat :=
  fun p => Ok (length (heap p)) (mkProcess (heap p ++ [c]) (defaultContainer p)).

Definition Default : M Process nat :=
  p <~ get ;;
  match defaultContainer p with
  | None =>
      ptr <~ alloc NewContainer ;;
      _ <~ modify (fun p => mkProcess (heap p) (Some ptr)) ;;
      ret ptr
  | Some ptr => ret ptr
  end.

(** A method call through a [*Container]. *)
Definition at_ptr {A} (ptr : nat) (m : M Container A) : M Process A :=
  fun p =>
    match heap p !! ptr with
    | Some c =>
        match m c with
        | Ok a c' => Ok a (mkProcess (<[ptr := c']> (heap p)) (defaultContainer p))
        | Panic msg c' => Panic msg (mkProcess (<[ptr := c']> (heap p)) (defaultContainer p))
        end
    | None => Panic "invalid memory address or nil pointer dereference" p
    end.

(** [Default().Register(service)] *)
Definition RegisterDefault (svc : Runner) : M Process unit :=
  ptr <~ Default ;;
  at_ptr ptr (Register svc).

(** ** Notions used in the statements *)

(** The result of the Init phase for one service: [nil] when the service
    is no [Initer]. *)
Definition init_result (ctx : Context) (s : serviceInfo) : option error :=
  match initer (service s) with
  | Some Init => Init ctx
  | None => None
  end.

(** The calls of [Init] made for a list of services, in order. *)
Fixpoint init_calls (ctx : Context) (ss : list serviceInfo) : list effect :=
  match ss with
  | [] => []
  | s :: rest =>
      match initer (service s) with
      | Some Init => CallInit (name s) (Init ctx) :: init_calls ctx rest
      | None => init_calls ctx rest
      end
  end.

(** The map after [c.runContexts[s.name] = runner] for each service. *)
Fixpoint add_recs (ss : list serviceInfo) (m : gmap string runContext)
  : gmap string runContext :=
  match ss with
  | [] => m
  | s :: rest => add_recs rest (<[name s := newRunContext s]> m)
  end.

(** The map after [runner.running = true] for each service. *)
Fixpoint mark_running (ss : list serviceInfo) (m : gmap string runContext)
  : gmap string runContext :=
  match ss with
  | [] => m
  | s :: rest => mark_running rest (alter (set_running true) (name s) m)
  end.

(** The error [initOne] returns when [Init] fails with [e]. *)
Definition init_error (s : serviceInfo) (e : error) : error :=
  wrapError ("failed to init service " +:+ name s +:+ ": " +:+ Error e) e.

Definition go_name (g : goroutine) : string :=
  match g with
  | GoSynthDone nm => nm
  | GoRun s => name s
  end.

Definition init_failed (h : list effect) : Prop :=
  exists nm e, CallInit nm (Some e) ∈ h.

(** The contract of [Runner]: [Run] returns once the context is done. *)
Definition cooperative (s : serviceInfo) : Prop :=
  forall ctx, ctx_done ctx = true -> Run (service s) ctx <> None.

(** The container after the unit of the record [rc] named [nm] has run its
    closure with the result [runErr] of [Run]. *)
Definition after_run (nm : string) (rc : runContext) (runErr : option error)
  (c : Container) : Container :=
  mkContainer
    (match runErr with
     | Some _ => match runCtx c with Some _ => Some (mkContext true) | None => None end
     | None => runCtx c
     end)
    (runCtxCancel c) (services c)
    (<[nm := mkRunContext (rc_service rc) false
               (mkChan (chan_cap (done rc)) (chan_buf (done rc)) true) runErr]>
       (runContexts c)).

(** A record in its terminal state after [Run] returned [r]. *)
Definition terminal (r : option error) (rc : runContext) : Prop :=
  running rc = false /\ err rc = r /\ done rc = mkChan 1 [] true.

(** What holds in every reachable state. *)
Record inv (w : World) : Prop := mkInv {
  inv_names : NoDup (name <$> services (cont w));
  inv_cancel : runCtx (cont w) = None <-> runCtxCancel (cont w) = None;
  inv_unstarted :
    runCtx (cont w) = None ->
    runContexts (cont w) = ∅ /\ pool w = [] /\ history w = [];
  inv_rec_name : forall nm rc,
    runContexts (cont w) !! nm = Some rc -> name (rc_service rc) = nm;
  inv_pool_nodup : NoDup (go_name <$> pool w);
  inv_pool_run : forall s,
    GoRun s ∈ pool w ->
    exists rc, runContexts (cont w) !! name s = Some rc
               /\ running rc = true /\ done rc = make_chan 1 /\ err rc = None;
  inv_pool_synth : forall nm,
    GoSynthDone nm ∈ pool w ->
    init_failed (history w)
    /\ exists rc, runContexts (cont w) !! nm = Some rc
                  /\ running rc = false /\ done rc = make_chan 1 /\ err rc = None;
  inv_running : forall nm rc,
    runContexts (cont w) !! nm = Some rc -> running rc = true ->
    LaunchRun nm ∈ history w /\ exists s, GoRun s ∈ pool w /\ name s = nm;
  inv_returned : forall nm r,
    RunReturned nm r ∈ history w ->
    LaunchRun nm ∈ history w
    /\ exists rc, runContexts (cont w) !! nm = Some rc /\ terminal r rc;
  inv_err : forall nm rc e,
    runContexts (cont w) !! nm = Some rc -> err rc = Some e ->
    RunReturned nm (Some e) ∈ history w;
  inv_launched : forall nm,
    LaunchRun nm ∈ history w ->
    ~ init_failed (history w)
    /\ exists rc, runContexts (cont w) !! nm = Some rc
                  /\ chan_buf (done rc) = []
                  /\ (running rc = true \/ chan_closed (done rc) = true)
}.

(** Whether [StartAll] is among the calls of an execution. *)
Definition has_StartAll (evs : list event) : bool :=
  existsb (fun ev => match ev with EvStartAll _ _ => true | _ => false end) evs.

Definition is_go (ev : event) : bool :=
  match ev with EvGo _ => true | _ => false end.

(** What relates the local state of a pending [WaitAllStoppedTimeout] to
    the world: the counter of the wait group is the number of waiters
    left, a waiter blocked in [<-rc.done] belongs to a launched service,
    every running record still has its waiter, and the local context is
    cancelled only after all waiters are gone. *)
Record wait_inv (st : waitState) (w : World) : Prop := mkWaitInv {
  wi_wg : wg st = length (waiters st);
  wi_recv : forall nm, WaitRecv nm ∈ waiters st -> LaunchRun nm ∈ history w;
  wi_running : forall nm rc,
    runContexts (cont w) !! nm = Some rc -> running rc = true ->
    WaitEnter nm ∈ waiters st \/ WaitRecv nm ∈ waiters st;
  wi_cancelled : local_cancelled st = true -> waiters st = []
}.

(** ** The services of the test suite *)

(** [testService] of the tests of the package, as far as the controller observes
    it: [Init] returns [ErrorDuringInit]; [Run] returns [ErrorDuringRun]
    at once when it is set, and otherwise [ErrorAfterRun] once the context
    is done, or at once under [SkipWaitForCtx]. *)
Record testService : Type := mkTestService {
  Name : string;
  ErrorDuringInit : option error;
  ErrorDuringRun : option error;
  ErrorAfterRun : option error;
  SkipWaitForCtx : bool
}.

Definition testService_Runner (t : testService) : Runner :=
  mkRunner "*services_test.testService"
    (Some ("testService." +:+ Name t))
    (Some (fun _ => ErrorDuringInit t))
    (fun ctx =>
       match ErrorDuringRun t with
       | Some e => Some (Some e)
       | None =>
           if SkipWaitForCtx t || ctx_done ctx
           then Some (ErrorAfterRun t)
           else None
       end).

(** The [serviceInfo] that [Register] makes of a value. *)
Definition info_of (svc : Runner) : serviceInfo :=
  mkServiceInfo (resolve_name svc) svc.

Definition init_failure : error := errorString "service failed during init".
Definition run_failure : error := errorString "service failed during run".

Definition ts1 : Runner :=
  testService_Runner (mkTestService "s1" None None None false).
Definition ts2_init_fails : Runner :=
  testService_Runner (mkTestService "s2" (Some init_failure) None None false).
Definition ts2_run_fails : Runner :=
  testService_Runner (mkTestService "s2" None (Some run_failure) None false).
Definition ts2_returns : Runner :=
  testService_Runner (mkTestService "s2" None None None true).
Definition ts3 : Runner :=
  testService_Runner (mkTestService "s3" None None None false).

(** The state an execution from the fresh container leads to. *)
Definition world_after (evs : list event) : World :=
  match run evs init_world with
  | Some w => w
  | None => init_world
  end.

(** [TestStopWhenInitFails], [TestStopWhenRunFails] and
    [TestServiceCanReturnWithoutError], up to the registrations and up to
    the return of [StartAll]. *)
Definition regs_init_fails : list event :=
  [EvRegister ts1; EvRegister ts2_init_fails; EvRegister ts3].
Definition regs_run_fails : list event :=
  [EvRegister ts1; EvRegister ts2_run_fails; EvRegister ts3].
Definition regs_returns : list event :=
  [EvRegister ts1; EvRegister ts2_returns; EvRegister ts3].


(** * The rest of the package *)

(** ** Ranging over the run records *)

(** [for k, rc := range c.runContexts] visits every entry once, in an order
    that Go does not fix.  The loops that build a slice take the entries in
    the order they are visited; [range_of c kvs] says that [kvs] is such an
    order for the container [c]. *)
Definition range_of (c : Container) (kvs : list (string * runContext)) : Prop :=
  kvs ≡ₚ map_to_list (runContexts c).

(** [runningServices]: [if rc.running { rcs = append(rcs, rc) }] for each
    entry. *)
Definition runningServices_over (kvs : list (string * runContext)) : list runContext :=
  foldl (fun rcs kv => if running kv.2 then rcs ++ [kv.2] else rcs) [] kvs.

Definition runningServices (c : Container) : list runContext :=
  runningServices_over (map_to_list (runContexts c)).

(** [ServiceNames]: [names = append(names, rc.service.name)] for each
    entry. *)
Definition ServiceNames_over (kvs : list (string * runContext)) : list string :=
  foldl (fun names kv => names ++ [name (rc_service kv.2)]) [] kvs.

Definition ServiceNames (c : Container) : list string :=
  ServiceNames_over (map_to_list (runContexts c)).

(** ** Services made of functions ([func.go]) *)

(** A func value whose name is asked for: the name that
    [runtime.FuncForPC(...).Name()] reports for its code, and what a call
    of it does.  The func values of this section are non-nil unless their
    type is an [option]: a call of a nil func ends the process. *)
Record Func (T : Type) : Type := mkFunc { func_name : string; func_call : T }.
Arguments mkFunc {T} _ _.
Arguments func_name {T} _.
Arguments func_call {T} _.

(** [getFunctionName(i interface{})]; [None] is the nil interface value. *)
Definition getFunctionName {T} (i : option (Func T)) : string :=
  match i with
  | None => "nil"
  | Some f => func_name f
  end.

(** [genericService] and its methods; a nil [init] is [None]. *)
Module genericService.

Record t : Type := mk {
  name : string;
  init : option InitFunc;
  run : RunFunc
}.

Definition Init (sr : t) : InitFunc :=
  fun ctx =>
    match init sr with
    | None => None
    | Some f => f ctx
    end.

Definition Run (sr : t) : RunFunc := fun ctx => run sr ctx.

Definition String (sr : t) : string := name sr.

End genericService.

(** A [*genericService] as the value [Register] receives: it has all three
    methods, so it is a [fmt.Stringer] and an [Initer]. *)
Definition genericService_Runner (sr : genericService.t) : Runner :=
  mkRunner "*services.genericService"
    (Some (genericService.String sr))
    (Some (genericService.Init sr))
    (genericService.Run sr).

Definition WithRunFunc (runFn : Func RunFunc) : Runner :=
  genericService_Runner
    (genericService.mk (getFunctionName (Some runFn)) None (func_call runFn)).

Definition WithFunc (initFn : option InitFunc) (runFn : Func RunFunc) : Runner :=
  genericService_Runner
    (genericService.mk (getFunctionName (Some runFn)) initFn (func_call runFn)).

(** [type FuncService func(ctx context.Context) error] with its methods
    [Run] and [String]; it has no [Init]. *)
Module FuncService.

Definition t : Type := Func RunFunc.

Definition Run (f : t) : RunFunc := fun ctx => func_call f ctx.

Definition String (f : t) : string := getFunctionName (Some f).

End FuncService.

Definition FuncService_Runner (f : FuncService.t) : Runner :=
  mkRunner "services.FuncService" (Some (FuncService.String f)) None (FuncService.Run f).

(** ** The builder ([builder.go]) *)

(** [startRunner], the service a [Builder] registers: [Init] calls
    [sr.init] without a test for nil. *)
Module startRunner.

Record t : Type := mk {
  name : string;
  init : InitFunc;
  run : RunFunc
}.

Definition Init (sr : t) : InitFunc := fun ctx => init sr ctx.

Definition Run (sr : t) : RunFunc := fun ctx => run sr ctx.

Definition String (sr : t) : string := name sr.

End startRunner.

Definition startRunner_Runner (sr : startRunner.t) : Runner :=
  mkRunner "*services.startRunner"
    (Some (startRunner.String sr))
    (Some (startRunner.Init sr))
    (startRunner.Run sr).

(** The methods [Init] and [Run] of [*Builder] assign a field and return
    the receiver; the embedding passes the updated builder on. *)
Module Builder.

Record t : Type := mk {
  name : string;
  init : InitFunc;
  run : RunFunc
}.

Definition Init (f : InitFunc) (b : t) : t := mk (name b) f (run b).

Definition Run (f : RunFunc) (b : t) : t := mk (name b) (init b) f.

Definition Register (b : t) : M Container unit :=
  Register (startRunner_Runner (startRunner.mk (name b) (init b) (run b))).

Definition RegisterDefault (b : t) : M Process unit :=
  RegisterDefault (startRunner_Runner (startRunner.mk (name b) (init b) (run b))).

End Builder.

(** [New(name)]: both funcs return [nil], [run] without waiting for the
    context. *)
Definition New (name : string) : Builder.t :=
  Builder.mk name (fun _ => None) (fun _ => Some None).

(** ** Further notions used in the statements *)

(** The service an entry of the history is about. *)
Definition effect_name (x : effect) : string :=
  match x with
  | CallInit nm _ => nm
  | LaunchRun nm => nm
  | RunReturned nm _ => nm
  end.

(** The goroutines of [runOne], which execute [Run]. *)
Definition is_unit (g : goroutine) : bool :=
  match g with
  | GoRun _ => true
  | GoSynthDone _ => false
  end.

(** What the goroutines and the second loop of [StartAll] leave alone:
    the registry, the service each run record belongs to, and the calls
    of [Init] made so far. *)
Definition same_records (w w' : World) : Prop :=
  services (cont w') = services (cont w)
  /\ (forall nm, rc_service <$> runContexts (cont w') !! nm
                 = rc_service <$> runContexts (cont w) !! nm)
  /\ (forall nm r, CallInit nm r ∈ history w' <-> CallInit nm r ∈ history w).

(** The run records are those of the first [k] registered services. *)
Definition started_prefix (k : nat) (w : World) : Prop :=
  k <= length (services (cont w))
  /\ forall nm, is_Some (runContexts (cont w) !! nm)
                <-> nm ∈ name <$> take k (services (cont w)).

(** What holds of the run records in every reachable state, besides
    [inv]. *)
Record inv_records (w : World) : Prop := mkInvRecords {
  recs_prefix : exists k, started_prefix k w;
  recs_registered : forall nm rc,
    runContexts (cont w) !! nm = Some rc -> rc_service rc ∈ services (cont w);
  recs_init : forall nm r,
    CallInit nm r ∈ history w -> is_Some (runContexts (cont w) !! nm);
  recs_failed : init_failed (history w) -> cancelled (cont w) = true;
  recs_pool : forall s, GoRun s ∈ pool w -> s ∈ services (cont w)
}.

(** ** The order of the calls into the services *)

Definition effect_kind (x : effect) : nat :=
  match x with
  | CallInit _ _ => 0
  | LaunchRun _ => 1
  | RunReturned _ _ => 2
  end.

(** What is called, and for which service. *)
Definition effect_key (x : effect) : nat * string := (effect_kind x, effect_name x).

(** Each call is made at most once per service, every call of [Init]
    comes before every launch of [Run], and a [Run] returns after it was
    launched. *)
Record inv_history (w : World) : Prop := mkInvHistory {
  hist_once : NoDup (effect_key <$> history w);
  hist_init_first : forall i j nm r nm',
    history w !! i = Some (CallInit nm r) ->
    history w !! j = Some (LaunchRun nm') -> i < j;
  hist_launch_first : forall i j nm r,
    history w !! i = Some (LaunchRun nm) ->
    history w !! j = Some (RunReturned nm r) -> i < j
}.

(** ** Further services for the examples *)

Definition ts4 : Runner :=
  testService_Runner (mkTestService "s4" None None None false).

(** Two run functions that return [nil] once the context is done. *)
Definition serve : Func RunFunc :=
  mkFunc "main.serve" (fun ctx => if ctx_done ctx then Some None else None).

Definition poll : Func RunFunc :=
  mkFunc "main.poll" (fun ctx => if ctx_done ctx then Some None else None).

(** [WithRunFunc(serve)] and [FuncService(poll)] registered. *)
Definition regs_functions : list event :=
  [EvRegister (WithRunFunc serve); EvRegister (FuncService_Runner poll)].

(** The service of [New("job")], registered after [s1]. *)
Definition job : Runner :=
  startRunner_Runner
    (startRunner.mk "job" (Builder.init (New "job")) (Builder.run (New "job"))).

Definition regs_job : list event := [EvRegister ts1; EvRegister job].

(** * The earlier revision of the controller

    [service.go] also holds the earlier revision of the package (package
    [services]).  [Register], [NewContainer], [Default] and
    [runningServices] are the same there.  What differs: [startOne] runs
    [Init] and launches [Run] service by service, the [done] channel has
    no buffer, the unit only sends the result of [Run] on it, and it is
    [runContext.Wait], called from [WaitAllStopped], that receives the
    result and updates the record.  [StopAll] cancels and then waits, and
    [FuncService] has no [String] method.

    The conventions are those of the first part.  A send on the channel
    without buffer takes place together with the receive of a waiter; a
    goroutine blocked in a send stays in the pool until then.  The
    goroutines that [WaitAllStopped] starts outlive the call when it
    returns on account of the context of its caller: they are kept in the
    world ([parked]) and go on being scheduled.  The calls on [logrus],
    and the goroutine of [WaitAllStopped] that only logs, are left out. *)
Module V1.

(** [type FuncService func(ctx context.Context) error] has the method
    [Run] only: [Register] names it after its type. *)
Definition FuncService_Runner (f : RunFunc) : Runner :=
  mkRunner "services.FuncService" None None f.

(** The goroutines started with [go] by [startOne]: the closure that
    sends [nil] after a failed [Init]; the unit while it executes
    [s.service.Run(ctx)]; the same unit once [Run] has returned [v],
    blocked in [runner.done <- v]. *)
Inductive goroutine : Type :=
| GoSynthDone (nm : string)
| GoRun (s : serviceInfo)
| GoSend (s : serviceInfo) (v : option error).

Record World : Type := mkWorld {
  cont : Container;
  pool : list goroutine;
  parked : list waiter;
  history : list effect
}.

Definition init_world : World := mkWorld NewContainer [] [] [].

Definition on_cont (f : Container -> Container) (w : World) : World :=
  mkWorld (f (cont w)) (pool w) (parked w) (history w).

Definition liftC {A} (m : M Container A) : M World A :=
  fun w => match m (cont w) with
           | Ok a c => Ok a (mkWorld c (pool w) (parked w) (history w))
           | Panic msg c => Panic msg (mkWorld c (pool w) (parked w) (history w))
           end.

Definition go (g : goroutine) : M World unit :=
  modify (fun w => mkWorld (cont w) (pool w ++ [g]) (parked w) (history w)).

Definition emit (e : effect) : M World unit :=
  modify (fun w => mkWorld (cont w) (pool w) (parked w) (history w ++ [e])).

Definition on_runner (nm : string) (f : runContext -> runContext) : M World unit :=
  modify (on_cont (fun c => set_runContexts (alter f nm (runContexts c)) c)).

(** [done: make(chan error)] *)
Definition newRunContext (s : serviceInfo) : runContext :=
  mkRunContext s false (make_chan 0) None.

(** ** The goroutines of [startOne] *)

Definition go_name (g : goroutine) : string :=
  match g with
  | GoSynthDone nm => nm
  | GoRun s => name s
  | GoSend s _ => name s
  end.

(** A step of the [i]-th goroutine on its own: a unit whose [Run] returns
    goes on to the send on [runner.done].  [None]: [Run] has not returned,
    the goroutine is blocked in its send, or there is no such goroutine. *)
Definition go_step (i : nat) (w : World) : option World :=
  match pool w !! i with
  | Some (GoRun s) =>
      match Run (service s) (runCtx_of (cont w)) with
      | Some v =>
          Some (mkWorld (cont w) (<[i := GoSend s v]> (pool w)) (parked w)
                  (history w ++ [RunReturned (name s) v]))
      | None => None
      end
  | _ => None
  end.

(** The value a goroutine offers on the [done] channel of the record
    [nm], when it is blocked in a send on it. *)
Definition offers (nm : string) (g : goroutine) : option (option error) :=
  match g with
  | GoSynthDone nm' => if String.eqb nm' nm then Some None else None
  | GoSend s v => if String.eqb (name s) nm then Some v else None
  | GoRun _ => None
  end.

(** The first goroutine of the pool blocked in a send on that channel. *)
Fixpoint find_sender (nm : string) (p : list goroutine) : option (nat * option error) :=
  match p with
  | [] => None
  | g :: rest =>
      match offers nm g with
      | Some v => Some (0, v)
      | None =>
          match find_sender nm rest with
          | Some (i, v) => Some (S i, v)
          | None => None
          end
      end
  end.

(** ** [startOne] and [StartAll] *)

(** [c.startOne(ctx, s)] *)
Definition startOne (ctx : Context) (s : serviceInfo) : M World (option error) :=
  let runner := newRunContext s in
  let launch : M World (option error) :=
    _ <~ on_runner (name s) (set_running true) ;;
    _ <~ go (GoRun s) ;;
    _ <~ emit (LaunchRun (name s)) ;;
    ret None in
  w <~ get ;;
  match runContexts (cont w) !! name s with
  | Some _ =>
      ret (Some (errorString ("service '" +:+ name s +:+ "' already started")))
  | None =>
      _ <~ modify (on_cont (fun c =>
             set_runContexts (<[name s := runner]> (runContexts c)) c)) ;;
      match initer (service s) with
      | Some Init =>
          let err := Init ctx in
          _ <~ emit (CallInit (name s) err) ;;
          match err with
          | Some e =>
              _ <~ go (GoSynthDone (name s)) ;;
              ret (Some (wrapError
                           ("failed to init service " +:+ name s +:+ ": " +:+ Error e) e))
          | None => launch
          end
      | None => launch
      end
  end.

(** [c.runCtxCancel()] *)
Definition cancel_runCtx : M Container unit :=
  c <~ get ;;
  match runCtxCancel c with
  | None => panic "invalid memory address or nil pointer dereference"
  | Some f => call_cancel f
  end.

(** The units launched so far may run while [StartAll] is still in its
    loop: a goroutine that is blocked, or an index with no entry, leaves
    the world as it is. *)
Definition yield_to (i : nat) : M World unit :=
  fun w => match go_step i w with
           | Some w' => Ok tt w'
           | None => Ok tt w
           end.

Fixpoint interleave (js : list nat) : M World unit :=
  match js with
  | [] => ret tt
  | j :: rest => _ <~ yield_to j ;; interleave rest
  end.

(** [for i := range c.services { err := c.startOne(c.runCtx, s); ... }];
    [steps] gives, service by service, the goroutines the scheduler runs
    before [startOne] is called for it. *)
Fixpoint start_loop (steps : list (list nat)) (ss : list serviceInfo)
  : M World (option error) :=
  match ss with
  | [] => ret None
  | s :: rest =>
      _ <~ interleave (hd [] steps) ;;
      w <~ get ;;
      err <~ startOne (runCtx_of (cont w)) s ;;
      match err with
      | Some e => _ <~ liftC cancel_runCtx ;; ret (Some e)
      | None => start_loop (tl steps) rest
      end
  end.

Definition StartAll (ctx : Context) (steps : list (list nat)) : M World (option error) :=
  w <~ get ;;
  match runCtx (cont w) with
  | Some _ => panic "Container.StartAll can only be called once"
  | None =>
      let '(rctx, cancel) := WithCancel ctx in
      _ <~ modify (on_cont (set_runCtx (Some rctx) (Some cancel))) ;;
      start_loop steps (services (cont w))
  end.

(** ** [runContext.Wait] *)

(** [rc.err = <-rc.done; rc.running = false], the value coming from the
    [i]-th goroutine of the pool, whose send is over with it. *)
Definition receive (nm : string) (i : nat) (v : option error) (w : World) : World :=
  mkWorld (set_runContexts
             (alter (fun rc => set_running false (set_err v rc)) nm (runContexts (cont w)))
             (cont w))
          (delete i (pool w)) (parked w) (history w).

(** One scheduling step of a goroutine that executes
    [func (rc *runContext) Wait() { if !rc.running { return };
    rc.err = <-rc.done; rc.running = false }]: the test of [rc.running],
    then the receive.  The result is the state the goroutine is in next
    ([None]: [Wait] has returned) and the world; no result: the goroutine
    is blocked in the receive. *)
Definition wait_body (x : waiter) (w : World) : option (option waiter * World) :=
  match x with
  | WaitEnter nm =>
      match runContexts (cont w) !! nm with
      | Some rc => if running rc then Some (Some (WaitRecv nm), w) else Some (None, w)
      | None => Some (None, w)
      end
  | WaitRecv nm =>
      match find_sender nm (pool w) with
      | Some (i, v) => Some (None, receive nm i v w)
      | None => None
      end
  end.

Definition set_parked (l : list waiter) (w : World) : World :=
  mkWorld (cont w) (pool w) l (history w).

(** A step of the [j]-th of the waiters that earlier calls have left
    behind. *)
Definition parked_step (j : nat) (w : World) : option World :=
  match parked w !! j with
  | None => None
  | Some x =>
      match wait_body x w with
      | Some (Some x', w') => Some (set_parked (<[j := x']> (parked w)) w')
      | Some (None, w') => Some (set_parked (delete j (parked w)) w')
      | None => None
      end
  end.

(** ** What happens in one piece *)

Inductive event : Type :=
| EvRegister (svc : Runner)
| EvStartAll (ctx : Context) (steps : list (list nat))
| EvGo (i : nat)
| EvParked (j : nat)
| EvParentCancel.

(** What an event does to the world; [None]: it is not enabled, or the
    call panics. *)
Definition step (ev : event) (w : World) : option World :=
  match ev with
  | EvRegister svc =>
      match liftC (Register svc) w with
      | Ok _ w' => Some w'
      | Panic _ _ => None
      end
  | EvStartAll ctx steps =>
      match StartAll ctx steps w with
      | Ok _ w' => Some w'
      | Panic _ _ => None
      end
  | EvGo i => go_step i w
  | EvParked j => parked_step j w
  | EvParentCancel => Some (on_cont parent_cancel w)
  end.

Definition step_or_skip (ev : event) (w : World) : World :=
  match step ev w with
  | Some w' => w'
  | None => w
  end.

(** ** [WaitAllStopped] and [StopAll] *)

(** The local state of one call: the counter of the wait group, the
    waiters that have not called [wg.Done()] yet, whether the goroutine of
    [wg.Wait(); cancel()] is pending, whether [cancel] was called, and
    whether the context of the caller is done. *)
Record waitState : Type := mkWaitState {
  wg : nat;
  waiters : list waiter;
  joiner : bool;
  local_cancelled : bool;
  parent_done : bool
}.

(** The context made by [context.WithCancel(ctx)] is done. *)
Definition local_done (st : waitState) : bool :=
  local_cancelled st || parent_done st.

Inductive wait_event : Type :=
| WWorld (ev : event)  (* something else happens in the program *)
| WWaiter (j : nat)    (* the j-th waiter of the call is scheduled *)
| WJoin                (* the goroutine of wg.Wait() is scheduled *)
| WParentDone.         (* the context of the caller becomes done *)

(** [wg.Done()] by the [j]-th waiter, which ends. *)
Definition waiter_done (j : nat) (st : waitState) : waitState :=
  mkWaitState (wg st - 1) (delete j (waiters st)) (joiner st)
              (local_cancelled st) (parent_done st).

Definition set_waiter (j : nat) (x : waiter) (st : waitState) : waitState :=
  mkWaitState (wg st) (<[j := x]> (waiters st)) (joiner st)
              (local_cancelled st) (parent_done st).

(** [go func() { rc.Wait(); wg.Done() }()] *)
Definition waiter_step (j : nat) (st : waitState) (w : World) : option (waitState * World) :=
  match waiters st !! j with
  | None => None
  | Some x =>
      match wait_body x w with
      | Some (Some x', w') => Some (set_waiter j x' st, w')
      | Some (None, w') => Some (waiter_done j st, w')
      | None => None
      end
  end.

(** [go func() { wg.Wait(); cancel() }()] *)
Definition join_step (st : waitState) : option waitState :=
  if joiner st && Nat.eqb (wg st) 0
  then Some (mkWaitState (wg st) (waiters st) false true (parent_done st))
  else None.

(** An event that is not enabled leaves everything as it is. *)
Definition wait_step (ev : wait_event) (st : waitState) (w : World) : waitState * World :=
  match ev with
  | WWorld e => (st, step_or_skip e w)
  | WWaiter j => match waiter_step j st w with
                 | Some r => r
                 | None => (st, w)
                 end
  | WJoin => match join_step st with
             | Some st' => (st', w)
             | None => (st, w)
             end
  | WParentDone =>
      (mkWaitState (wg st) (waiters st) (joiner st) (local_cancelled st) true, w)
  end.

(** How a call ends under a schedule: it returns, having let [n] events
    happen, or it is still blocked in [<-ctx.Done()] at the end of the
    schedule. *)
Inductive wait_outcome : Type :=
| WaitReturned (n : nat)
| WaitBlocked.

(** [<-ctx.Done()]; the result comes with the local state and the world
    at that point. *)
Fixpoint wait_loop (sched : list wait_event) (n : nat) (st : waitState) (w : World)
  : wait_outcome * waitState * World :=
  if local_done st then (WaitReturned n, st, w)
  else match sched with
       | [] => (WaitBlocked, st, w)
       | ev :: rest =>
           let '(st', w') := wait_step ev st w in
           wait_loop rest (S n) st' w'
       end.

(** [wg.Add(len(c.runContexts))] and one waiter per run record. *)
Definition wait_start (ctx : Context) (c : Container) : waitState :=
  mkWaitState (size (runContexts c))
              (WaitEnter <$> (map_to_list (runContexts c)).*1) true false (ctx_done ctx).

(** The waiters a call leaves behind. *)
Definition park (l : list waiter) (w : World) : World :=
  set_parked (parked w ++ l) w.

(** [c.WaitAllStopped(ctx)]; there is no guard on the lifecycle. *)
Definition WaitAllStopped (ctx : Context) (sched : list wait_event)
  : M World wait_outcome :=
  fun w =>
    let '(r, st, w') := wait_loop sched 0 (wait_start ctx (cont w)) w in
    Ok r (park (waiters st) w').

(** [c.StopAll(ctx)] *)
Definition StopAll (ctx : Context) (sched : list wait_event) : M World wait_outcome :=
  w <~ get ;;
  match runCtxCancel (cont w) with
  | None => panic "call Container.StartAll() before StopAll()"
  | Some f =>
      _ <~ liftC (call_cancel f) ;;
      WaitAllStopped ctx sched
  end.

(** ** Executions *)

(** An event, or a call that blocks, run against its schedule.  A call of
    [WaitAllStopped] or [StopAll] made while another one is blocked comes
    after it: what the first one has left to do is in [parked]. *)
Inductive action : Type :=
| Event (ev : event)
| CallWaitAllStopped (ctx : Context) (sched : list wait_event)
| CallStopAll (ctx : Context) (sched : list wait_event).

Definition act (a : action) (w : World) : option World :=
  match a with
  | Event ev => step ev w
  | CallWaitAllStopped ctx sched =>
      match WaitAllStopped ctx sched w with
      | Ok _ w' => Some w'
      | Panic _ _ => None
      end
  | CallStopAll ctx sched =>
      match StopAll ctx sched w with
      | Ok _ w' => Some w'
      | Panic _ _ => None
      end
  end.

Fixpoint run (acts : list action) (w : World) : option World :=
  match acts with
  | [] => Some w
  | a :: rest =>
      match act a w with
      | Some w' => run rest w'
      | None => None
      end
  end.

Inductive reachable : World -> Prop :=
| reachable_init : reachable init_world
| reachable_act a w w' :
    reachable w -> act a w = Some w' -> reachable w'.

(** ** Notions used in the statements *)

(** The start of one service as the history shows it. *)
Definition start_calls (ctx : Context) (s : serviceInfo) : list effect :=
  match initer (service s) with
  | Some Init => [CallInit (name s) (Init ctx); LaunchRun (name s)]
  | None => [LaunchRun (name s)]
  end.

(** The entries of the history that [StartAll] makes itself. *)
Definition is_start (x : effect) : bool :=
  match x with
  | RunReturned _ _ => false
  | _ => true
  end.

(** The service a unit belongs to. *)
Definition unit_of (g : goroutine) : option serviceInfo :=
  match g with
  | GoSynthDone _ => None
  | GoRun s => Some s
  | GoSend s _ => Some s
  end.

Definition is_synth (g : goroutine) : bool :=
  match g with
  | GoSynthDone _ => true
  | _ => false
  end.

(** A unit whose [Run] has not returned. *)
Definition in_Run (g : goroutine) : bool :=
  match g with
  | GoRun _ => true
  | _ => false
  end.

(** What holds in every reachable state. *)
Record inv (w : World) : Prop := mkInv {
  inv_names : NoDup (name <$> services (cont w));
  inv_cancel : runCtx (cont w) = None <-> runCtxCancel (cont w) = None;
  inv_unstarted :
    runCtx (cont w) = None ->
    runContexts (cont w) = ∅ /\ pool w = [] /\ parked w = [] /\ history w = [];
  inv_rec_service : forall nm rc,
    runContexts (cont w) !! nm = Some rc ->
    name (rc_service rc) = nm /\ rc_service rc ∈ services (cont w);
  inv_pool_nodup : NoDup (go_name <$> pool w);
  inv_pool_unit : forall g s,
    g ∈ pool w -> unit_of g = Some s ->
    exists rc, runContexts (cont w) !! name s = Some rc
               /\ running rc = true /\ rc_service rc = s;
  inv_pool_synth : forall nm,
    GoSynthDone nm ∈ pool w ->
    ~ LaunchRun nm ∈ history w /\ is_Some (runContexts (cont w) !! nm);
  inv_running : forall nm rc,
    runContexts (cont w) !! nm = Some rc -> running rc = true ->
    LaunchRun nm ∈ history w /\ err rc = None
    /\ exists g s, g ∈ pool w /\ unit_of g = Some s /\ name s = nm;
  inv_launched : forall nm,
    LaunchRun nm ∈ history w -> is_Some (runContexts (cont w) !! nm);
  inv_returned : forall s v,
    GoSend s v ∈ pool w -> RunReturned (name s) v ∈ history w;
  inv_err : forall nm rc e,
    runContexts (cont w) !! nm = Some rc -> err rc = Some e ->
    RunReturned nm (Some e) ∈ history w;
  inv_parked : forall nm,
    WaitRecv nm ∈ parked w -> LaunchRun nm ∈ history w;
  inv_result : forall nm v,
    RunReturned nm v ∈ history w ->
    (exists s, GoSend s v ∈ pool w /\ name s = nm)
    \/ (exists rc, runContexts (cont w) !! nm = Some rc
                   /\ running rc = false /\ err rc = v);
  inv_stopped : forall nm rc,
    runContexts (cont w) !! nm = Some rc -> running rc = false ->
    LaunchRun nm ∈ history w -> RunReturned nm (err rc) ∈ history w
}.

(** The signal is as it was, and the units that are blocked in [Run]
    are still there. *)
Definition undisturbed (w w' : World) : Prop :=
  runCtx (cont w') = runCtx (cont w)
  /\ forall s, GoRun s ∈ pool w -> Run (service s) (runCtx_of (cont w)) = None ->
               GoRun s ∈ pool w'.

(** The effect of a list of events, those that are not enabled being
    skipped. *)
Definition run_skip (evs : list event) (w : World) : World :=
  foldl (fun w ev => step_or_skip ev w) w evs.

(** The state of [StartAll] in its loop when it has started the services
    [ss] under the run context [x]. *)
Record started (x : Context) (ss : list serviceInfo) (w : World) : Prop := mkStarted {
  st_inv : inv w;
  st_ctx : runCtx (cont w) = Some x;
  st_hist : filter is_start (history w) = concat (start_calls x <$> ss);
  st_pool : unit_of <$> pool w = Some <$> ss;
  st_recs : forall nm, is_Some (runContexts (cont w) !! nm) <-> nm ∈ name <$> ss
}.

(** What no step undoes: the container stays started and cancelled, the
    registry, the history and the run records only grow, a goroutine
    blocked in the send of [nil] stays, and a record that is not running
    stays as it is. *)
Record grows (w w' : World) : Prop := mkGrows {
  gr_started : is_Some (runCtx (cont w)) -> is_Some (runCtx (cont w'));
  gr_cancelled : cancelled (cont w) = true -> cancelled (cont w') = true;
  gr_services : forall s, s ∈ services (cont w) -> s ∈ services (cont w');
  gr_history : forall x, x ∈ history w -> x ∈ history w';
  gr_synth : forall nm, GoSynthDone nm ∈ pool w -> GoSynthDone nm ∈ pool w';
  gr_records : forall nm,
    is_Some (runContexts (cont w) !! nm) -> is_Some (runContexts (cont w') !! nm);
  gr_stopped : forall nm rc,
    runContexts (cont w) !! nm = Some rc -> running rc = false ->
    runContexts (cont w') !! nm = Some rc
}.

Definition waiter_name (x : waiter) : string :=
  match x with
  | WaitEnter nm => nm
  | WaitRecv nm => nm
  end.

(** What relates the local state of a pending call to the world. *)
Record wait_inv (st : waitState) (w : World) : Prop := mkWaitInv {
  wi_wg : wg st = length (waiters st);
  wi_nodup : NoDup (waiter_name <$> waiters st);
  wi_recv : forall nm, WaitRecv nm ∈ waiters st -> LaunchRun nm ∈ history w;
  wi_cancelled : local_cancelled st = true -> waiters st = [];
  wi_started : runCtx (cont w) = None -> waiters st = []
}.

(** The steps a waiter has left to take at most. *)
Definition steps_left (x : waiter) : nat :=
  match x with
  | WaitEnter _ => 2
  | WaitRecv _ => 1
  end.

(** The events and actions that neither start the container nor trigger
    the cancellation signal by themselves. *)
Definition quiet_event (ev : event) : bool :=
  match ev with
  | EvRegister _ => true
  | EvGo _ => true
  | EvParked _ => true
  | _ => false
  end.

Definition quiet_wait (ev : wait_event) : bool :=
  match ev with
  | WWorld e => quiet_event e
  | _ => true
  end.

Definition quiet (a : action) : bool :=
  match a with
  | Event ev => quiet_event ev
  | CallWaitAllStopped _ sched => forallb quiet_wait sched
  | CallStopAll _ _ => false
  end.

(** A call whose waiters can all go on to their end: a waiter blocked in
    a receive has its record running, every running record has a waiter,
    and no unit is in [Run] any more. *)
Record can_drain (st : waitState) (w : World) : Prop := mkCanDrain {
  cd_recv : forall nm,
    WaitRecv nm ∈ waiters st ->
    exists rc, runContexts (cont w) !! nm = Some rc /\ running rc = true;
  cd_running : forall nm rc,
    runContexts (cont w) !! nm = Some rc -> running rc = true ->
    nm ∈ waiter_name <$> waiters st;
  cd_returned : forall s, GoRun s ∉ pool w
}.

(** The schedule in which the [m] waiters of a call run one after the
    other, each taking its two steps, and then the joining goroutine. *)
Definition waiters_then_join (m : nat) : list wait_event :=
  repeat (WWaiter 0) (2 * m) ++ [WJoin].

(** The schedule in which each goroutine of a pool of [n] is run once
    before that. *)
Definition units_first (n m : nat) : list wait_event :=
  (WWorld <$> (EvGo <$> seq 0 n)) ++ waiters_then_join m.

(** The state an execution from the fresh container leads to. *)
Definition world_after (acts : list action) : World :=
  match run acts init_world with
  | Some w => w
  | None => init_world
  end.

(** The registrations of the tests of the package, and [StartAll] on the
    background context with no goroutine scheduled in between. *)
Definition regs (svcs : list Runner) : list action :=
  Event <$> (EvRegister <$> svcs).

Definition acts_init_fails : list action := regs [ts1; ts2_init_fails; ts3].
Definition acts_run_fails : list action := regs [ts1; ts2_run_fails; ts3].
Definition acts_returns : list action := regs [ts1; ts2_returns; ts3].

Definition start : action := Event (EvStartAll Background []).

End V1.

(** * Proofs *)

Ltac munfold :=
  unfold bind, get, modify, ret, panic, liftC, go, emit, on_runner, on_cont in *.

Lemma check_not_registered_in nm ss c :
  nm ∈ name <$> ss ->
  check_not_registered nm ss c = Panic ("Service '" +:+ nm +:+ "' already registered") c.
Proof.
  induction ss as [|s rest IH]; simpl; intros Hin.
  - by apply elem_of_nil in Hin.
  - destruct (String.eqb_spec (name s) nm) as [Heq|Hne]; [done|].
    apply elem_of_cons in Hin as [Hin|Hin]; [congruence|by apply IH].
Qed.

Lemma check_not_registered_notin nm ss c :
  nm ∉ name <$> ss -> check_not_registered nm ss c = Ok tt c.
Proof.
  induction ss as [|s rest IH]; simpl; intros Hin; [done|].
  rewrite not_elem_of_cons in Hin. destruct Hin as [Hne Hin].
  destruct (String.eqb_spec (name s) nm) as [Heq|_]; [congruence|by apply IH].
Qed.

Lemma Register_fresh svc c :
  resolve_name svc ∉ name <$> services c ->
  Register svc c = Ok tt (set_services (services c ++ [mkServiceInfo (resolve_name svc) svc]) c).
Proof.
  intros H. unfold Register. munfold. by rewrite check_not_registered_notin.
Qed.

Lemma Register_dup svc c :
  resolve_name svc ∈ name <$> services c ->
  Register svc c = Panic ("Service '" +:+ resolve_name svc +:+ "' already registered") c.
Proof.
  intros H. unfold Register. munfold. by rewrite check_not_registered_in.
Qed.

Lemma filter_name_notin (nm : string) (ss : list serviceInfo) :
  nm ∉ name <$> ss -> filter (fun s => name s = nm) ss = [].
Proof.
  induction ss as [|s rest IH]; intros Hin; [done|].
  rewrite fmap_cons, not_elem_of_cons in Hin. destruct Hin as [Hne Hin].
  rewrite filter_cons_False by congruence. by apply IH.
Qed.

Lemma NoDup_count_one (nm : string) (ss : list serviceInfo) :
  NoDup (name <$> ss) -> nm ∈ name <$> ss ->
  length (filter (fun s => name s = nm) ss) = 1.
Proof.
  induction ss as [|s rest IH]; intros Hnd Hin.
  - by apply elem_of_nil in Hin.
  - rewrite fmap_cons in Hnd, Hin. apply NoDup_cons in Hnd as [Hnotin Hnd].
    destruct (decide (name s = nm)) as [Heq|Hne].
    + rewrite filter_cons_True by done. simpl.
      rewrite filter_name_notin; [done|congruence].
    + rewrite filter_cons_False by done.
      apply IH; [done|]. apply elem_of_cons in Hin as [?|?]; [congruence|done].
Qed.

(** ** The maps built by the two loops *)

Lemma lookup_add_recs_notin ss (m : gmap string runContext) nm :
  nm ∉ name <$> ss -> add_recs ss m !! nm = m !! nm.
Proof.
  revert m. induction ss as [|s rest IH]; intros m Hin; [done|].
  rewrite fmap_cons, not_elem_of_cons in Hin. destruct Hin as [Hne Hin].
  simpl. rewrite IH by done. by rewrite lookup_insert_ne.
Qed.

Lemma lookup_add_recs_in ss (m : gmap string runContext) s :
  NoDup (name <$> ss) -> s ∈ ss ->
  add_recs ss m !! name s = Some (newRunContext s).
Proof.
  revert m. induction ss as [|s' rest IH]; intros m Hnd Hin.
  - by apply elem_of_nil in Hin.
  - rewrite fmap_cons in Hnd. apply NoDup_cons in Hnd as [Hnotin Hnd].
    apply elem_of_cons in Hin as [->|Hin]; simpl.
    + rewrite lookup_add_recs_notin by done. by rewrite lookup_insert_eq.
    + by apply IH.
Qed.

Lemma lookup_add_recs_inv ss (m : gmap string runContext) nm rc :
  add_recs ss m !! nm = Some rc ->
  (exists s, s ∈ ss /\ name s = nm /\ rc = newRunContext s) \/ m !! nm = Some rc.
Proof.
  revert m. induction ss as [|s rest IH]; intros m H; [by right|].
  simpl in H. apply IH in H as [(s' & Hin & Hnm & Hrc)|H].
  - left. exists s'. split; [by apply elem_of_cons; right|done].
  - destruct (decide (name s = nm)) as [Heq|Hne].
    + subst nm. rewrite lookup_insert_eq in H. inversion H; subst.
      left. exists s. split; [by apply elem_of_cons; left|done].
    + rewrite lookup_insert_ne in H by done. by right.
Qed.

Lemma lookup_mark_running ss (m : gmap string runContext) nm :
  mark_running ss m !! nm =
  if decide (nm ∈ name <$> ss) then set_running true <$> m !! nm else m !! nm.
Proof.
  revert m. induction ss as [|s rest IH]; intros m.
  - cbn [mark_running]. destruct (decide (nm ∈ name <$> [])) as [H|H]; [|done].
    by apply elem_of_nil in H.
  - simpl mark_running. rewrite IH. rewrite fmap_cons.
    destruct (decide (name s = nm)) as [Heq|Hne].
    + subst nm. rewrite lookup_alter_eq.
      case_decide as H1; case_decide as H2.
      * by destruct (m !! name s).
      * exfalso. apply H2. apply elem_of_cons. by left.
      * done.
      * exfalso. apply H2. apply elem_of_cons. by left.
    + rewrite lookup_alter_ne by done.
      case_decide as H1; case_decide as H2; try done.
      * exfalso. apply H2. apply elem_of_cons. by right.
      * exfalso. apply elem_of_cons in H2 as [?|?]; [congruence|done].
Qed.

Lemma init_calls_app ctx ss1 ss2 :
  init_calls ctx (ss1 ++ ss2) = init_calls ctx ss1 ++ init_calls ctx ss2.
Proof.
  induction ss1 as [|s rest IH]; [done|]. simpl.
  destruct (initer (service s)); simpl; by rewrite IH.
Qed.

(** ** The two loops of [StartAll] *)

Lemma initOne_ok ctx s w :
  runContexts (cont w) !! name s = None ->
  init_result ctx s = None ->
  initOne ctx s w =
  Ok None (mkWorld (set_runContexts (<[name s := newRunContext s]> (runContexts (cont w))) (cont w))
             (pool w) (history w ++ init_calls ctx [s])).
Proof.
  intros Hl Hr. unfold initOne. munfold. rewrite Hl. unfold init_result in Hr. simpl.
  destruct (initer (service s)) as [f|]; simpl.
  - rewrite Hr. done.
  - rewrite app_nil_r. by destruct w.
Qed.

Lemma initOne_fail ctx s e w :
  runContexts (cont w) !! name s = None ->
  init_result ctx s = Some e ->
  initOne ctx s w =
  Ok (Some (init_error s e))
     (mkWorld (set_runContexts (<[name s := newRunContext s]> (runContexts (cont w))) (cont w))
        (pool w ++ [GoSynthDone (name s)]) (history w ++ init_calls ctx [s])).
Proof.
  intros Hl Hr. unfold initOne. munfold. rewrite Hl. unfold init_result in Hr. simpl.
  destruct (initer (service s)) as [f|]; simpl; [|done].
  rewrite Hr. done.
Qed.


Lemma init_loop_ok ss w :
  Forall (fun s => init_result (runCtx_of (cont w)) s = None) ss ->
  NoDup (name <$> ss) ->
  (forall s, s ∈ ss -> runContexts (cont w) !! name s = None) ->
  init_loop ss w =
  Ok None (mkWorld (set_runContexts (add_recs ss (runContexts (cont w))) (cont w))
             (pool w) (history w ++ init_calls (runCtx_of (cont w)) ss)).
Proof.
  revert w. induction ss as [|s rest IH]; intros w Hok Hnd Hfresh.
  - simpl. unfold ret. rewrite app_nil_r. by destruct w as [[] ? ?].
  - apply Forall_cons in Hok as [Hs Hok].
    rewrite fmap_cons in Hnd. apply NoDup_cons in Hnd as [Hnotin Hnd].
    cbn [init_loop]. unfold bind at 1, get. unfold bind at 1.
    rewrite initOne_ok; [|apply Hfresh; by left|done].
    rewrite IH; cbn [cont pool history]; try done.
    + unfold runCtx_of, set_runContexts. cbn [runCtx runContexts runCtxCancel services].
      f_equal. f_equal. rewrite <- app_assoc. f_equal.
      change (s :: rest) with ([s] ++ rest). by rewrite init_calls_app.
    + intros s' Hin. cbn. rewrite lookup_insert_ne; [apply Hfresh; by right|].
      intros Heq. apply Hnotin. rewrite Heq. by apply list_elem_of_fmap_2.
Qed.

Lemma StopAll_started c f :
  runCtxCancel c = Some f ->
  StopAll c = Ok tt (set_runCtx (match runCtx c with Some _ => Some (mkContext true) | None => None end)
                       (runCtxCancel c) c).
Proof. intros H. unfold StopAll. munfold. cbn. rewrite H. destruct f. unfold call_cancel, modify. by rewrite H. Qed.

Lemma StopAll_unstarted c :
  runCtxCancel c = None ->
  StopAll c = Panic "call Container.StartAll() before StopAll()" c.
Proof. intros H. unfold StopAll. munfold. cbn. by rewrite H. Qed.

Lemma init_loop_fail pre sk post e w x f :
  runCtx (cont w) = Some x -> runCtxCancel (cont w) = Some f ->
  Forall (fun s => init_result x s = None) pre ->
  init_result x sk = Some e ->
  NoDup (name <$> pre ++ [sk]) ->
  (forall s, s ∈ pre ++ [sk] -> runContexts (cont w) !! name s = None) ->
  init_loop (pre ++ sk :: post) w =
  Ok (Some (init_error sk e))
     (mkWorld (mkContainer (Some (mkContext true)) (Some f) (services (cont w))
                 (add_recs (pre ++ [sk]) (runContexts (cont w))))
        (pool w ++ [GoSynthDone (name sk)])
        (history w ++ init_calls x (pre ++ [sk]))).
Proof.
  revert w. induction pre as [|s rest IH]; intros w Hx Hf Hok Hk Hnd Hfresh.
  - simpl app. cbn [init_loop]. unfold bind at 1, get. unfold bind at 1.
    assert (Hc : runCtx_of (cont w) = x) by (unfold runCtx_of; by rewrite Hx).
    rewrite Hc.
    rewrite (initOne_fail x sk e); [|apply Hfresh; cbn; by left|done].
    unfold bind at 1. unfold liftC. cbn [cont].
    rewrite (StopAll_started _ f) by (cbn; done). cbn. by rewrite Hx, Hf.
  - apply Forall_cons in Hok as [Hs Hok].
    rewrite <- app_comm_cons, fmap_cons in Hnd. apply NoDup_cons in Hnd as [Hnotin Hnd].
    rewrite <- app_comm_cons.
    cbn [init_loop]. unfold bind at 1, get. unfold bind at 1.
    assert (Hc : runCtx_of (cont w) = x) by (unfold runCtx_of; by rewrite Hx).
    rewrite Hc.
    rewrite initOne_ok; [|apply Hfresh; by left|done].
    rewrite (IH _); simpl; try done.
    + f_equal. f_equal. rewrite <- app_assoc. f_equal.
      destruct (initer (service s)); [|done].
      unfold init_result in Hs. simpl. done.
    + intros s' Hin. rewrite lookup_insert_ne; [apply Hfresh; by right|].
      intros Heq. apply Hnotin. rewrite Heq. by apply list_elem_of_fmap_2.
Qed.

Lemma runOne_ok s rc w :
  runContexts (cont w) !! name s = Some rc -> running rc = false ->
  runOne s w =
  Ok None (mkWorld (set_runContexts (alter (set_running true) (name s) (runContexts (cont w))) (cont w))
             (pool w ++ [GoRun s]) (history w ++ [LaunchRun (name s)])).
Proof. intros Hl Hr. unfold runOne. munfold. rewrite Hl, Hr. done. Qed.

Lemma run_loop_ok ss w :
  NoDup (name <$> ss) ->
  (forall s, s ∈ ss -> exists rc, runContexts (cont w) !! name s = Some rc /\ running rc = false) ->
  run_loop [] ss w =
  Ok None (mkWorld (set_runContexts (mark_running ss (runContexts (cont w))) (cont w))
             (pool w ++ (GoRun <$> ss)) (history w ++ (LaunchRun <$> (name <$> ss)))).
Proof.
  revert w. induction ss as [|s rest IH]; intros w Hnd Hrec.
  - simpl. unfold ret. rewrite !app_nil_r. by destruct w as [[] ? ?].
  - rewrite fmap_cons in Hnd. apply NoDup_cons in Hnd as [Hnotin Hnd].
    destruct (Hrec s) as (rc & Hl & Hr); [by left|].
    cbn [run_loop hd tl interleave]. unfold bind at 1, ret at 1. unfold bind at 1.
    rewrite (runOne_ok s rc) by done.
    rewrite IH; simpl; try done.
    + by rewrite <- !app_assoc.
    + intros s' Hin. destruct (Hrec s') as (rc' & Hl' & Hr'); [by right|].
      exists rc'. split; [|done]. rewrite lookup_alter_ne; [done|].
      intros Heq. apply Hnotin. rewrite Heq. by apply list_elem_of_fmap_2.
Qed.

(** ** Lists of goroutines *)

Lemma elem_of_delete_ne {A} (l : list A) i x y :
  x ∈ l -> l !! i = Some y -> x <> y -> x ∈ delete i l.
Proof.
  revert i. induction l as [|a l IH]; intros i Hin Hi Hne.
  - by apply elem_of_nil in Hin.
  - destruct i as [|i]; simpl in *.
    + inversion Hi; subst. apply elem_of_cons in Hin as [?|?]; [congruence|done].
    + apply elem_of_cons in Hin as [->|Hin]; [by left|]. right. by eapply IH.
Qed.

Lemma NoDup_fmap_delete {A B} (f : A -> B) (l : list A) i :
  NoDup (f <$> l) -> NoDup (f <$> delete i l).
Proof.
  revert i. induction l as [|a l IH]; intros i Hnd; [by destruct i|].
  rewrite fmap_cons in Hnd. apply NoDup_cons in Hnd as [Hnotin Hnd].
  destruct i as [|i]; simpl; [done|].
  apply NoDup_cons. split; [|by apply IH].
  intros Hin. apply Hnotin.
  apply list_elem_of_fmap in Hin as (x & -> & Hx).
  apply list_elem_of_fmap_2. by eapply list_elem_of_delete_inv.
Qed.

Lemma NoDup_fmap_delete_ne {A B} (f : A -> B) (l : list A) i x y :
  NoDup (f <$> l) -> l !! i = Some x -> y ∈ delete i l -> f y <> f x.
Proof.
  revert i. induction l as [|a l IH]; intros i Hnd Hi Hin; [by destruct i|].
  rewrite fmap_cons in Hnd. apply NoDup_cons in Hnd as [Hnotin Hnd].
  destruct i as [|i]; simpl in *.
  - inversion Hi; subst. intros Heq. apply Hnotin. rewrite <- Heq.
    by apply list_elem_of_fmap_2.
  - apply elem_of_cons in Hin as [->|Hin].
    + intros Heq. apply Hnotin. rewrite Heq. apply list_elem_of_fmap_2.
      by eapply list_elem_of_lookup_2.
    + by eapply IH.
Qed.

Lemma elem_of_init_calls ctx ss x :
  x ∈ init_calls ctx ss ->
  exists s, s ∈ ss /\ x = CallInit (name s) (init_result ctx s).
Proof.
  induction ss as [|s rest IH]; simpl; intros Hin.
  - by apply elem_of_nil in Hin.
  - unfold init_result at 1. destruct (initer (service s)) as [f|] eqn:Hf.
    + apply elem_of_cons in Hin as [->|Hin].
      * exists s. split; [by left|]. unfold init_result. by rewrite Hf.
      * destruct (IH Hin) as (s' & ? & ?). exists s'. split; [by right|done].
    + destruct (IH Hin) as (s' & ? & ?). exists s'. split; [by right|done].
Qed.

Lemma init_calls_ok ctx ss nm e :
  Forall (fun s => init_result ctx s = None) ss ->
  CallInit nm (Some e) ∉ init_calls ctx ss.
Proof.
  intros Hok Hin. apply elem_of_init_calls in Hin as (s & Hs & Heq).
  rewrite Forall_forall in Hok. specialize (Hok s Hs). congruence.
Qed.

(** Either every [Init] succeeds, or there is a first one that fails. *)
Lemma init_split ctx ss :
  Forall (fun s => init_result ctx s = None) ss
  \/ exists pre sk post e,
       ss = pre ++ sk :: post
       /\ Forall (fun s => init_result ctx s = None) pre
       /\ init_result ctx sk = Some e.
Proof.
  induction ss as [|s rest IH]; [by left|].
  destruct (init_result ctx s) as [e|] eqn:Hs.
  - right. exists [], s, rest, e. by repeat split.
  - destruct IH as [IH|(pre & sk & post & e & -> & Hpre & Hk)].
    + left. by constructor.
    + right. exists (s :: pre), sk, post, e. repeat split; [|done]. by constructor.
Qed.

(** ** [StartAll] in closed form *)

Lemma StartAll_sched_started steps ctx w x :
  runCtx (cont w) = Some x ->
  StartAll_sched steps ctx w = Panic "Container.StartAll can only be called once" w.
Proof. intros H. unfold StartAll_sched. munfold. cbn. by rewrite H. Qed.

(** When every [Init] succeeds, what remains is the second loop, run in
    the state the first loop leaves. *)
Lemma StartAll_sched_init_ok steps ctx w :
  runCtx (cont w) = None -> runContexts (cont w) = ∅ ->
  NoDup (name <$> services (cont w)) ->
  Forall (fun s => init_result (WithCancel ctx).1 s = None) (services (cont w)) ->
  StartAll_sched steps ctx w =
  run_loop steps (services (cont w))
    (mkWorld (mkContainer (Some (WithCancel ctx).1) (Some (WithCancel ctx).2)
                (services (cont w)) (add_recs (services (cont w)) ∅))
       (pool w) (history w ++ init_calls (WithCancel ctx).1 (services (cont w)))).
Proof.
  intros Hx Hm Hnd Hok. unfold StartAll_sched.
  unfold bind at 1, get. rewrite Hx. cbn [WithCancel].
  unfold bind at 1, modify, on_cont. unfold bind at 1.
  rewrite init_loop_ok; cbn [cont set_runCtx runCtx runCtxCancel services runContexts runCtx_of];
    try done.
  - cbn [pool history set_runContexts runCtx runCtxCancel services runContexts fst snd].
    by rewrite Hm.
  - intros s _. by rewrite Hm.
Qed.

Lemma StartAll_ok ctx w :
  runCtx (cont w) = None -> runContexts (cont w) = ∅ ->
  NoDup (name <$> services (cont w)) ->
  Forall (fun s => init_result (WithCancel ctx).1 s = None) (services (cont w)) ->
  StartAll ctx w =
  Ok None
     (mkWorld (mkContainer (Some (WithCancel ctx).1) (Some (WithCancel ctx).2)
                 (services (cont w))
                 (mark_running (services (cont w)) (add_recs (services (cont w)) ∅)))
        (pool w ++ (GoRun <$> services (cont w)))
        (history w ++ init_calls (WithCancel ctx).1 (services (cont w))
           ++ (LaunchRun <$> (name <$> services (cont w))))).
Proof.
  intros Hx Hm Hnd Hok. unfold StartAll.
  rewrite StartAll_sched_init_ok by done.
  rewrite run_loop_ok; cbn [cont pool history set_runContexts runCtx runCtxCancel services runContexts].
  - by rewrite <- app_assoc.
  - done.
  - intros s Hs. exists (newRunContext s). split; [|done].
    by apply lookup_add_recs_in.
Qed.

Lemma StartAll_sched_fail steps ctx w pre sk post e :
  runCtx (cont w) = None -> runContexts (cont w) = ∅ ->
  services (cont w) = pre ++ sk :: post ->
  NoDup (name <$> services (cont w)) ->
  Forall (fun s => init_result (WithCancel ctx).1 s = None) pre ->
  init_result (WithCancel ctx).1 sk = Some e ->
  StartAll_sched steps ctx w =
  Ok (Some (init_error sk e))
     (mkWorld (mkContainer (Some (mkContext true)) (Some (WithCancel ctx).2)
                 (services (cont w)) (add_recs (pre ++ [sk]) ∅))
        (pool w ++ [GoSynthDone (name sk)])
        (history w ++ init_calls (WithCancel ctx).1 (pre ++ [sk]))).
Proof.
  intros Hx Hm Hss Hnd Hok Hk. unfold StartAll_sched.
  unfold bind at 1, get. rewrite Hx. cbn [WithCancel].
  unfold bind at 1, modify, on_cont. unfold bind at 1.
  rewrite Hss.
  rewrite (init_loop_fail pre sk post e _ (mkContext (ctx_done ctx)) cancelRunCtx);
    cbn [cont set_runCtx runCtx runCtxCancel services runContexts pool history]; try done.
  - by rewrite Hm, Hss.
  - rewrite Hss in Hnd. rewrite fmap_app in *. cbn in *.
    apply NoDup_app in Hnd as (H1 & H2 & H3). apply NoDup_app. repeat split; [done| |].
    + intros x Hx1 Hx2. apply (H2 x Hx1). apply elem_of_cons.
      apply list_elem_of_singleton in Hx2. by left.
    + apply NoDup_singleton.
  - intros s _. by rewrite Hm.
Qed.

Lemma StartAll_fail ctx w pre sk post e :
  runCtx (cont w) = None -> runContexts (cont w) = ∅ ->
  services (cont w) = pre ++ sk :: post ->
  NoDup (name <$> services (cont w)) ->
  Forall (fun s => init_result (WithCancel ctx).1 s = None) pre ->
  init_result (WithCancel ctx).1 sk = Some e ->
  StartAll ctx w =
  Ok (Some (init_error sk e))
     (mkWorld (mkContainer (Some (mkContext true)) (Some (WithCancel ctx).2)
                 (services (cont w)) (add_recs (pre ++ [sk]) ∅))
        (pool w ++ [GoSynthDone (name sk)])
        (history w ++ init_calls (WithCancel ctx).1 (pre ++ [sk]))).
Proof. apply StartAll_sched_fail. Qed.

(** ** The goroutines in closed form *)

Lemma run_closure_spec s runErr w rc f :
  runContexts (cont w) !! name s = Some rc ->
  chan_closed (done rc) = false ->
  runCtxCancel (cont w) = Some f ->
  run_closure s runErr w =
  Ok tt (mkWorld (after_run (name s) rc runErr (cont w)) (pool w)
           (history w ++ [RunReturned (name s) runErr])).
Proof.
  intros Hl Hc Hf. unfold run_closure, close_done. munfold.
  cbn. rewrite !lookup_alter_eq, Hl. cbn. unfold close_chan. cbn. rewrite Hc. cbn.
  assert (Hm : alter (set_done (mkChan (chan_cap (done rc)) (chan_buf (done rc)) true)) (name s)
                 (alter (set_running false) (name s)
                    (alter (set_err runErr) (name s) (runContexts (cont w))))
               = <[name s := mkRunContext (rc_service rc) false
                     (mkChan (chan_cap (done rc)) (chan_buf (done rc)) true) runErr]>
                   (runContexts (cont w))).
  { apply map_eq. intros k. destruct (decide (k = name s)) as [->|Hne].
    - rewrite !lookup_alter_eq, lookup_insert_eq, Hl. done.
    - rewrite !lookup_alter_ne, lookup_insert_ne by done. done. }
  rewrite Hm. destruct runErr as [e|].
  - cbn. rewrite Hf. destruct f. cbn. unfold after_run. by rewrite Hf.
  - unfold after_run. cbn. done.
Qed.

Lemma go_step_run i s runErr w rc f :
  pool w !! i = Some (GoRun s) ->
  Run (service s) (runCtx_of (cont w)) = Some runErr ->
  runContexts (cont w) !! name s = Some rc ->
  chan_closed (done rc) = false ->
  runCtxCancel (cont w) = Some f ->
  go_step i w =
  Some (Ok tt (mkWorld (after_run (name s) rc runErr (cont w)) (delete i (pool w))
                 (history w ++ [RunReturned (name s) runErr]))).
Proof.
  intros Hi Hr Hl Hc Hf. unfold go_step. rewrite Hi. cbn [go_body].
  cbn [remove_goroutine cont]. rewrite Hr.
  by rewrite (run_closure_spec s runErr _ rc f).
Qed.

Lemma go_step_run_blocked i s w :
  pool w !! i = Some (GoRun s) ->
  Run (service s) (runCtx_of (cont w)) = None ->
  go_step i w = None.
Proof. intros Hi Hr. unfold go_step. rewrite Hi. cbn. by rewrite Hr. Qed.

Lemma go_step_synth i nm w rc :
  pool w !! i = Some (GoSynthDone nm) ->
  runContexts (cont w) !! nm = Some rc ->
  done rc = make_chan 1 ->
  go_step i w =
  Some (Ok tt (mkWorld (set_runContexts
                          (<[nm := set_done (mkChan 1 [None] false) rc]> (runContexts (cont w)))
                          (cont w))
                 (delete i (pool w)) (history w))).
Proof.
  intros Hi Hl Hd. unfold go_step. rewrite Hi. cbn [go_body]. unfold synth_closure.
  cbn [remove_goroutine cont]. rewrite Hl, Hd. cbn. unfold on_runner, modify, on_cont, remove_goroutine. cbn.
  do 3 f_equal. unfold set_runContexts. cbn. f_equal. apply map_eq. intros k. destruct (decide (k = nm)) as [->|Hne].
  - by rewrite lookup_alter_eq, lookup_insert_eq, Hl.
  - by rewrite lookup_alter_ne, lookup_insert_ne.
Qed.

Lemma go_step_none i w : pool w !! i = None -> go_step i w = None.
Proof. intros H. unfold go_step. by rewrite H. Qed.

(** ** The invariant holds in every reachable state *)

Lemma inv_init : inv init_world.
Proof.
  constructor; cbn; try done.
  - apply NoDup_nil_2.
  - apply NoDup_nil_2.
  - intros s H. by apply elem_of_nil in H.
  - intros s H. by apply elem_of_nil in H.
  - intros nm r H. by apply elem_of_nil in H.
  - intros nm H. by apply elem_of_nil in H.
Qed.

Lemma inv_pool_started w g :
  inv w -> g ∈ pool w ->
  exists x f, runCtx (cont w) = Some x /\ runCtxCancel (cont w) = Some f.
Proof.
  intros Hinv Hg. destruct (runCtx (cont w)) as [x|] eqn:Hx.
  - destruct (runCtxCancel (cont w)) as [f|] eqn:Hf; [by eauto|].
    apply (inv_cancel w Hinv) in Hf. congruence.
  - destruct (inv_unstarted w Hinv Hx) as (_ & Hp & _). rewrite Hp in Hg.
    by apply elem_of_nil in Hg.
Qed.

(** A step that leaves the records, the pool and the history alone. *)
Lemma inv_frame w c :
  inv w ->
  NoDup (name <$> services c) ->
  (runCtx c = None <-> runCtxCancel c = None) ->
  (runCtx c = None -> runCtx (cont w) = None) ->
  runContexts c = runContexts (cont w) ->
  inv (mkWorld c (pool w) (history w)).
Proof.
  intros Hinv Hnd Hiff Hnone Hm. destruct Hinv.
  constructor; cbn [cont pool history]; rewrite ?Hm; try done.
  intros Hx. by apply inv_unstarted, Hnone.
Qed.

Lemma inv_Register w svc c :
  inv w -> Register svc (cont w) = Ok tt c -> inv (mkWorld c (pool w) (history w)).
Proof.
  intros Hinv Hr.
  destruct (decide (resolve_name svc ∈ name <$> services (cont w))) as [Hin|Hnotin].
  - rewrite Register_dup in Hr by done. done.
  - rewrite Register_fresh in Hr by done. inversion Hr; subst c. clear Hr.
    apply inv_frame; cbn; try done.
    + rewrite fmap_app. apply NoDup_app. repeat split.
      * apply Hinv.
      * intros x Hx Hx'. cbn in Hx'. apply list_elem_of_singleton in Hx'. by subst.
      * apply NoDup_singleton.
    + apply Hinv.
Qed.

Lemma inv_cancelled w :
  inv w ->
  inv (mkWorld (set_runCtx (match runCtx (cont w) with
                            | Some _ => Some (mkContext true)
                            | None => None
                            end) (runCtxCancel (cont w)) (cont w))
         (pool w) (history w)).
Proof.
  intros Hinv. apply inv_frame; cbn; try done.
  - apply Hinv.
  - destruct (runCtx (cont w)) eqn:Hx.
    + split; [done|]. intros Hf. apply (inv_cancel w Hinv) in Hf. congruence.
    + split; [|done]. intros _. by apply (inv_cancel w Hinv).
  - by destruct (runCtx (cont w)).
Qed.

Lemma parent_cancel_eq c :
  parent_cancel c =
  set_runCtx (match runCtx c with Some _ => Some (mkContext true) | None => None end)
    (runCtxCancel c) c.
Proof. unfold parent_cancel. destruct c as [[x|] f ss m]; done. Qed.

Lemma inv_StopAll w c :
  inv w -> StopAll (cont w) = Ok tt c -> inv (mkWorld c (pool w) (history w)).
Proof.
  intros Hinv Hs. destruct (runCtxCancel (cont w)) as [f|] eqn:Hf.
  - rewrite (StopAll_started _ f) in Hs by done. inversion Hs; subst c.
    by apply inv_cancelled.
  - by rewrite StopAll_unstarted in Hs.
Qed.

Lemma started_lookup_in ss s :
  NoDup (name <$> ss) -> s ∈ ss ->
  mark_running ss (add_recs ss ∅) !! name s = Some (mkRunContext s true (make_chan 1) None).
Proof.
  intros Hnd Hin. rewrite lookup_mark_running.
  rewrite decide_True by (by apply list_elem_of_fmap_2).
  by rewrite lookup_add_recs_in.
Qed.

Lemma started_lookup_inv ss nm rc :
  mark_running ss (add_recs ss ∅) !! nm = Some rc ->
  exists s, s ∈ ss /\ name s = nm /\ rc = mkRunContext s true (make_chan 1) None.
Proof.
  rewrite lookup_mark_running. case_decide as Hin.
  - intros H. apply fmap_Some in H as (rc0 & H & ->).
    apply lookup_add_recs_inv in H as [(s & Hs & Hnm & ->)|H]; [by exists s|].
    by rewrite lookup_empty in H.
  - intros H. apply lookup_add_recs_inv in H as [(s & Hs & Hnm & ->)|H].
    + exfalso. apply Hin. rewrite <- Hnm. by apply list_elem_of_fmap_2.
    + by rewrite lookup_empty in H.
Qed.

Lemma launch_not_in_init_calls ctx ss nm : LaunchRun nm ∉ init_calls ctx ss.
Proof. intros H. by apply elem_of_init_calls in H as (s & _ & ?). Qed.

Lemma returned_not_in_init_calls ctx ss nm r : RunReturned nm r ∉ init_calls ctx ss.
Proof. intros H. by apply elem_of_init_calls in H as (s & _ & ?). Qed.

Lemma inv_started_fail x f pre sk post e :
  NoDup (name <$> pre ++ sk :: post) ->
  Forall (fun s => init_result x s = None) pre ->
  init_result x sk = Some e ->
  inv (mkWorld (mkContainer (Some (mkContext true)) (Some f) (pre ++ sk :: post)
                  (add_recs (pre ++ [sk]) ∅))
         [GoSynthDone (name sk)]
         (init_calls x (pre ++ [sk]))).
Proof.
  intros Hnd Hok Hk.
  assert (Hnd' : NoDup (name <$> pre ++ [sk])).
  { rewrite fmap_app in *. cbn in *.
    apply NoDup_app in Hnd as (H1 & H2 & H3). apply NoDup_app. repeat split; [done| |].
    + intros y Hy1 Hy2. apply (H2 y Hy1). apply elem_of_cons.
      apply list_elem_of_singleton in Hy2. by left.
    + apply NoDup_singleton. }
  assert (Hrec : forall nm rc, add_recs (pre ++ [sk]) ∅ !! nm = Some rc ->
                   exists s, name s = nm /\ rc = newRunContext s).
  { intros nm rc H. apply lookup_add_recs_inv in H as [(s & Hs & Hnm & ->)|H]; [by exists s|].
    by rewrite lookup_empty in H. }
  constructor; cbn [cont pool history runCtx runCtxCancel services runContexts].
  - done.
  - done.
  - done.
  - intros nm rc H. by apply Hrec in H as (s & <- & ->).
  - apply NoDup_singleton.
  - intros s Hs. by apply list_elem_of_singleton in Hs.
  - intros nm Hs. apply list_elem_of_singleton in Hs. inversion Hs; subst nm. split.
    + exists (name sk), e. rewrite init_calls_app. apply elem_of_app. right.
      cbn. unfold init_result in Hk. destruct (initer (service sk)); [|done].
      rewrite Hk. by left.
    + exists (newRunContext sk). split; [|done].
      apply lookup_add_recs_in; [done|]. apply elem_of_app. right. by left.
  - intros nm rc H Hr. by apply Hrec in H as (s & <- & ->).
  - intros nm r H. by apply returned_not_in_init_calls in H.
  - intros nm rc e' H He. by apply Hrec in H as (s & <- & ->).
  - intros nm H. by apply launch_not_in_init_calls in H.
Qed.

(** The state between the two loops of [StartAll]. *)
Lemma inv_initialized x f ss :
  NoDup (name <$> ss) ->
  Forall (fun s => init_result x s = None) ss ->
  inv (mkWorld (mkContainer (Some x) (Some f) ss (add_recs ss ∅)) [] (init_calls x ss)).
Proof.
  intros Hnd Hok.
  assert (Hrec : forall nm rc, add_recs ss ∅ !! nm = Some rc ->
                   exists s, name s = nm /\ rc = newRunContext s).
  { intros nm rc H. apply lookup_add_recs_inv in H as [(s & Hs & Hnm & ->)|H]; [by exists s|].
    by rewrite lookup_empty in H. }
  constructor; cbn [cont pool history runCtx runCtxCancel services runContexts].
  - done.
  - done.
  - done.
  - intros nm rc H. by apply Hrec in H as (s & <- & ->).
  - apply NoDup_nil_2.
  - intros s Hs. by apply elem_of_nil in Hs.
  - intros nm Hs. by apply elem_of_nil in Hs.
  - intros nm rc H Hr. by apply Hrec in H as (s & <- & ->).
  - intros nm r H. by apply returned_not_in_init_calls in H.
  - intros nm rc e' H He. by apply Hrec in H as (s & <- & ->).
  - intros nm H. by apply launch_not_in_init_calls in H.
Qed.

Lemma init_calls_not_failed x ss :
  Forall (fun s => init_result x s = None) ss -> ~ init_failed (init_calls x ss).
Proof. intros Hok (nm & e & H). by apply init_calls_ok in H. Qed.

Lemma init_failed_snoc_launch h nm :
  init_failed (h ++ [LaunchRun nm]) -> init_failed h.
Proof.
  intros (nm' & e & H). exists nm', e. apply elem_of_app in H as [H|H]; [done|].
  by apply list_elem_of_singleton in H.
Qed.

(** A launch by [runOne] keeps the invariant. *)
Lemma inv_launch w s :
  inv w -> is_Some (runCtx (cont w)) -> ~ init_failed (history w) ->
  runContexts (cont w) !! name s = Some (newRunContext s) ->
  inv (mkWorld (set_runContexts (alter (set_running true) (name s) (runContexts (cont w)))
                  (cont w))
         (pool w ++ [GoRun s]) (history w ++ [LaunchRun (name s)])).
Proof.
  intros Hinv [x Hx] Hnf Hl.
  assert (Hfresh : forall g, g ∈ pool w -> go_name g <> name s).
  { intros [nm|s'] Hg Heq; cbn in Heq.
    - by destruct (inv_pool_synth w Hinv nm Hg) as [Hf _].
    - destruct (inv_pool_run w Hinv s' Hg) as (rc & Hl' & Hr & _).
      rewrite Heq, Hl in Hl'. by inversion Hl'; subst rc. }
  constructor; cbn [cont pool history set_runContexts runCtx runCtxCancel services runContexts].
  - apply Hinv.
  - apply Hinv.
  - by rewrite Hx.
  - intros nm rc H. destruct (decide (nm = name s)) as [->|Hne].
    + rewrite lookup_alter_eq, Hl in H. by inversion H; subst rc.
    + rewrite lookup_alter_ne in H by done. by apply (inv_rec_name w Hinv).
  - rewrite fmap_app. apply NoDup_app. split; [apply Hinv|]. split; [|apply NoDup_singleton].
    intros nm Hin Hin'. cbn in Hin'. apply list_elem_of_singleton in Hin'. subst nm.
    apply list_elem_of_fmap in Hin as (g & Heq & Hg). by apply (Hfresh g Hg).
  - intros s' Hs'. apply elem_of_app in Hs' as [Hs'|Hs'].
    + rewrite lookup_alter_ne by (intros Heq; by apply (Hfresh _ Hs')).
      by apply (inv_pool_run w Hinv).
    + apply list_elem_of_singleton in Hs'. inversion Hs'; subst s'.
      rewrite lookup_alter_eq, Hl. by eexists.
  - intros nm Hs'. apply elem_of_app in Hs' as [Hs'|Hs'].
    + by destruct (inv_pool_synth w Hinv nm Hs') as [Hf _].
    + by apply list_elem_of_singleton in Hs'.
  - intros nm rc H Hr. destruct (decide (nm = name s)) as [->|Hne].
    + split; [apply elem_of_app; right; by left|].
      exists s. split; [|done]. apply elem_of_app. right. by left.
    + rewrite lookup_alter_ne in H by done.
      destruct (inv_running w Hinv nm rc H Hr) as (Hla & s' & Hs' & Hnm). split.
      * apply elem_of_app. by left.
      * exists s'. split; [|done]. apply elem_of_app. by left.
  - intros nm r H. apply elem_of_app in H as [H|H]; [|by apply list_elem_of_singleton in H].
    destruct (inv_returned w Hinv nm r H) as (Hla & rc & Hl' & Ht). split.
    + apply elem_of_app. by left.
    + exists rc. split; [|done]. rewrite lookup_alter_ne; [done|].
      intros <-. rewrite Hl in Hl'. inversion Hl'; subst rc.
      by destruct Ht as (_ & _ & Ht).
  - intros nm rc e H He. destruct (decide (nm = name s)) as [->|Hne].
    + rewrite lookup_alter_eq, Hl in H. by inversion H; subst rc.
    + rewrite lookup_alter_ne in H by done. apply elem_of_app. left.
      by apply (inv_err w Hinv nm rc).
  - intros nm H. split.
    { intros Hf. by apply init_failed_snoc_launch in Hf. }
    apply elem_of_app in H as [H|H].
    + destruct (inv_launched w Hinv nm H) as (_ & rc & Hl' & Hb & Hrc).
      exists rc. split; [|done]. rewrite lookup_alter_ne; [done|].
      intros <-. rewrite Hl in Hl'. inversion Hl'; subst rc. by destruct Hrc.
    + apply list_elem_of_singleton in H. inversion H; subst nm.
      rewrite lookup_alter_eq, Hl. eexists. split; [done|]. cbn. by split; [|left].
Qed.

Lemma init_failed_app h x : init_failed h -> init_failed (h ++ [x]).
Proof. intros (nm & e & H). exists nm, e. apply elem_of_app. by left. Qed.

Lemma init_failed_snoc_returned h nm r :
  init_failed (h ++ [RunReturned nm r]) -> init_failed h.
Proof.
  intros (nm' & e & H). exists nm', e. apply elem_of_app in H as [H|H]; [done|].
  by apply list_elem_of_singleton in H.
Qed.

Lemma inv_after_run w i s runErr rc :
  inv w ->
  pool w !! i = Some (GoRun s) ->
  runContexts (cont w) !! name s = Some rc ->
  running rc = true -> done rc = make_chan 1 -> err rc = None ->
  inv (mkWorld (after_run (name s) rc runErr (cont w)) (delete i (pool w))
         (history w ++ [RunReturned (name s) runErr])).
Proof.
  intros Hinv Hi Hl Hrun Hdone Herr.
  assert (Hg : GoRun s ∈ pool w) by (by eapply list_elem_of_lookup_2).
  destruct (inv_pool_started w (GoRun s) Hinv Hg) as (x & f & Hx & Hf).
  assert (Hother : forall g, g ∈ delete i (pool w) -> go_name g <> name s).
  { intros g Hin. apply (NoDup_fmap_delete_ne go_name (pool w) i (GoRun s) g); [apply Hinv|done..]. }
  constructor; unfold after_run; cbn [cont pool history runCtx runCtxCancel services runContexts].
  - apply Hinv.
  - rewrite Hx, Hf. by destruct runErr.
  - rewrite Hx. by destruct runErr.
  - intros nm rc' H. destruct (decide (nm = name s)) as [->|Hne].
    + rewrite lookup_insert_eq in H. inversion H; subst rc'. cbn.
      by apply (inv_rec_name w Hinv).
    + rewrite lookup_insert_ne in H by done. by apply (inv_rec_name w Hinv).
  - apply NoDup_fmap_delete, Hinv.
  - intros s' Hs'. pose proof (Hother _ Hs') as Hne. cbn in Hne.
    rewrite lookup_insert_ne by done.
    apply (inv_pool_run w Hinv). by eapply list_elem_of_delete_inv.
  - intros nm Hs'. pose proof (Hother _ Hs') as Hne. cbn in Hne.
    rewrite lookup_insert_ne by done.
    destruct (inv_pool_synth w Hinv nm) as [Hfail Hrec]; [by eapply list_elem_of_delete_inv|].
    split; [by apply init_failed_app|done].
  - intros nm rc' H Hr. destruct (decide (nm = name s)) as [->|Hne].
    + rewrite lookup_insert_eq in H. by inversion H; subst rc'.
    + rewrite lookup_insert_ne in H by done.
      destruct (inv_running w Hinv nm rc' H Hr) as (Hla & s' & Hs' & Hnm). split.
      * apply elem_of_app. by left.
      * exists s'. split; [|done]. eapply elem_of_delete_ne; [done..|].
        intros Heq. inversion Heq; subst s'. done.
  - intros nm r H. apply elem_of_app in H as [H|H].
    + destruct (inv_returned w Hinv nm r H) as (Hla & rc' & Hl' & Ht). split.
      * apply elem_of_app. by left.
      * exists rc'. split; [|done]. rewrite lookup_insert_ne; [done|].
        intros <-. rewrite Hl in Hl'. inversion Hl'; subst rc'.
        destruct Ht as (Ht & _). congruence.
    + apply list_elem_of_singleton in H. inversion H; subst nm r. split.
      * apply elem_of_app. left. by apply (inv_running w Hinv _ rc).
      * eexists. split; [by rewrite lookup_insert_eq|]. rewrite Hdone. done.
  - intros nm rc' e H He. destruct (decide (nm = name s)) as [->|Hne].
    + rewrite lookup_insert_eq in H. inversion H; subst rc'. cbn in He. subst runErr.
      apply elem_of_app. right. by left.
    + rewrite lookup_insert_ne in H by done. apply elem_of_app. left.
      by apply (inv_err w Hinv nm rc').
  - intros nm H. apply elem_of_app in H as [H|H]; [|by apply list_elem_of_singleton in H].
    destruct (inv_launched w Hinv nm H) as (Hnf & rc' & Hl' & Hb & Hrc). split.
    + intros Hfail. by apply init_failed_snoc_returned in Hfail.
    + destruct (decide (nm = name s)) as [->|Hne].
      * eexists. split; [by rewrite lookup_insert_eq|]. rewrite Hdone. cbn. by split; [|right].
      * exists rc'. by rewrite lookup_insert_ne.
Qed.

Lemma inv_after_synth w i nm rc :
  inv w ->
  pool w !! i = Some (GoSynthDone nm) ->
  runContexts (cont w) !! nm = Some rc ->
  running rc = false -> err rc = None ->
  inv (mkWorld (set_runContexts
                  (<[nm := set_done (mkChan 1 [None] false) rc]> (runContexts (cont w)))
                  (cont w))
         (delete i (pool w)) (history w)).
Proof.
  intros Hinv Hi Hl Hrun Herr.
  assert (Hg : GoSynthDone nm ∈ pool w) by (by eapply list_elem_of_lookup_2).
  destruct (inv_pool_started w _ Hinv Hg) as (x & f & Hx & Hf).
  destruct (inv_pool_synth w Hinv nm Hg) as (Hfail & _).
  assert (Hother : forall g, g ∈ delete i (pool w) -> go_name g <> nm).
  { intros g Hin. apply (NoDup_fmap_delete_ne go_name (pool w) i (GoSynthDone nm) g); [apply Hinv|done..]. }
  constructor; cbn [cont pool history set_runContexts runCtx runCtxCancel services runContexts].
  - apply Hinv.
  - apply Hinv.
  - rewrite Hx. done.
  - intros nm' rc' H. destruct (decide (nm' = nm)) as [->|Hne].
    + rewrite lookup_insert_eq in H. inversion H; subst rc'. cbn.
      by apply (inv_rec_name w Hinv).
    + rewrite lookup_insert_ne in H by done. by apply (inv_rec_name w Hinv).
  - apply NoDup_fmap_delete, Hinv.
  - intros s' Hs'. pose proof (Hother _ Hs') as Hne. cbn in Hne.
    rewrite lookup_insert_ne by done.
    apply (inv_pool_run w Hinv). by eapply list_elem_of_delete_inv.
  - intros nm' Hs'. pose proof (Hother _ Hs') as Hne. cbn in Hne.
    rewrite lookup_insert_ne by done.
    apply (inv_pool_synth w Hinv nm'). by eapply list_elem_of_delete_inv.
  - intros nm' rc' H Hr. destruct (decide (nm' = nm)) as [->|Hne].
    + rewrite lookup_insert_eq in H. inversion H; subst rc'. cbn in Hr. congruence.
    + rewrite lookup_insert_ne in H by done.
      destruct (inv_running w Hinv nm' rc' H Hr) as (Hla & s' & Hs' & Hnm). split; [done|].
      exists s'. split; [|done]. by eapply elem_of_delete_ne.
  - intros nm' r H. destruct (inv_returned w Hinv nm' r H) as (Hla & _).
    by destruct (inv_launched w Hinv nm' Hla).
  - intros nm' rc' e H He. destruct (decide (nm' = nm)) as [->|Hne].
    + rewrite lookup_insert_eq in H. inversion H; subst rc'. cbn in He. congruence.
    + rewrite lookup_insert_ne in H by done. by apply (inv_err w Hinv nm' rc').
  - intros nm' H. by destruct (inv_launched w Hinv nm' H).
Qed.

(** A goroutine of the pool never panics, and the invariant survives it. *)
Lemma go_step_inv w i r :
  inv w -> go_step i w = Some r -> exists w', r = Ok tt w' /\ inv w'.
Proof.
  intros Hinv Hs. destruct (pool w !! i) as [g|] eqn:Hi; [|by rewrite go_step_none in Hs].
  assert (Hg : g ∈ pool w) by (by eapply list_elem_of_lookup_2).
  destruct (inv_pool_started w g Hinv Hg) as (x & f & Hx & Hf).
  destruct g as [nm|s].
  - destruct (inv_pool_synth w Hinv nm Hg) as (_ & rc & Hl & Hr & Hd & He).
    rewrite (go_step_synth i nm w rc) in Hs by done. inversion Hs; subst r.
    eexists. split; [done|]. by apply inv_after_synth.
  - destruct (inv_pool_run w Hinv s Hg) as (rc & Hl & Hr & Hd & He).
    destruct (Run (service s) (runCtx_of (cont w))) as [runErr|] eqn:Hrun.
    + rewrite (go_step_run i s runErr w rc f) in Hs; [|done..|by rewrite Hd|done].
      inversion Hs; subst r. eexists. split; [done|]. by apply inv_after_run.
    + by rewrite (go_step_run_blocked i s) in Hs.
Qed.

(** What a goroutine step leaves alone. *)
Lemma go_step_frame w i w' :
  inv w -> go_step i w = Some (Ok tt w') ->
  (forall nm rc,
     ~ init_failed (history w) ->
     runContexts (cont w) !! nm = Some rc -> running rc = false ->
     runContexts (cont w') !! nm = Some rc)
  /\ (init_failed (history w') -> init_failed (history w))
  /\ (is_Some (runCtx (cont w)) -> is_Some (runCtx (cont w')))
  /\ (forall x, x ∈ history w -> x ∈ history w').
Proof.
  intros Hinv Hs. destruct (pool w !! i) as [g|] eqn:Hi; [|by rewrite go_step_none in Hs].
  assert (Hg : g ∈ pool w) by (by eapply list_elem_of_lookup_2).
  destruct (inv_pool_started w g Hinv Hg) as (x & f & Hx & Hf).
  destruct g as [nm0|s].
  - destruct (inv_pool_synth w Hinv nm0 Hg) as (Hfail & rc0 & Hl & Hr & Hd & He).
    rewrite (go_step_synth i nm0 w rc0) in Hs by done. inversion Hs; subst w'.
    cbn. split; [done|]. split; [done|]. split; [by rewrite Hx|done].
  - destruct (inv_pool_run w Hinv s Hg) as (rc0 & Hl & Hr & Hd & He).
    destruct (Run (service s) (runCtx_of (cont w))) as [runErr|] eqn:Hrun.
    + rewrite (go_step_run i s runErr w rc0 f) in Hs; [|done..|by rewrite Hd|done].
      inversion Hs; subst w'. cbn. split.
      { intros nm rc _ Hl' Hr'. rewrite lookup_insert_ne; [done|].
        intros <-. rewrite Hl in Hl'. inversion Hl'; subst rc0. congruence. }
      split; [apply init_failed_snoc_returned|].
      split; [rewrite Hx; by destruct runErr|].
      intros y Hy. apply elem_of_app. by left.
    + by rewrite (go_step_run_blocked i s) in Hs.
Qed.

Lemma interleave_spec js w :
  inv w ->
  exists w',
    interleave js w = Ok tt w' /\ inv w'
    /\ (forall nm rc,
          ~ init_failed (history w) ->
          runContexts (cont w) !! nm = Some rc -> running rc = false ->
          runContexts (cont w') !! nm = Some rc)
    /\ (init_failed (history w') -> init_failed (history w))
    /\ (is_Some (runCtx (cont w)) -> is_Some (runCtx (cont w')))
    /\ (forall x, x ∈ history w -> x ∈ history w').
Proof.
  revert w. induction js as [|j rest IH]; intros w Hinv.
  - exists w. split; [done|]. split; [done|]. split; [done|]. split; [done|]. by split.
  - cbn [interleave]. unfold bind at 1, yield_to.
    destruct (go_step j w) as [r|] eqn:Hs.
    + destruct (go_step_inv w j r Hinv Hs) as (w1 & -> & Hinv1).
      destruct (go_step_frame w j w1 Hinv Hs) as (F1 & F2 & F3 & F4).
      destruct (IH w1 Hinv1) as (w' & Heq & Hinv' & G1 & G2 & G3 & G4).
      exists w'. split; [done|]. split; [done|]. split; [|split; [|split]]; auto.
    + by apply IH.
Qed.

(** The second loop of [StartAll] under any schedule: every launch
    succeeds. *)
Lemma run_loop_inv steps ss w :
  inv w -> is_Some (runCtx (cont w)) -> ~ init_failed (history w) ->
  NoDup (name <$> ss) ->
  (forall s, s ∈ ss -> runContexts (cont w) !! name s = Some (newRunContext s)) ->
  exists w',
    run_loop steps ss w = Ok None w' /\ inv w'
    /\ is_Some (runCtx (cont w'))
    /\ (forall s, s ∈ ss -> LaunchRun (name s) ∈ history w')
    /\ (forall x, x ∈ history w -> x ∈ history w').
Proof.
  revert steps w. induction ss as [|s rest IH]; intros steps w Hinv Hx Hnf Hnd Hrec.
  - exists w. split; [done|]. split; [done|]. split; [done|]. split; [|done].
    intros s Hs. by apply elem_of_nil in Hs.
  - rewrite fmap_cons in Hnd. apply NoDup_cons in Hnd as [Hnotin Hnd].
    cbn [run_loop]. unfold bind at 1.
    destruct (interleave_spec (hd [] steps) w Hinv) as (w1 & -> & Hinv1 & G1 & G2 & G3 & G4).
    assert (Hrec1 : forall s', s' ∈ s :: rest ->
                      runContexts (cont w1) !! name s' = Some (newRunContext s')).
    { intros s' Hs'. apply G1; [done|by apply Hrec|done]. }
    unfold bind at 1. rewrite (runOne_ok s (newRunContext s)); [|apply Hrec1; by left|done].
    destruct (IH (tl steps)
                (mkWorld (set_runContexts
                            (alter (set_running true) (name s) (runContexts (cont w1)))
                            (cont w1))
                   (pool w1 ++ [GoRun s]) (history w1 ++ [LaunchRun (name s)])))
      as (w' & Heq & Hinv' & Hx' & Hla & Hh).
    + apply inv_launch; auto. apply Hrec1. by left.
    + cbn. by apply G3.
    + cbn. intros Hf. apply init_failed_snoc_launch in Hf. auto.
    + done.
    + intros s' Hs'. cbn. rewrite lookup_alter_ne; [apply Hrec1; by right|].
      intros Heq. apply Hnotin. rewrite Heq. by apply list_elem_of_fmap_2.
    + exists w'. split; [done|]. split; [done|]. split; [done|]. split.
      * intros s' Hs'. apply elem_of_cons in Hs' as [->|Hs']; [|by apply Hla].
        apply Hh. cbn. apply elem_of_app. right. by left.
      * intros y Hy. apply Hh. cbn. apply elem_of_app. left. by apply G4.
Qed.

(** The outcomes of [StartAll] from a state that satisfies the
    invariant, under any schedule. *)
Lemma StartAll_sched_cases steps ctx w :
  inv w ->
  (exists w',
     StartAll_sched steps ctx w = Ok None w' /\ inv w'
     /\ is_Some (runCtx (cont w'))
     /\ runCtx (cont w) = None
     /\ Forall (fun s => init_result (WithCancel ctx).1 s = None) (services (cont w))
     /\ (forall s, s ∈ services (cont w) -> LaunchRun (name s) ∈ history w')
     /\ (forall x, x ∈ init_calls (WithCancel ctx).1 (services (cont w)) -> x ∈ history w'))
  \/ (exists sk e w',
        sk ∈ services (cont w)
        /\ init_result (WithCancel ctx).1 sk = Some e
        /\ StartAll_sched steps ctx w = Ok (Some (init_error sk e)) w' /\ inv w'
        /\ is_Some (runCtx (cont w')))
  \/ (is_Some (runCtx (cont w))
      /\ StartAll_sched steps ctx w = Panic "Container.StartAll can only be called once" w).
Proof.
  intros Hinv. destruct (runCtx (cont w)) as [x|] eqn:Hx.
  { right. right. split; [done|]. by apply (StartAll_sched_started _ _ _ x). }
  destruct (inv_unstarted w Hinv Hx) as (Hm & Hp & Hh).
  pose proof (inv_names w Hinv) as Hnd.
  destruct (init_split (WithCancel ctx).1 (services (cont w)))
    as [Hok|(pre & sk & post & e & Hss & Hpre & Hk)].
  - left. rewrite StartAll_sched_init_ok by done. rewrite Hp, Hh. cbn [app].
    destruct (run_loop_inv steps (services (cont w))
                (mkWorld (mkContainer (Some (WithCancel ctx).1) (Some (WithCancel ctx).2)
                            (services (cont w)) (add_recs (services (cont w)) ∅))
                   [] (init_calls (WithCancel ctx).1 (services (cont w)))))
      as (w' & Heq & Hinv' & Hx' & Hla & Hhist).
    + by apply inv_initialized.
    + done.
    + by apply init_calls_not_failed.
    + done.
    + intros s Hs. cbn. by apply lookup_add_recs_in.
    + exists w'. split; [done|]. split; [done|]. split; [done|]. split; [done|].
      split; [done|]. split; [done|]. intros y Hy. by apply Hhist.
  - right. left. exists sk, e. eexists. split.
    { rewrite Hss. apply elem_of_app. right. by left. }
    split; [done|]. split; [by apply (StartAll_sched_fail steps ctx w pre sk post e)|].
    split; [|done]. rewrite Hp, Hh, Hss. cbn [app]. rewrite Hss in Hnd.
    by apply (inv_started_fail _ _ pre sk post e).
Qed.

Lemma inv_StartAll_sched steps ctx w r w' :
  inv w -> StartAll_sched steps ctx w = Ok r w' -> inv w'.
Proof.
  intros Hinv Hs.
  destruct (StartAll_sched_cases steps ctx w Hinv)
    as [(w1 & Heq & H & _)|[(sk & e & w1 & _ & _ & Heq & H & _)|[_ Heq]]];
    rewrite Heq in Hs; by inversion Hs; subst.
Qed.

Lemma inv_StartAll ctx w r w' :
  inv w -> StartAll ctx w = Ok r w' -> inv w'.
Proof. apply inv_StartAll_sched. Qed.

Lemma step_inv ev w w' : inv w -> step ev w = Some w' -> inv w'.
Proof.
  intros Hinv Hs. unfold step, exec in Hs. destruct ev as [svc|ctx steps| | |i].
  - unfold bind, liftC, ret in Hs.
    destruct (Register svc (cont w)) as [[] c|] eqn:Hr; [|done].
    inversion Hs; subst w'. by eapply inv_Register.
  - destruct (StartAll_sched steps ctx w) as [r w1|] eqn:Hr; [|done].
    inversion Hs; subst w'. by eapply inv_StartAll_sched.
  - unfold bind, liftC, ret in Hs.
    destruct (StopAll (cont w)) as [[] c|] eqn:Hr; [|done].
    inversion Hs; subst w'. by eapply inv_StopAll.
  - inversion Hs; subst w'. unfold on_cont. rewrite parent_cancel_eq. by apply inv_cancelled.
  - destruct (go_step i w) as [r|] eqn:Hr; [|done].
    destruct (go_step_inv w i r Hinv Hr) as (w1 & -> & Hw1).
    unfold bind, ret in Hs. by inversion Hs; subst w'.
Qed.

Lemma reachable_inv w : reachable w -> inv w.
Proof.
  induction 1 as [|ev w w' _ IH Hs]; [apply inv_init|by eapply step_inv].
Qed.

Lemma run_reachable evs w w' : reachable w -> run evs w = Some w' -> reachable w'.
Proof.
  revert w. induction evs as [|ev rest IH]; intros w Hw Hr; simpl in Hr.
  - by inversion Hr; subst.
  - destruct (step ev w) as [w1|] eqn:Hs; [|done].
    eapply IH; [|done]. by eapply reachable_step.
Qed.

(** ** The introspection calls *)

Lemma RunningCount_zero c :
  RunningCount c = 0 <->
  forall nm rc, runContexts c !! nm = Some rc -> running rc = false.
Proof.
  unfold RunningCount.
  apply (map_fold_weak_ind
           (fun r (m : gmap string runContext) =>
              r = 0 <-> forall nm rc, m !! nm = Some rc -> running rc = false)).
  - split; [|done]. intros _ nm rc H. by rewrite lookup_empty in H.
  - intros i x m r Hi [IH1 IH2]. split.
    + intros Hr nm rc H. destruct (running x) eqn:Hx; [done|].
      destruct (decide (nm = i)) as [->|Hne].
      * rewrite lookup_insert_eq in H. by inversion H; subst.
      * rewrite lookup_insert_ne in H by done. by eapply IH1.
    + intros Hall. rewrite (Hall i x) by (by rewrite lookup_insert_eq).
      apply IH2. intros nm rc H. apply (Hall nm).
      rewrite lookup_insert_ne; [done|]. intros ->. congruence.
Qed.


Lemma lookup_ServiceErrors c nm :
  (forall k rc, runContexts c !! k = Some rc -> name (rc_service rc) = k) ->
  ServiceErrors c !! nm = runContexts c !! nm ≫= err.
Proof.
  unfold ServiceErrors. revert nm.
  apply (map_fold_weak_ind
           (fun (r : gmap string error) (m : gmap string runContext) =>
              forall nm, (forall k rc, m !! k = Some rc -> name (rc_service rc) = k) ->
                         r !! nm = m !! nm ≫= err)).
  - intros nm _. by rewrite !lookup_empty.
  - intros i x m r Hi IH nm Hkeys.
    assert (Hx : name (rc_service x) = i) by (apply Hkeys; by rewrite lookup_insert_eq).
    assert (Hm : forall k rc, m !! k = Some rc -> name (rc_service rc) = k).
    { intros k rc H. apply Hkeys. rewrite lookup_insert_ne; [done|]. intros ->. congruence. }
    rewrite Hx. destruct (decide (nm = i)) as [->|Hne].
    + rewrite lookup_insert_eq. cbn. destruct (err x) as [e|].
      * by rewrite lookup_insert_eq.
      * rewrite IH by done. by rewrite Hi.
    + rewrite (lookup_insert_ne m) by done. destruct (err x) as [e|].
      * rewrite lookup_insert_ne by done. by apply IH.
      * by apply IH.
Qed.

Lemma ServiceErrors_spec w nm e :
  inv w ->
  ServiceErrors (cont w) !! nm = Some e <->
  exists rc, runContexts (cont w) !! nm = Some rc /\ err rc = Some e.
Proof.
  intros Hinv. rewrite lookup_ServiceErrors by apply Hinv.
  destruct (runContexts (cont w) !! nm) as [rc|]; cbn.
  - split; [by exists rc|]. by intros (rc' & [= <-] & ?).
  - split; [done|]. by intros (rc' & ? & _).
Qed.


(** C5: when the registry of a reachable container already holds a service
    under the name a value resolves to, [Register] of that value panics
    with the duplicate-name message and leaves the container as it was;
    the registry holds exactly one entry under that name. *)
Theorem Register_duplicate_panics (w : World) (svc : Runner) :
  reachable w ->
  resolve_name svc ∈ name <$> services (cont w) ->
  Register svc (cont w)
  = Panic ("Service '" +:+ resolve_name svc +:+ "' already registered") (cont w)
  /\ services (state_of (Register svc (cont w))) = services (cont w)
  /\ length (filter (fun s => name s = resolve_name svc) (services (cont w))) = 1
  /\ step (EvRegister svc) w = None.
Proof.
  intros Hr Hin. pose proof (reachable_inv w Hr) as Hinv.
  rewrite Register_dup by done. repeat split.
  - apply NoDup_count_one; [apply Hinv|done].
  - unfold step, exec, bind, liftC. by rewrite Register_dup.
Qed.

(** ** The outcome of [StartAll] *)

(** C1: when the k-th registered service is the first whose [Init] fails,
    [StartAll] returns the error that wraps the cause and carries the name
    of that service; [Init] has been called for the services up to the
    k-th in registration order and for no later one, no [Run] has been
    launched (the only goroutine is the one that sends [nil] on the [done]
    channel of the k-th record, and it delivers that error-free
    completion), no later service has a record, and the cancellation
    signal is triggered; the schedule plays no part in this outcome. *)
Theorem StartAll_init_failure (w : World) (ctx : Context)
    (pre post : list serviceInfo) (sk : serviceInfo) (e : error) :
  reachable w ->
  runCtx (cont w) = None ->
  services (cont w) = pre ++ sk :: post ->
  Forall (fun s => init_result (WithCancel ctx).1 s = None) pre ->
  init_result (WithCancel ctx).1 sk = Some e ->
  exists w' w'',
    StartAll ctx w = Ok (Some (init_error sk e)) w'
    /\ history w' = init_calls (WithCancel ctx).1 pre ++ [CallInit (name sk) (Some e)]
    /\ pool w' = [GoSynthDone (name sk)]
    /\ cancelled (cont w') = true
    /\ (forall s, s ∈ post -> runContexts (cont w') !! name s = None)
    /\ go_step 0 w' = Some (Ok tt w'')
    /\ runContexts (cont w'') !! name sk
       = Some (mkRunContext sk false (mkChan 1 [None] false) None)
    /\ Unwrap (init_error sk e) = Some e
    /\ Error (init_error sk e)
       = "failed to init service " +:+ name sk +:+ ": " +:+ Error e
    /\ (forall steps, StartAll_sched steps ctx w = StartAll ctx w).
Proof.
  intros Hr Hx Hss Hpre Hk. pose proof (reachable_inv w Hr) as Hinv.
  destruct (inv_unstarted w Hinv Hx) as (Hm & Hp & Hh).
  pose proof (inv_names w Hinv) as Hnd.
  pose proof (StartAll_fail ctx w pre sk post e Hx Hm Hss Hnd Hpre Hk) as Hs.
  rewrite Hp, Hh in Hs. cbn [app] in Hs.
  assert (Hnd' : NoDup (name <$> pre ++ [sk]) /\
                 forall s, s ∈ post -> name s ∉ name <$> pre ++ [sk]).
  { rewrite Hss in Hnd. rewrite !fmap_app in *. cbn in *.
    apply NoDup_app in Hnd as (H1 & H2 & H3). apply NoDup_cons in H3 as [H3 H4]. split.
    - apply NoDup_app. repeat split; [done| |apply NoDup_singleton].
      intros y Hy1 Hy2. apply (H2 y Hy1). apply elem_of_cons.
      apply list_elem_of_singleton in Hy2. by left.
    - intros s Hs' Hin. apply elem_of_app in Hin as [Hin|Hin].
      + apply (H2 _ Hin). apply elem_of_cons. right. by apply list_elem_of_fmap_2.
      + apply list_elem_of_singleton in Hin. apply H3. rewrite <- Hin.
        by apply list_elem_of_fmap_2. }
  destruct Hnd' as [Hnd1 Hnd2].
  assert (Hlk : add_recs (pre ++ [sk]) ∅ !! name sk = Some (newRunContext sk)).
  { apply lookup_add_recs_in; [done|]. apply elem_of_app. right. by left. }
  eexists _, _. split; [exact Hs|].
  cbn [cont pool history runCtx runContexts]. repeat split.
  - rewrite init_calls_app. f_equal. cbn [init_calls]. unfold init_result in Hk.
    destruct (initer (service sk)); [by rewrite Hk|done].
  - intros s Hin. rewrite lookup_add_recs_notin by (by apply Hnd2). done.
  - by rewrite (go_step_synth 0 (name sk) _ (newRunContext sk)).
  - cbn. by rewrite lookup_insert_eq.
  - intros steps. unfold StartAll.
    by rewrite !(StartAll_sched_fail _ ctx w pre sk post e).
Qed.

(** C4: when no [Init] fails, [StartAll] returns [nil] once it has called
    every [Init] and launched every [Run], in registration order, whatever
    the [Run] functions do; a failure of a [Run] shows in [ServiceErrors()]
    after the unit has returned.  The same result, [nil] with every [Init]
    called and every [Run] launched, comes out under every schedule of the
    launched goroutines during the second loop, also when some of them
    have returned an error before [StartAll] returns. *)
Theorem StartAll_success (w : World) (ctx : Context) :
  reachable w ->
  runCtx (cont w) = None ->
  Forall (fun s => init_result (WithCancel ctx).1 s = None) (services (cont w)) ->
  exists w',
    StartAll ctx w = Ok None w'
    /\ history w' = init_calls (WithCancel ctx).1 (services (cont w))
                      ++ (LaunchRun <$> (name <$> services (cont w)))
    /\ pool w' = GoRun <$> services (cont w)
    /\ ServiceErrors (cont w') = ∅
    /\ (forall i s e,
          pool w' !! i = Some (GoRun s) ->
          Run (service s) (runCtx_of (cont w')) = Some (Some e) ->
          exists w'', go_step i w' = Some (Ok tt w'')
                      /\ ServiceErrors (cont w'') !! name s = Some e)
    /\ (forall steps,
          exists w1,
            StartAll_sched steps ctx w = Ok None w1
            /\ (forall s, s ∈ services (cont w) -> LaunchRun (name s) ∈ history w1)
            /\ (forall x,
                  x ∈ init_calls (WithCancel ctx).1 (services (cont w)) ->
                  x ∈ history w1)).
Proof.
  intros Hr Hx Hok. pose proof (reachable_inv w Hr) as Hinv.
  destruct (inv_unstarted w Hinv Hx) as (Hm & Hp & Hh).
  pose proof (inv_names w Hinv) as Hnd.
  pose proof (StartAll_ok ctx w Hx Hm Hnd Hok) as Hs.
  rewrite Hp, Hh in Hs. cbn [app] in Hs.
  eexists. split; [exact Hs|].
  match type of Hs with _ = Ok _ ?w1 => set (w' := w1) in * end.
  assert (Hinv' : inv w') by (by eapply inv_StartAll).
  split; [done|]. split; [done|]. split; [|split].
  - apply map_eq. intros nm. rewrite lookup_empty.
    destruct (ServiceErrors (cont w') !! nm) as [e|] eqn:He; [|done].
    apply ServiceErrors_spec in He as (rc & Hl & He); [|done].
    apply started_lookup_inv in Hl as (s & _ & _ & ->). done.
  - intros i s e Hi Hrun.
    assert (Hg : GoRun s ∈ pool w') by (by eapply list_elem_of_lookup_2).
    destruct (inv_pool_run w' Hinv' s Hg) as (rc & Hl & Hrn & Hd & He).
    pose proof (go_step_run i s (Some e) w' rc cancelRunCtx Hi Hrun Hl) as Hgo.
    rewrite Hd in Hgo. specialize (Hgo eq_refl eq_refl).
    eexists. split; [exact Hgo|].
    apply ServiceErrors_spec.
    + by apply inv_after_run.
    + eexists. cbn. by rewrite lookup_insert_eq.
  - intros steps.
    destruct (StartAll_sched_cases steps ctx w Hinv)
      as [(w1 & Heq & _ & _ & _ & _ & Hla & Hic)
         |[(sk & e & w1 & Hsk & Hk & _)|[[x Hx'] _]]].
    + by exists w1.
    + rewrite Forall_forall in Hok. rewrite (Hok sk Hsk) in Hk. done.
    + congruence.
Qed.

(** ** Single-shot start *)

Lemma step_keeps_started ev w w' :
  inv w -> is_Some (runCtx (cont w)) -> step ev w = Some w' ->
  is_Some (runCtx (cont w')).
Proof.
  intros Hinv [x Hx] Hs. unfold step, exec in Hs. destruct ev as [svc|ctx steps| | |i].
  - unfold bind, liftC, ret in Hs.
    destruct (decide (resolve_name svc ∈ name <$> services (cont w))) as [Hin|Hnotin].
    + by rewrite Register_dup in Hs.
    + rewrite Register_fresh in Hs by done. inversion Hs; subst w'. cbn. by rewrite Hx.
  - by rewrite (StartAll_sched_started _ _ _ x) in Hs.
  - unfold bind, liftC, ret in Hs.
    destruct (runCtxCancel (cont w)) as [f|] eqn:Hf.
    + rewrite (StopAll_started _ f) in Hs by done. inversion Hs; subst w'. cbn. by rewrite Hx.
    + by rewrite StopAll_unstarted in Hs.
  - inversion Hs; subst w'. cbn. rewrite parent_cancel_eq. cbn. by rewrite Hx.
  - destruct (go_step i w) as [r|] eqn:Hr; [|done].
    destruct (pool w !! i) as [g|] eqn:Hi; [|by rewrite go_step_none in Hr].
    assert (Hg : g ∈ pool w) by (by eapply list_elem_of_lookup_2).
    destruct (inv_pool_started w g Hinv Hg) as (x' & f & Hx' & Hf).
    destruct g as [nm|s].
    + destruct (inv_pool_synth w Hinv nm Hg) as (_ & rc & Hl & Hrn & Hd & He).
      rewrite (go_step_synth i nm w rc) in Hr by done. inversion Hr; subst r.
      unfold bind, ret in Hs. inversion Hs; subst w'. cbn. by rewrite Hx.
    + destruct (inv_pool_run w Hinv s Hg) as (rc & Hl & Hrn & Hd & He).
      destruct (Run (service s) (runCtx_of (cont w))) as [runErr|] eqn:Hrun.
      * rewrite (go_step_run i s runErr w rc f) in Hr; [|done..|by rewrite Hd|done].
        inversion Hr; subst r. unfold bind, ret in Hs. inversion Hs; subst w'.
        cbn. rewrite Hx. by destruct runErr.
      * by rewrite (go_step_run_blocked i s) in Hr.
Qed.

Lemma step_first_start ev w w' :
  inv w -> runCtx (cont w) = None -> step ev w = Some w' ->
  match ev with
  | EvStartAll _ _ => is_Some (runCtx (cont w'))
  | _ => runCtx (cont w') = None
  end.
Proof.
  intros Hinv Hx Hs. unfold step, exec in Hs. destruct ev as [svc|ctx steps| | |i].
  - unfold bind, liftC, ret in Hs.
    destruct (decide (resolve_name svc ∈ name <$> services (cont w))) as [Hin|Hnotin].
    + by rewrite Register_dup in Hs.
    + rewrite Register_fresh in Hs by done. by inversion Hs; subst w'.
  - destruct (StartAll_sched_cases steps ctx w Hinv)
      as [(w1 & Heq & _ & H & _)|[(sk & e & w1 & _ & _ & Heq & _ & H)|[[x H] _]]].
    + rewrite Heq in Hs. by inversion Hs; subst.
    + rewrite Heq in Hs. by inversion Hs; subst.
    + congruence.
  - unfold bind, liftC, ret in Hs. rewrite StopAll_unstarted in Hs; [done|].
    by apply (inv_cancel w Hinv).
  - inversion Hs; subst w'. cbn. rewrite parent_cancel_eq. cbn. by rewrite Hx.
  - destruct (inv_unstarted w Hinv Hx) as (_ & Hp & _).
    rewrite go_step_none in Hs; [done|]. by rewrite Hp.
Qed.

Lemma run_inv evs w w' : inv w -> run evs w = Some w' -> inv w'.
Proof.
  revert w. induction evs as [|ev rest IH]; intros w Hinv Hr; simpl in Hr.
  - by inversion Hr; subst.
  - destruct (step ev w) as [w1|] eqn:Hs; [|done].
    eapply IH; [|done]. by eapply step_inv.
Qed.

Lemma run_keeps_started evs w w' :
  inv w -> is_Some (runCtx (cont w)) -> run evs w = Some w' ->
  is_Some (runCtx (cont w')).
Proof.
  revert w. induction evs as [|ev rest IH]; intros w Hinv Hx Hr; simpl in Hr.
  - by inversion Hr; subst.
  - destruct (step ev w) as [w1|] eqn:Hs; [|done].
    eapply IH; [by eapply step_inv| |done]. by eapply step_keeps_started.
Qed.

Lemma run_started_iff evs w w' :
  inv w -> runCtx (cont w) = None -> run evs w = Some w' ->
  if has_StartAll evs then is_Some (runCtx (cont w')) else runCtx (cont w') = None.
Proof.
  revert w. induction evs as [|ev rest IH]; intros w Hinv Hx Hr; simpl in Hr.
  - by inversion Hr; subst.
  - destruct (step ev w) as [w1|] eqn:Hs; [|done].
    pose proof (step_first_start ev w w1 Hinv Hx Hs) as H1.
    pose proof (step_inv ev w w1 Hinv Hs) as Hinv1.
    destruct ev; cbn [has_StartAll existsb orb]; try (by apply (IH w1)).
    by eapply run_keeps_started.
Qed.

Lemma liftC_panic {A} (m : M Container A) msg w :
  m (cont w) = Panic msg (cont w) -> liftC m w = Panic msg w.
Proof. intros H. unfold liftC. rewrite H. by destruct w. Qed.

(** C7: in a state reached by calls that include a [StartAll], a further
    [StartAll] panics (under any schedule, as its guard comes first); in a
    state reached without any [StartAll], [StopAll] and
    [WaitAllStoppedTimeout] panic.  Each of these panics carries the state
    the call was made in: nothing has been modified. *)
Theorem lifecycle_misuse_panics (evs : list event) (w : World) :
  run evs init_world = Some w ->
  (has_StartAll evs = true ->
   forall steps ctx,
     StartAll_sched steps ctx w
     = Panic "Container.StartAll can only be called once" w)
  /\ (has_StartAll evs = false ->
      liftC StopAll w = Panic "call Container.StartAll() before StopAll()" w
      /\ forall timeout sched,
           WaitAllStoppedTimeout timeout sched w
           = Panic "call Container.StartAll() before WaitAllStopped()" w).
Proof.
  intros Hr.
  pose proof (run_started_iff evs init_world w inv_init eq_refl Hr) as H.
  pose proof (run_inv evs init_world w inv_init Hr) as Hinv.
  split; intros Hs; rewrite Hs in H.
  - intros steps ctx. destruct H as [x Hx]. by apply (StartAll_sched_started _ _ _ x).
  - assert (Hf : runCtxCancel (cont w) = None) by (by apply (inv_cancel w Hinv)).
    split.
    + apply liftC_panic. by apply StopAll_unstarted.
    + intros timeout sched. unfold WaitAllStoppedTimeout. by rewrite Hf.
Qed.


(** ** The units of the Run phase *)

Lemma cancelled_after_run nm rc runErr c :
  cancelled c = true -> cancelled (after_run nm rc runErr c) = true.
Proof.
  unfold cancelled, after_run. cbn. destruct (runCtx c) as [x|]; [|done].
  by destruct runErr.
Qed.

(** What a scheduling step of the [i]-th goroutine does in a state that
    satisfies the invariant. *)
Lemma go_step_cases w i r :
  inv w -> go_step i w = Some r ->
  exists g w',
    pool w !! i = Some g /\ r = Ok tt w' /\ inv w'
    /\ pool w' = delete i (pool w)
    /\ (cancelled (cont w) = true -> cancelled (cont w') = true)
    /\ (forall x, x ∈ history w -> x ∈ history w').
Proof.
  intros Hinv Hs. destruct (pool w !! i) as [g|] eqn:Hi; [|by rewrite go_step_none in Hs].
  destruct (go_step_inv w i r Hinv Hs) as (w' & -> & Hinv').
  exists g, w'. split; [done|]. split; [done|]. split; [done|].
  assert (Hg : g ∈ pool w) by (by eapply list_elem_of_lookup_2).
  destruct (inv_pool_started w g Hinv Hg) as (x' & f & Hx' & Hf).
  destruct g as [nm|s].
  - destruct (inv_pool_synth w Hinv nm Hg) as (_ & rc & Hl & Hrn & Hd & He).
    rewrite (go_step_synth i nm w rc) in Hs by done. inversion Hs; subst w'.
    by cbn.
  - destruct (inv_pool_run w Hinv s Hg) as (rc & Hl & Hrn & Hd & He).
    destruct (Run (service s) (runCtx_of (cont w))) as [runErr|] eqn:Hrun.
    + rewrite (go_step_run i s runErr w rc f) in Hs; [|done..|by rewrite Hd|done].
      inversion Hs; subst w'. cbn [cont pool history]. split; [done|]. split.
      * apply cancelled_after_run.
      * intros y Hy. apply elem_of_app. by left.
    + by rewrite (go_step_run_blocked i s) in Hs.
Qed.

Lemma step_go w i w' :
  step (EvGo i) w = Some w' <-> go_step i w = Some (Ok tt w').
Proof.
  unfold step, exec, bind, ret. destruct (go_step i w) as [[[] w1|msg w1]|]; split; intros H;
    try done; by inversion H; subst.
Qed.

Lemma step_mono ev w w' :
  inv w -> step ev w = Some w' ->
  (cancelled (cont w) = true -> cancelled (cont w') = true)
  /\ (forall x, x ∈ history w -> x ∈ history w').
Proof.
  intros Hinv Hs. destruct ev as [svc|ctx steps| | |i].
  - unfold step, exec, bind, liftC, ret in Hs.
    destruct (decide (resolve_name svc ∈ name <$> services (cont w))) as [Hin|Hnotin].
    + by rewrite Register_dup in Hs.
    + rewrite Register_fresh in Hs by done. by inversion Hs; subst w'.
  - destruct (runCtx (cont w)) as [x|] eqn:Hx.
    + unfold step, exec in Hs. by rewrite (StartAll_sched_started _ _ _ x) in Hs.
    + destruct (inv_unstarted w Hinv Hx) as (_ & _ & Hh). split.
      * unfold cancelled. by rewrite Hx.
      * intros y Hy. rewrite Hh in Hy. by apply elem_of_nil in Hy.
  - unfold step, exec, bind, liftC, ret in Hs.
    destruct (runCtxCancel (cont w)) as [f|] eqn:Hf.
    + rewrite (StopAll_started _ f) in Hs by done. inversion Hs; subst w'.
      split; [|done]. unfold cancelled. cbn. by destruct (runCtx (cont w)).
    + by rewrite StopAll_unstarted in Hs.
  - unfold step, exec in Hs. inversion Hs; subst w'. split; [|done].
    cbn. rewrite parent_cancel_eq. unfold cancelled. cbn. by destruct (runCtx (cont w)).
  - apply step_go in Hs.
    by destruct (go_step_cases w i _ Hinv Hs) as (g & w1 & _ & [= <-] & _ & _ & ? & ?).
Qed.

Lemma run_mono evs w w' :
  inv w -> run evs w = Some w' ->
  (cancelled (cont w) = true -> cancelled (cont w') = true)
  /\ (forall x, x ∈ history w -> x ∈ history w').
Proof.
  revert w. induction evs as [|ev rest IH]; intros w Hinv Hr; simpl in Hr.
  - by inversion Hr; subst.
  - destruct (step ev w) as [w1|] eqn:Hs; [|done].
    destruct (step_mono ev w w1 Hinv Hs) as [H1 H2].
    destruct (IH w1 (step_inv _ _ _ Hinv Hs) Hr) as [H3 H4]. split; auto.
Qed.

(** Goroutine steps alone: each one ends one goroutine of the pool. *)
Lemma run_go_only evs w w' :
  inv w -> forallb is_go evs = true -> run evs w = Some w' ->
  length evs + length (pool w') = length (pool w)
  /\ (forall g, g ∈ pool w' -> g ∈ pool w).
Proof.
  revert w. induction evs as [|ev rest IH]; intros w Hinv Hgo Hr; simpl in Hr.
  - by inversion Hr; subst.
  - destruct (step ev w) as [w1|] eqn:Hs; [|done].
    cbn in Hgo. apply andb_prop in Hgo as [Hev Hgo].
    destruct ev as [| | | |i]; try done.
    pose proof Hs as Hs'. apply step_go in Hs'.
    destruct (go_step_cases w i _ Hinv Hs') as (g & w2 & Hi & [= <-] & Hinv1 & Hp & _).
    destruct (IH w1 Hinv1 Hgo Hr) as [Hlen Hsub]. split.
    + rewrite Hp in Hlen. rewrite length_delete in Hlen by done.
      apply lookup_lt_Some in Hi. cbn. lia.
    + intros g' Hg'. apply Hsub in Hg'. rewrite Hp in Hg'.
      by eapply list_elem_of_delete_inv.
Qed.

(** Once the signal is triggered, a goroutine of the pool can take its
    step, provided a unit honours the contract of [Runner]. *)
Lemma go_progress w j g :
  inv w -> cancelled (cont w) = true -> pool w !! j = Some g ->
  (forall s, g = GoRun s -> cooperative s) ->
  exists w', step (EvGo j) w = Some w'.
Proof.
  intros Hinv Hc Hj Hcoop.
  assert (Hg : g ∈ pool w) by (by eapply list_elem_of_lookup_2).
  destruct (inv_pool_started w g Hinv Hg) as (x & f & Hx & Hf).
  destruct g as [nm|s].
  - destruct (inv_pool_synth w Hinv nm Hg) as (_ & rc & Hl & Hrn & Hd & He).
    eexists. apply step_go. by apply (go_step_synth j nm w rc).
  - destruct (inv_pool_run w Hinv s Hg) as (rc & Hl & Hrn & Hd & He).
    destruct (Run (service s) (runCtx_of (cont w))) as [runErr|] eqn:Hrun.
    + eexists. apply step_go.
      apply (go_step_run j s runErr w rc f); [done..|by rewrite Hd|done].
    + exfalso. apply (Hcoop s eq_refl (runCtx_of (cont w))); [|done].
      unfold cancelled in Hc. unfold runCtx_of. by rewrite Hx in *.
Qed.

Lemma pool_empty_RunningCount w :
  inv w -> (forall s, GoRun s ∉ pool w) -> RunningCount (cont w) = 0.
Proof.
  intros Hinv Hp. apply RunningCount_zero. intros nm rc Hl.
  destruct (running rc) eqn:Hr; [|done].
  destruct (inv_running w Hinv nm rc Hl Hr) as (_ & s & Hs & _). by apply Hp in Hs.
Qed.

(** Running the first goroutine of the pool again and again empties it. *)
Lemma run_drain n w :
  inv w -> cancelled (cont w) = true -> length (pool w) = n ->
  (forall s, GoRun s ∈ pool w -> cooperative s) ->
  exists w', run (repeat (EvGo 0) n) w = Some w' /\ pool w' = [] /\ inv w'.
Proof.
  revert w. induction n as [|n IH]; intros w Hinv Hc Hlen Hcoop.
  - exists w. split; [done|]. split; [by apply length_zero_iff_nil|done].
  - destruct (pool w) as [|g rest] eqn:Hp; [done|].
    destruct (go_progress w 0 g Hinv Hc) as [w1 Hs]; [by rewrite Hp| |].
    { intros s ->. apply Hcoop. by left. }
    pose proof Hs as Hgo. apply step_go in Hgo.
    destruct (go_step_cases w 0 _ Hinv Hgo) as (g' & w2 & _ & [= <-] & Hinv1 & Hp1 & Hc1 & _).
    rewrite Hp in Hp1. cbn in Hp1.
    destruct (IH w1 Hinv1 (Hc1 Hc)) as (w' & Hrun & Hnil & Hinv').
    + rewrite Hp1. cbn in Hlen. lia.
    + intros s Hin. apply Hcoop. rewrite Hp1 in Hin. by right.
    + exists w'. cbn [repeat run]. by rewrite Hs.
Qed.

Lemma go_run_step w i s runErr :
  inv w -> pool w !! i = Some (GoRun s) ->
  Run (service s) (runCtx_of (cont w)) = Some runErr ->
  exists rc,
    runContexts (cont w) !! name s = Some rc
    /\ running rc = true /\ done rc = make_chan 1 /\ err rc = None
    /\ is_Some (runCtx (cont w))
    /\ go_step i w
       = Some (Ok tt (mkWorld (after_run (name s) rc runErr (cont w)) (delete i (pool w))
                        (history w ++ [RunReturned (name s) runErr]))).
Proof.
  intros Hinv Hi Hrun.
  assert (Hg : GoRun s ∈ pool w) by (by eapply list_elem_of_lookup_2).
  destruct (inv_pool_started w _ Hinv Hg) as (x & f & Hx & Hf).
  destruct (inv_pool_run w Hinv s Hg) as (rc & Hl & Hrn & Hd & He).
  exists rc. repeat split; try done.
  apply (go_step_run i s runErr w rc f); [done..|by rewrite Hd|done].
Qed.

(** C2: when the [Run] of a launched service returns a non-nil error, its
    unit records the error, clears [running], closes [done] (which was
    open, and no goroutine is left that could signal on it again) and
    triggers the cancellation signal; record and signal stay so in every
    later state.  The other running services honour the contract of
    [Runner] ([Run] returns once the context is done); then, under
    goroutine steps alone (no call of [StopAll]), every goroutine left can
    take its step, each step ends one of them, once none is left no
    service is running, and the schedule that keeps running the first
    goroutine gets there. *)
Theorem run_failure_cascades (w : World) (i : nat) (s : serviceInfo) (e : error) :
  reachable w ->
  pool w !! i = Some (GoRun s) ->
  Run (service s) (runCtx_of (cont w)) = Some (Some e) ->
  (forall s', GoRun s' ∈ delete i (pool w) -> cooperative s') ->
  exists rc w',
    runContexts (cont w) !! name s = Some rc
    /\ running rc = true /\ done rc = make_chan 1
    /\ go_step i w = Some (Ok tt w')
    /\ runContexts (cont w') !! name s
       = Some (mkRunContext (rc_service rc) false (mkChan 1 [] true) (Some e))
    /\ (forall g, g ∈ pool w' -> go_name g <> name s)
    /\ cancelled (cont w') = true
    /\ (forall evs w'',
          run evs w' = Some w'' ->
          cancelled (cont w'') = true
          /\ exists rc'', runContexts (cont w'') !! name s = Some rc''
                          /\ terminal (Some e) rc'')
    /\ (forall evs w'',
          forallb is_go evs = true -> run evs w' = Some w'' ->
          length evs + length (pool w'') = length (pool w')
          /\ (forall j, j < length (pool w'') -> exists w3, step (EvGo j) w'' = Some w3)
          /\ (pool w'' = [] -> RunningCount (cont w'') = 0))
    /\ (exists w'',
          run (repeat (EvGo 0) (length (pool w'))) w' = Some w''
          /\ pool w'' = [] /\ RunningCount (cont w'') = 0).
Proof.
  intros Hr Hi Hrun Hcoop. pose proof (reachable_inv w Hr) as Hinv.
  destruct (go_run_step w i s (Some e) Hinv Hi Hrun)
    as (rc & Hl & Hrn & Hd & He & [x Hx] & Hgo).
  match type of Hgo with _ = Some (Ok _ ?w1) => set (w' := w1) in * end.
  assert (Hinv' : inv w').
  { destruct (go_step_inv w i _ Hinv Hgo) as (w1 & [= <-] & H). done. }
  assert (Hc' : cancelled (cont w') = true).
  { unfold cancelled. cbn. by rewrite Hx. }
  exists rc, w'.
  split; [done|]. split; [done|]. split; [done|]. split; [done|].
  split. { cbn. rewrite lookup_insert_eq. by rewrite Hd. }
  split.
  { intros g Hg. cbn in Hg.
    apply (NoDup_fmap_delete_ne go_name (pool w) i (GoRun s) g); [apply Hinv|done..]. }
  split; [done|]. split.
  { intros evs w'' Hrun'. destruct (run_mono evs w' w'' Hinv' Hrun') as [Hm1 Hm2].
    split; [by apply Hm1|].
    pose proof (run_inv evs w' w'' Hinv' Hrun') as Hinv''.
    apply (inv_returned w'' Hinv''), Hm2. cbn. apply elem_of_app. right. by left. }
  split.
  { intros evs w'' Hgo' Hrun'.
    pose proof (run_inv evs w' w'' Hinv' Hrun') as Hinv''.
    destruct (run_go_only evs w' w'' Hinv' Hgo' Hrun') as [Hlen Hsub].
    split; [done|]. split.
    - intros j Hj. apply lookup_lt_is_Some in Hj as [g Hg].
      apply (go_progress w'' j g); try done.
      + destruct (run_mono evs w' w'' Hinv' Hrun') as [Hm _]. by apply Hm.
      + intros s' ->. apply Hcoop. apply (Hsub (GoRun s')).
        by eapply list_elem_of_lookup_2.
    - intros Hp. apply pool_empty_RunningCount; [done|]. intros s' Hs'.
      rewrite Hp in Hs'. by apply elem_of_nil in Hs'. }
  destruct (run_drain (length (pool w')) w' Hinv' Hc' eq_refl) as (w'' & Hrun' & Hnil & Hinv'').
  { intros s' Hs'. by apply Hcoop. }
  exists w''. split; [done|]. split; [done|].
  apply pool_empty_RunningCount; [done|]. intros s' Hs'.
  rewrite Hnil in Hs'. by apply elem_of_nil in Hs'.
Qed.

Lemma NoDup_fmap_lookup_ne {A B} (f : A -> B) (l : list A) i j a b :
  NoDup (f <$> l) -> l !! i = Some a -> l !! j = Some b -> i <> j -> f a <> f b.
Proof.
  intros Hnd Hi Hj Hne Heq. apply Hne.
  apply (NoDup_lookup (f <$> l) i j (f a)); [done|..].
  - by rewrite list_lookup_fmap, Hi.
  - by rewrite list_lookup_fmap, Hj, Heq.
Qed.

(** C9: when the [Run] of a launched service returns [nil], its unit
    updates its own record only ([err] stays [nil], [running] becomes
    false, [done] is closed); the context and with it the cancellation
    signal are as before, every other record is unchanged, and every other
    unit is still in the pool with its record running and its [Run] facing
    the same context. *)
Theorem run_success_frame (w : World) (i : nat) (s : serviceInfo) :
  reachable w ->
  pool w !! i = Some (GoRun s) ->
  Run (service s) (runCtx_of (cont w)) = Some None ->
  exists rc w',
    runContexts (cont w) !! name s = Some rc
    /\ go_step i w = Some (Ok tt w')
    /\ runContexts (cont w') !! name s
       = Some (mkRunContext (rc_service rc) false (mkChan 1 [] true) None)
    /\ runCtx (cont w') = runCtx (cont w)
    /\ cancelled (cont w') = cancelled (cont w)
    /\ (forall nm, nm <> name s ->
                   runContexts (cont w') !! nm = runContexts (cont w) !! nm)
    /\ pool w' = delete i (pool w)
    /\ (forall j s',
          j <> i -> pool w !! j = Some (GoRun s') ->
          GoRun s' ∈ pool w'
          /\ (exists rc', runContexts (cont w') !! name s' = Some rc'
                          /\ runContexts (cont w) !! name s' = Some rc'
                          /\ running rc' = true)
          /\ Run (service s') (runCtx_of (cont w'))
             = Run (service s') (runCtx_of (cont w))).
Proof.
  intros Hr Hi Hrun. pose proof (reachable_inv w Hr) as Hinv.
  destruct (go_run_step w i s None Hinv Hi Hrun)
    as (rc & Hl & Hrn & Hd & He & [x Hx] & Hgo).
  eexists rc, _. split; [done|]. split; [exact Hgo|].
  cbn [cont pool history after_run runCtx runContexts]. repeat split; try done.
  - rewrite lookup_insert_eq. by rewrite Hd.
  - intros nm Hne. by rewrite lookup_insert_ne.
  - eapply elem_of_delete_ne; [by eapply list_elem_of_lookup_2|done|].
    intros Heq. inversion Heq; subst s'.
    by apply (NoDup_fmap_lookup_ne go_name (pool w) i j (GoRun s) (GoRun s) (inv_pool_nodup w Hinv)).
  - assert (Hne : name s' <> name s).
    { apply (NoDup_fmap_lookup_ne go_name (pool w) j i (GoRun s') (GoRun s) (inv_pool_nodup w Hinv));
        done. }
    destruct (inv_pool_run w Hinv s') as (rc' & Hl' & Hr' & _);
      [by eapply list_elem_of_lookup_2|].
    exists rc'. by rewrite lookup_insert_ne.
Qed.

(** ** The default container *)

Lemma Default_set p ptr :
  defaultContainer p = Some ptr -> Default p = Ok ptr p.
Proof. intros H. unfold Default, bind, get, ret. by rewrite H. Qed.

Lemma Default_unset p :
  defaultContainer p = None ->
  Default p = Ok (length (heap p))
                (mkProcess (heap p ++ [NewContainer]) (Some (length (heap p)))).
Proof. intros H. unfold Default, bind, get, ret, alloc, modify. by rewrite H. Qed.

Lemma RegisterDefault_via p ptr p1 svc :
  Default p = Ok ptr p1 -> RegisterDefault svc p = at_ptr ptr (Register svc) p1.
Proof. intros H. unfold RegisterDefault, bind. by rewrite H. Qed.

Lemma at_ptr_Register_fresh p ptr c svc :
  heap p !! ptr = Some c ->
  resolve_name svc ∉ name <$> services c ->
  at_ptr ptr (Register svc) p
  = Ok tt (mkProcess
             (<[ptr := set_services (services c ++ [mkServiceInfo (resolve_name svc) svc]) c]>
                (heap p))
             (defaultContainer p)).
Proof. intros Hl Hn. unfold at_ptr. rewrite Hl. by rewrite Register_fresh. Qed.

(** C10: [Default()] always returns; a second call returns the same
    pointer and changes nothing.  When no default container exists yet the
    first call allocates a fresh [NewContainer()] and stores its address.
    Two registrations made through [Default()] under new, distinct names
    both land, in order, in the one container that [Default()] keeps
    returning. *)
Theorem Default_idempotent (p : Process) :
  exists ptr p1,
    Default p = Ok ptr p1
    /\ Default p1 = Ok ptr p1
    /\ defaultContainer p1 = Some ptr
    /\ (defaultContainer p = None ->
        heap p !! ptr = None
        /\ heap p1 = heap p ++ [NewContainer]
        /\ heap p1 !! ptr = Some NewContainer)
    /\ (forall q, defaultContainer p = Some q -> ptr = q /\ p1 = p)
    /\ (forall c1 svc1 svc2,
          heap p1 !! ptr = Some c1 ->
          resolve_name svc1 ∉ name <$> services c1 ->
          resolve_name svc2 ∉ name <$> services c1 ->
          resolve_name svc1 <> resolve_name svc2 ->
          exists p2 p3 c3,
            RegisterDefault svc1 p = Ok tt p2
            /\ RegisterDefault svc2 p2 = Ok tt p3
            /\ Default p3 = Ok ptr p3
            /\ heap p3 !! ptr = Some c3
            /\ services c3
               = services c1 ++ [mkServiceInfo (resolve_name svc1) svc1;
                                 mkServiceInfo (resolve_name svc2) svc2]).
Proof.
  assert (Hreg : forall ptr p1, Default p = Ok ptr p1 -> defaultContainer p1 = Some ptr ->
            forall c1 svc1 svc2,
              heap p1 !! ptr = Some c1 ->
              resolve_name svc1 ∉ name <$> services c1 ->
              resolve_name svc2 ∉ name <$> services c1 ->
              resolve_name svc1 <> resolve_name svc2 ->
              exists p2 p3 c3,
                RegisterDefault svc1 p = Ok tt p2
                /\ RegisterDefault svc2 p2 = Ok tt p3
                /\ Default p3 = Ok ptr p3
                /\ heap p3 !! ptr = Some c3
                /\ services c3
                   = services c1 ++ [mkServiceInfo (resolve_name svc1) svc1;
                                     mkServiceInfo (resolve_name svc2) svc2]).
  { intros ptr p1 Hd Hp1 c1 svc1 svc2 Hl H1 H2 Hne.
    pose proof (lookup_lt_Some _ _ _ Hl) as Hlt.
    rewrite (RegisterDefault_via p ptr p1) by done.
    rewrite (at_ptr_Register_fresh p1 ptr c1) by done.
    eexists _, _, _. split; [done|].
    erewrite (RegisterDefault_via _ ptr) by (apply Default_set; exact Hp1).
    rewrite (at_ptr_Register_fresh _ ptr
               (set_services (services c1 ++ [mkServiceInfo (resolve_name svc1) svc1]) c1));
      cbn [heap defaultContainer].
    - split; [done|]. split; [by apply Default_set|].
      split; [by apply list_lookup_insert_eq; rewrite length_insert|].
      cbn [services set_services]. by rewrite <- app_assoc.
    - by apply list_lookup_insert_eq.
    - cbn. rewrite fmap_app. intros Hin. apply elem_of_app in Hin as [Hin|Hin]; [done|].
      cbn in Hin. apply list_elem_of_singleton in Hin. congruence. }
  destruct (defaultContainer p) as [q|] eqn:Hq.
  - exists q, p. rewrite (Default_set p q Hq).
    split; [done|]. split; [done|]. split; [done|]. split; [done|]. split.
    + by intros q' [= <-].
    + by apply Hreg; [apply Default_set|].
  - eexists _, _. rewrite (Default_unset p Hq). split; [done|].
    split; [by apply Default_set|]. split; [done|]. split; [|split; [done|]].
    + intros _. cbn. split; [by apply lookup_ge_None|]. split; [done|].
      rewrite lookup_app_r by done. by rewrite Nat.sub_diag.
    + by apply Hreg; [apply Default_unset|].
Qed.

(** ** Waiting *)


















(** When no record is running, the waiters and the joining goroutine end
    the wait at once. *)
Lemma wait_loop_all_stopped l n t w :
  (forall nm rc, nm ∈ l -> runContexts (cont w) !! nm = Some rc -> running rc = false) ->
  wait_loop (repeat (WWaiter 0) (length l) ++ [WJoin]) n
    (mkWaitState t 0 (length l) (WaitEnter <$> l) true false) w
  = (WaitReturned t (n + length l + 1), w).
Proof.
  revert n. induction l as [|nm l IH]; intros n Hall.
  - cbn. f_equal. f_equal. lia.
  - cbn [length repeat app wait_loop]. unfold local_done. cbn [local_cancelled timeout_of].
    cbn [Z.eqb negb andb orb wait_step]. unfold waiter_step.
    cbn [waiters fmap list_fmap lookup list_lookup].
    assert (Hnext : wait_loop (repeat (WWaiter 0) (length l) ++ [WJoin]) (S n)
                      (waiter_done 0 (mkWaitState t 0 (S (length l))
                                        (WaitEnter nm :: (WaitEnter <$> l)) true false)) w
                    = (WaitReturned t (n + S (length l) + 1), w)).
    { unfold waiter_done. cbn. rewrite Nat.sub_0_r. rewrite IH.
      - f_equal. f_equal. lia.
      - intros nm' rc Hin. apply Hall. by right. }
    destruct (runContexts (cont w) !! nm) as [rc|] eqn:Hl; [|exact Hnext].
    rewrite (Hall nm rc); [exact Hnext|by left|done].
Qed.


(** ** The theorems on the services of the test suite *)

Lemma world_after_reachable evs w :
  run evs init_world = Some w -> reachable (world_after evs).
Proof.
  intros H. unfold world_after. rewrite H.
  by apply (run_reachable evs init_world), H; apply reachable_init.
Qed.

Ltac by_computation := vm_compute; reflexivity.

Ltac after_is_reachable evs :=
  apply (world_after_reachable evs (world_after evs)); by_computation.

(** The second service fails in [Run] while [StartAll] is still launching
    the third: [StartAll] returns [nil] all the same, the signal is
    triggered and the error is in [ServiceErrors()]. *)
Example StartAll_returns_nil_after_early_failure :
  exists w1,
    StartAll_sched [[]; []; [1]] Background (world_after regs_run_fails) = Ok None w1
    /\ cancelled (cont w1) = true
    /\ ServiceErrors (cont w1) !! "testService.s2" = Some run_failure
    /\ RunningCount (cont w1) = 2.
Proof.
  eexists. split; [by_computation|].
  split; [by_computation|]. split; by_computation.
Qed.

Lemma StartAll_init_failure_witness :
  exists w' w'',
    StartAll Background (world_after regs_init_fails)
    = Ok (Some (init_error (info_of ts2_init_fails) init_failure)) w'
    /\ history w' = [CallInit "testService.s1" None;
                     CallInit "testService.s2" (Some init_failure)]
    /\ pool w' = [GoSynthDone "testService.s2"]
    /\ cancelled (cont w') = true
    /\ go_step 0 w' = Some (Ok tt w'').
Proof.
  destruct (StartAll_init_failure (world_after regs_init_fails) Background
              [info_of ts1] [info_of ts3] (info_of ts2_init_fails) init_failure)
    as (w' & w'' & H1 & H2 & H3 & H4 & _ & H5 & _).
  - after_is_reachable regs_init_fails.
  - by_computation.
  - by_computation.
  - repeat constructor.
  - by_computation.
  - exists w', w''. repeat split; assumption.
Defined.

Lemma StartAll_success_witness :
  exists w',
    StartAll Background (world_after regs_run_fails) = Ok None w'
    /\ pool w' = GoRun <$> services (cont (world_after regs_run_fails))
    /\ ServiceErrors (cont w') = ∅.
Proof.
  destruct (StartAll_success (world_after regs_run_fails) Background)
    as (w' & H1 & _ & H2 & H3 & _).
  - after_is_reachable regs_run_fails.
  - by_computation.
  - assert (Hs : services (cont (world_after regs_run_fails))
                 = [info_of ts1; info_of ts2_run_fails; info_of ts3]) by by_computation.
    rewrite Hs. repeat constructor.
  - exists w'. repeat split; assumption.
Defined.

Lemma run_failure_cascades_witness :
  exists w' w'',
    go_step 1 (world_after (regs_run_fails ++ [EvStartAll Background []])) = Some (Ok tt w')
    /\ cancelled (cont w') = true
    /\ run (repeat (EvGo 0) (length (pool w'))) w' = Some w''
    /\ RunningCount (cont w'') = 0.
Proof.
  destruct (run_failure_cascades
              (world_after (regs_run_fails ++ [EvStartAll Background []])) 1
              (info_of ts2_run_fails) run_failure)
    as (rc & w' & _ & _ & _ & H1 & _ & _ & H2 & _ & _ & w'' & H3 & _ & H4).
  - after_is_reachable (regs_run_fails ++ [EvStartAll Background []]).
  - by_computation.
  - by_computation.
  - intros s' Hin.
    assert (Hp : delete 1 (pool (world_after (regs_run_fails ++ [EvStartAll Background []])))
                 = [GoRun (info_of ts1); GoRun (info_of ts3)]) by by_computation.
    rewrite Hp in Hin. clear Hp.
    apply elem_of_cons in Hin as [Heq|Hin].
    { inversion Heq; subst s'. intros ctx Hd. cbn. by rewrite Hd. }
    apply list_elem_of_singleton in Hin.
    inversion Hin; subst s'. intros ctx Hd. cbn. by rewrite Hd.
  - exists w', w''. repeat split; assumption.
Defined.

Lemma run_success_frame_witness :
  exists rc w',
    go_step 1 (world_after (regs_returns ++ [EvStartAll Background []])) = Some (Ok tt w')
    /\ runContexts (cont w') !! "testService.s2"
       = Some (mkRunContext (rc_service rc) false (mkChan 1 [] true) None)
    /\ cancelled (cont w')
       = cancelled (cont (world_after (regs_returns ++ [EvStartAll Background []]))).
Proof.
  destruct (run_success_frame
              (world_after (regs_returns ++ [EvStartAll Background []])) 1
              (info_of ts2_returns))
    as (rc & w' & _ & H1 & H2 & _ & H3 & _).
  - after_is_reachable (regs_returns ++ [EvStartAll Background []]).
  - by_computation.
  - by_computation.
  - exists rc, w'. repeat split; assumption.
Defined.


Lemma Register_duplicate_panics_witness :
  Register ts2_run_fails (cont (world_after regs_init_fails))
  = Panic ("Service '" +:+ resolve_name ts2_run_fails +:+ "' already registered")
      (cont (world_after regs_init_fails))
  /\ length (filter (fun s => name s = resolve_name ts2_run_fails)
               (services (cont (world_after regs_init_fails)))) = 1.
Proof.
  destruct (Register_duplicate_panics (world_after regs_init_fails) ts2_run_fails)
    as (H1 & _ & H2 & _).
  - after_is_reachable regs_init_fails.
  - assert (Hs : name <$> services (cont (world_after regs_init_fails))
                 = [resolve_name ts1; resolve_name ts2_run_fails; resolve_name ts3])
      by by_computation.
    rewrite Hs. apply elem_of_cons. right. apply elem_of_cons. by left.
  - split; [exact H1|exact H2].
Defined.

Lemma lifecycle_misuse_panics_witness :
  StartAll Background (world_after (regs_returns ++ [EvStartAll Background []]))
  = Panic "Container.StartAll can only be called once"
      (world_after (regs_returns ++ [EvStartAll Background []]))
  /\ liftC StopAll (world_after regs_returns)
     = Panic "call Container.StartAll() before StopAll()" (world_after regs_returns)
  /\ WaitAllStoppedTimeout 0 [] (world_after regs_returns)
     = Panic "call Container.StartAll() before WaitAllStopped()" (world_after regs_returns).
Proof.
  split.
  - apply (lifecycle_misuse_panics (regs_returns ++ [EvStartAll Background []])
             (world_after (regs_returns ++ [EvStartAll Background []]))); by_computation.
  - destruct (lifecycle_misuse_panics regs_returns (world_after regs_returns))
      as [_ H]; [by_computation|].
    destruct (H eq_refl) as [H1 H2]. split; [exact H1|apply H2].
Defined.



Lemma Default_idempotent_witness :
  exists ptr p1 p2 p3 c3,
    Default init_process = Ok ptr p1
    /\ Default p1 = Ok ptr p1
    /\ RegisterDefault ts1 init_process = Ok tt p2
    /\ RegisterDefault ts3 p2 = Ok tt p3
    /\ Default p3 = Ok ptr p3
    /\ heap p3 !! ptr = Some c3
    /\ services c3 = [info_of ts1; info_of ts3].
Proof.
  destruct (Default_idempotent init_process)
    as (ptr & p1 & H1 & H2 & _ & Hnew & _ & Hreg).
  destruct (Hnew eq_refl) as (_ & _ & Hl).
  destruct (Hreg NewContainer ts1 ts3 Hl) as (p2 & p3 & c3 & H3 & H4 & H5 & H6 & H7).
  - cbn. apply not_elem_of_nil.
  - cbn. apply not_elem_of_nil.
  - discriminate.
  - exists ptr, p1, p2, p3, c3. repeat split; assumption.
Defined.


(** * Proofs for the rest of the package *)

(** ** What the goroutines and the launches leave alone *)

Lemma same_records_refl w : same_records w w.
Proof. by repeat split. Qed.

Lemma same_records_trans w1 w2 w3 :
  same_records w1 w2 -> same_records w2 w3 -> same_records w1 w3.
Proof.
  intros (A1 & A2 & A3) (B1 & B2 & B3). split; [congruence|]. split.
  - intros nm. by rewrite B2, A2.
  - intros nm r. by rewrite B3, A3.
Qed.

Lemma CallInit_snoc_other h x nm r :
  (forall nm' r', x <> CallInit nm' r') ->
  CallInit nm r ∈ h ++ [x] <-> CallInit nm r ∈ h.
Proof.
  intros Hx. rewrite elem_of_app, list_elem_of_singleton. split; [|by left].
  intros [H|H]; [done|]. symmetry in H. by apply Hx in H.
Qed.

Lemma go_step_same_records w i w' :
  inv w -> go_step i w = Some (Ok tt w') -> same_records w w'.
Proof.
  intros Hinv Hs. destruct (pool w !! i) as [g|] eqn:Hi; [|by rewrite go_step_none in Hs].
  assert (Hg : g ∈ pool w) by (by eapply list_elem_of_lookup_2).
  destruct (inv_pool_started w g Hinv Hg) as (x & f & Hx & Hf).
  destruct g as [nm0|s].
  - destruct (inv_pool_synth w Hinv nm0 Hg) as (Hfail & rc0 & Hl & Hr & Hd & He).
    rewrite (go_step_synth i nm0 w rc0) in Hs by done. inversion Hs; subst w'.
    split; [done|]. split; [|done]. intros nm. cbn.
    destruct (decide (nm = nm0)) as [->|Hne].
    + by rewrite lookup_insert_eq, Hl.
    + by rewrite lookup_insert_ne.
  - destruct (inv_pool_run w Hinv s Hg) as (rc0 & Hl & Hr & Hd & He).
    destruct (Run (service s) (runCtx_of (cont w))) as [runErr|] eqn:Hrun.
    + rewrite (go_step_run i s runErr w rc0 f) in Hs; [|done..|by rewrite Hd|done].
      inversion Hs; subst w'. split; [done|]. split.
      * intros nm. cbn. destruct (decide (nm = name s)) as [->|Hne].
        -- by rewrite lookup_insert_eq, Hl.
        -- by rewrite lookup_insert_ne.
      * intros nm r. cbn. by apply CallInit_snoc_other.
    + by rewrite (go_step_run_blocked i s) in Hs.
Qed.

Lemma interleave_same_records js w w' :
  inv w -> interleave js w = Ok tt w' -> same_records w w'.
Proof.
  revert w. induction js as [|j rest IH]; intros w Hinv Hs.
  - inversion Hs. apply same_records_refl.
  - cbn [interleave] in Hs. unfold bind at 1, yield_to in Hs.
    destruct (go_step j w) as [r|] eqn:Hg.
    + destruct (go_step_inv w j r Hinv Hg) as (w1 & -> & Hinv1).
      apply (same_records_trans w w1 w'); [by eapply go_step_same_records|by apply IH].
    + by apply IH.
Qed.

Lemma interleave_pool js w w' :
  inv w -> interleave js w = Ok tt w' ->
  (cancelled (cont w) = true -> cancelled (cont w') = true)
  /\ (forall g, g ∈ pool w' -> g ∈ pool w).
Proof.
  revert w. induction js as [|j rest IH]; intros w Hinv Hs.
  - by inversion Hs.
  - cbn [interleave] in Hs. unfold bind at 1, yield_to in Hs.
    destruct (go_step j w) as [r|] eqn:Hg.
    + destruct (go_step_cases w j r Hinv Hg) as (g0 & w1 & _ & -> & Hinv1 & Hp & Hc & _).
      destruct (IH w1 Hinv1 Hs) as [C1 C2]. split; [auto|].
      intros g Hin. apply C2 in Hin. rewrite Hp in Hin.
      by eapply list_elem_of_delete_inv.
    + by apply IH.
Qed.

Lemma run_loop_same_records steps ss w w' :
  inv w -> is_Some (runCtx (cont w)) -> ~ init_failed (history w) ->
  NoDup (name <$> ss) ->
  (forall s, s ∈ ss -> runContexts (cont w) !! name s = Some (newRunContext s)) ->
  run_loop steps ss w = Ok None w' ->
  same_records w w'
  /\ (cancelled (cont w) = true -> cancelled (cont w') = true)
  /\ (forall g, g ∈ pool w' -> g ∈ pool w \/ exists s, s ∈ ss /\ g = GoRun s).
Proof.
  revert steps w. induction ss as [|s rest IH]; intros steps w Hinv Hx Hnf Hnd Hrec Hs.
  - inversion Hs. split; [apply same_records_refl|]. split; [done|]. intros g Hg. by left.
  - rewrite fmap_cons in Hnd. apply NoDup_cons in Hnd as [Hnotin Hnd].
    cbn [run_loop] in Hs. unfold bind at 1 in Hs.
    destruct (interleave_spec (hd [] steps) w Hinv) as (w1 & Heq & Hinv1 & G1 & G2 & G3 & G4).
    pose proof (interleave_same_records _ _ _ Hinv Heq) as Hsame1.
    rewrite Heq in Hs.
    assert (Hrec1 : forall s', s' ∈ s :: rest ->
                      runContexts (cont w1) !! name s' = Some (newRunContext s')).
    { intros s' Hs'. apply G1; [done|by apply Hrec|done]. }
    unfold bind at 1 in Hs.
    rewrite (runOne_ok s (newRunContext s)) in Hs; [|apply Hrec1; by left|done].
    destruct (interleave_pool _ _ _ Hinv Heq) as [C1 C2].
    apply IH in Hs.
    + destruct Hs as ((A1 & A2 & A3) & B1 & B2). split; [|split].
      * apply (same_records_trans w w1 w' Hsame1). split; [done|]. split.
        -- intros nm. rewrite A2. cbn. destruct (decide (nm = name s)) as [->|Hne].
           ++ rewrite lookup_alter_eq. by destruct (runContexts (cont w1) !! name s).
           ++ by rewrite lookup_alter_ne.
        -- intros nm r. rewrite A3. cbn. by apply CallInit_snoc_other.
      * intros Hc. apply B1. cbn. by apply C1.
      * intros g Hg. apply B2 in Hg as [Hg|(s' & Hs' & ->)].
        -- cbn in Hg. apply elem_of_app in Hg as [Hg|Hg]; [left; by apply C2|].
           apply list_elem_of_singleton in Hg as ->. right. exists s. split; [by left|done].
        -- right. exists s'. split; [by right|done].
    + apply inv_launch; auto. apply Hrec1. by left.
    + cbn. by apply G3.
    + cbn. intros Hf. apply init_failed_snoc_launch in Hf. auto.
    + done.
    + intros s' Hs'. cbn. rewrite lookup_alter_ne; [apply Hrec1; by right|].
      intros Heq'. apply Hnotin. rewrite Heq'. by apply list_elem_of_fmap_2.
Qed.

(** ** The outcomes of [StartAll] and the run records *)

Lemma CallInit_init_calls x ss nm r :
  CallInit nm r ∈ init_calls x ss -> nm ∈ name <$> ss.
Proof.
  intros Hin. apply elem_of_init_calls in Hin as (s' & Hs' & Heq).
  inversion Heq; subst. by apply list_elem_of_fmap_2.
Qed.

Lemma is_Some_add_recs ss (m : gmap string runContext) nm :
  is_Some (add_recs ss m !! nm) <-> nm ∈ name <$> ss \/ is_Some (m !! nm).
Proof.
  revert m. induction ss as [|s rest IH]; intros m; cbn [add_recs].
  - split; [by right|]. intros [H|H]; [by apply elem_of_nil in H|done].
  - rewrite IH, fmap_cons, elem_of_cons, lookup_insert_is_Some.
    destruct (decide (name s = nm)) as [->|Hne]; [by intuition|].
    split.
    + intros [H|[H|[_ H]]]; [by left; right|congruence|by right].
    + intros [[H|H]|H]; [congruence|by left|right; right; done].
Qed.

(** What [StartAll] returns and leaves behind, by the outcome of the Init
    phase. *)
Lemma StartAll_sched_records steps ctx w r w' :
  inv w -> StartAll_sched steps ctx w = Ok r w' ->
  runCtx (cont w) = None
  /\ services (cont w') = services (cont w)
  /\ ((r = None
       /\ Forall (fun s => init_result (WithCancel ctx).1 s = None) (services (cont w))
       /\ (forall nm, rc_service <$> runContexts (cont w') !! nm
                      = rc_service <$> add_recs (services (cont w)) ∅ !! nm)
       /\ (forall nm r0, CallInit nm r0 ∈ history w'
                         <-> CallInit nm r0 ∈ init_calls (WithCancel ctx).1 (services (cont w)))
       /\ (ctx_done ctx = true -> cancelled (cont w') = true)
       /\ (forall g, g ∈ pool w' -> exists s, s ∈ services (cont w) /\ g = GoRun s))
      \/ (exists pre sk post e,
            services (cont w) = pre ++ sk :: post
            /\ Forall (fun s => init_result (WithCancel ctx).1 s = None) pre
            /\ init_result (WithCancel ctx).1 sk = Some e
            /\ r = Some (init_error sk e)
            /\ w' = mkWorld (mkContainer (Some (mkContext true)) (Some (WithCancel ctx).2)
                               (services (cont w)) (add_recs (pre ++ [sk]) ∅))
                      [GoSynthDone (name sk)]
                      (init_calls (WithCancel ctx).1 (pre ++ [sk])))).
Proof.
  intros Hinv Hs. destruct (runCtx (cont w)) as [x|] eqn:Hx.
  { by rewrite (StartAll_sched_started _ _ _ x) in Hs. }
  split; [done|].
  destruct (inv_unstarted w Hinv Hx) as (Hm & Hp & Hh).
  pose proof (inv_names w Hinv) as Hnd.
  destruct (init_split (WithCancel ctx).1 (services (cont w)))
    as [Hok|(pre & sk & post & e & Hss & Hpre & Hk)].
  - rewrite StartAll_sched_init_ok in Hs by done. rewrite Hp, Hh in Hs. cbn [app] in Hs.
    set (w0 := mkWorld (mkContainer (Some (WithCancel ctx).1) (Some (WithCancel ctx).2)
                          (services (cont w)) (add_recs (services (cont w)) ∅))
                 [] (init_calls (WithCancel ctx).1 (services (cont w)))) in *.
    assert (Hinv0 : inv w0) by (by apply inv_initialized).
    assert (Hnf : ~ init_failed (history w0)) by (by apply init_calls_not_failed).
    assert (Hrec : forall s, s ∈ services (cont w) ->
                     runContexts (cont w0) !! name s = Some (newRunContext s)).
    { intros s Hin. cbn. by apply lookup_add_recs_in. }
    destruct (run_loop_inv steps (services (cont w)) w0) as (w1 & Heq & _); [done..|].
    rewrite Heq in Hs. inversion Hs; subst r w1.
    destruct (run_loop_same_records steps (services (cont w)) w0 w')
      as ((A1 & A2 & A3) & B1 & B2); [done..|].
    split; [done|]. left. split; [done|]. split; [done|]. split; [exact A2|].
    split; [exact A3|]. split.
    + intros Hd. apply B1. unfold cancelled. cbn. done.
    + intros g Hg. apply B2 in Hg as [Hg|Hg]; [|done]. cbn in Hg.
      by apply elem_of_nil in Hg.
  - rewrite (StartAll_sched_fail steps ctx w pre sk post e) in Hs by done.
    inversion Hs; subst r w'. split; [done|]. right.
    exists pre, sk, post, e. rewrite Hp, Hh. by repeat split.
Qed.

(** ** The invariant of the run records *)

Lemma inv_records_init : inv_records init_world.
Proof.
  split.
  - exists 0. split; [cbn; lia|]. intros nm. cbn. rewrite lookup_empty. split.
    + by intros [? ?].
    + intros H. by apply elem_of_nil in H.
  - intros nm rc H. cbn in H. by rewrite lookup_empty in H.
  - intros nm r H. by apply elem_of_nil in H.
  - intros (nm & e & H). by apply elem_of_nil in H.
  - intros s H. by apply elem_of_nil in H.
Qed.

Lemma inv_records_frame w w' :
  inv_records w ->
  same_records w w' ->
  (cancelled (cont w) = true -> cancelled (cont w') = true) ->
  (forall g, g ∈ pool w' -> g ∈ pool w) ->
  inv_records w'.
Proof.
  intros [[k [Hk Hpre]] Hreg Hinit Hfail Hpool] (A1 & A2 & A3) Hc Hp.
  assert (Hsome : forall nm, is_Some (runContexts (cont w') !! nm)
                             <-> is_Some (runContexts (cont w) !! nm)).
  { intros nm. rewrite <- !(fmap_is_Some rc_service). by rewrite A2. }
  split.
  - exists k. split; [by rewrite A1|]. intros nm. by rewrite Hsome, A1.
  - intros nm rc H. rewrite A1.
    pose proof (A2 nm) as E. rewrite H in E. cbn in E.
    destruct (runContexts (cont w) !! nm) as [rc0|] eqn:H0; [|done].
    cbn in E. inversion E as [E']. rewrite E'. by eapply Hreg.
  - intros nm r H. apply Hsome. eapply Hinit. by apply A3.
  - intros (nm & e & H). apply Hc, Hfail. exists nm, e. by apply A3.
  - intros s H. rewrite A1. by apply Hpool, Hp.
Qed.

Lemma inv_records_cancel w :
  inv_records w ->
  inv_records (mkWorld (set_runCtx (match runCtx (cont w) with
                                    | Some _ => Some (mkContext true)
                                    | None => None
                                    end) (runCtxCancel (cont w)) (cont w))
                 (pool w) (history w)).
Proof.
  intros H. apply (inv_records_frame w); [done|by repeat split| |done].
  unfold cancelled. cbn. by destruct (runCtx (cont w)).
Qed.

Lemma inv_records_StartAll_sched steps ctx w r w' :
  inv w -> StartAll_sched steps ctx w = Ok r w' -> inv_records w'.
Proof.
  intros Hinv Hs.
  destruct (StartAll_sched_records steps ctx w r w' Hinv Hs)
    as (Hx & Hss & [(-> & Hok & A2 & A3 & _ & A5)
                   |(pre & sk & post & e & Hsplit & Hpre & Hk & -> & ->)]).
  - assert (Hsome : forall nm, is_Some (runContexts (cont w') !! nm)
                               <-> nm ∈ name <$> services (cont w)).
    { intros nm. rewrite <- (fmap_is_Some rc_service), A2, fmap_is_Some, is_Some_add_recs.
      rewrite lookup_empty. split; [|by left]. intros [?|[? ?]]; done. }
    split.
    + exists (length (services (cont w))). unfold started_prefix. rewrite Hss. split; [done|].
      intros nm. by rewrite firstn_all, Hsome.
    + intros nm rc H. rewrite Hss. pose proof (A2 nm) as E. rewrite H in E. cbn in E.
      destruct (add_recs (services (cont w)) ∅ !! nm) as [rc0|] eqn:H0; [|done].
      cbn in E. inversion E as [E']. rewrite E'.
      apply lookup_add_recs_inv in H0 as [(s & Hs' & _ & ->)|H0]; [done|].
      by rewrite lookup_empty in H0.
    + intros nm r H. apply Hsome. apply A3 in H. by eapply CallInit_init_calls.
    + intros (nm & e & H). apply A3 in H. by apply init_calls_ok in H.
    + intros s H. rewrite Hss. apply A5 in H as (s' & Hs' & [= ->]). done.
  - assert (Htake : take (length pre + 1) (pre ++ sk :: post) = pre ++ [sk]).
    { rewrite (cons_middle sk pre post), app_assoc.
      replace (length pre + 1) with (length (pre ++ [sk])) by (rewrite length_app; cbn; lia).
      by rewrite take_app_length. }
    split; cbn [cont pool history services runContexts].
    + exists (length pre + 1). unfold started_prefix.
      cbn [cont pool history services runContexts]. split.
      * rewrite Hsplit, length_app. cbn. lia.
      * intros nm. rewrite Hsplit, Htake, is_Some_add_recs, lookup_empty.
        split; [|by left]. intros [?|[? ?]]; done.
    + intros nm rc H. apply lookup_add_recs_inv in H as [(s & Hs' & _ & ->)|H].
      * cbn. rewrite Hsplit, (cons_middle sk pre post), app_assoc.
        apply elem_of_app. by left.
      * by rewrite lookup_empty in H.
    + intros nm r H. apply is_Some_add_recs. left. by eapply CallInit_init_calls.
    + done.
    + intros s H. by apply list_elem_of_singleton in H.
Qed.

Lemma step_inv_records ev w w' :
  inv w -> inv_records w -> step ev w = Some w' -> inv_records w'.
Proof.
  intros Hinv Hrec Hs. destruct ev as [svc|ctx steps| | |i].
  - unfold step, exec, bind, liftC, ret in Hs.
    destruct (decide (resolve_name svc ∈ name <$> services (cont w))) as [Hin|Hnotin].
    + by rewrite Register_dup in Hs.
    + rewrite Register_fresh in Hs by done. inversion Hs; subst w'.
      destruct Hrec as [[k [Hk Hpre]] Hreg Hinit Hfail Hpool].
      split; cbn [cont pool history services runContexts set_services].
      * exists k. unfold started_prefix.
        cbn [cont pool history services runContexts set_services].
        split; [rewrite length_app; lia|].
        intros nm. by rewrite take_app_le.
      * intros nm rc H. apply elem_of_app. left. by eapply Hreg.
      * done.
      * done.
      * intros s H. apply elem_of_app. left. by apply Hpool.
  - unfold step, exec in Hs.
    destruct (StartAll_sched steps ctx w) as [r w1|] eqn:Hr; [|done].
    inversion Hs; subst w'. by eapply inv_records_StartAll_sched.
  - unfold step, exec, bind, liftC, ret in Hs.
    destruct (runCtxCancel (cont w)) as [f|] eqn:Hf.
    + rewrite (StopAll_started _ f) in Hs by done. inversion Hs; subst w'.
      by apply inv_records_cancel.
    + by rewrite StopAll_unstarted in Hs.
  - unfold step, exec in Hs. inversion Hs; subst w'. unfold on_cont.
    rewrite parent_cancel_eq. by apply inv_records_cancel.
  - apply step_go in Hs.
    destruct (go_step_cases w i _ Hinv Hs) as (g & w1 & _ & [= <-] & _ & Hp & ? & ?).
    apply (inv_records_frame w); [done|by eapply go_step_same_records|done|].
    intros g' Hg'. rewrite Hp in Hg'. by eapply list_elem_of_delete_inv.
Qed.

Lemma reachable_inv_records w : reachable w -> inv_records w.
Proof.
  induction 1 as [|ev w w' Hw IH Hs]; [apply inv_records_init|].
  eapply step_inv_records; [by apply reachable_inv|done..].
Qed.

(** Once [StartAll] has been called, the set of run records is fixed. *)
Lemma step_started_same_records ev w w' :
  inv w -> is_Some (runCtx (cont w)) -> step ev w = Some w' ->
  (forall nm, rc_service <$> runContexts (cont w') !! nm
              = rc_service <$> runContexts (cont w) !! nm)
  /\ (forall nm r, CallInit nm r ∈ history w' <-> CallInit nm r ∈ history w)
  /\ (forall s, s ∈ services (cont w) -> s ∈ services (cont w')).
Proof.
  intros Hinv [x Hx] Hs. destruct ev as [svc|ctx steps| | |i].
  - unfold step, exec, bind, liftC, ret in Hs.
    destruct (decide (resolve_name svc ∈ name <$> services (cont w))) as [Hin|Hnotin].
    + by rewrite Register_dup in Hs.
    + rewrite Register_fresh in Hs by done. inversion Hs; subst w'.
      split; [done|]. split; [done|]. intros s H. cbn. apply elem_of_app. by left.
  - unfold step, exec in Hs. by rewrite (StartAll_sched_started _ _ _ x) in Hs.
  - unfold step, exec, bind, liftC, ret in Hs.
    destruct (runCtxCancel (cont w)) as [f|] eqn:Hf.
    + rewrite (StopAll_started _ f) in Hs by done. by inversion Hs; subst w'.
    + by rewrite StopAll_unstarted in Hs.
  - unfold step, exec in Hs. inversion Hs; subst w'. unfold on_cont.
    rewrite parent_cancel_eq. done.
  - apply step_go in Hs.
    destruct (go_step_same_records w i w' Hinv Hs) as (A1 & A2 & A3).
    split; [done|]. split; [done|]. intros s H. by rewrite A1.
Qed.

Lemma run_started_same_records evs w w' :
  inv w -> is_Some (runCtx (cont w)) -> run evs w = Some w' ->
  (forall nm, rc_service <$> runContexts (cont w') !! nm
              = rc_service <$> runContexts (cont w) !! nm)
  /\ (forall nm r, CallInit nm r ∈ history w' <-> CallInit nm r ∈ history w)
  /\ (forall s, s ∈ services (cont w) -> s ∈ services (cont w')).
Proof.
  revert w. induction evs as [|ev rest IH]; intros w Hinv Hx Hr; simpl in Hr.
  - by inversion Hr; subst.
  - destruct (step ev w) as [w1|] eqn:Hs; [|done].
    destruct (step_started_same_records ev w w1 Hinv Hx Hs) as (A1 & A2 & A3).
    destruct (IH w1 (step_inv _ _ _ Hinv Hs) (step_keeps_started _ _ _ Hinv Hx Hs) Hr)
      as (B1 & B2 & B3).
    split; [|split].
    + intros nm. by rewrite B1, A1.
    + intros nm r. by rewrite B2, A2.
    + auto.
Qed.

(** ** Registration in sequence *)

Lemma step_Register_fresh svc w :
  resolve_name svc ∉ name <$> services (cont w) ->
  step (EvRegister svc) w
  = Some (mkWorld (set_services (services (cont w) ++ [info_of svc]) (cont w))
            (pool w) (history w)).
Proof.
  intros H. unfold step, exec, bind, liftC, ret. by rewrite Register_fresh.
Qed.

Lemma step_Register_dup svc w :
  resolve_name svc ∈ name <$> services (cont w) -> step (EvRegister svc) w = None.
Proof.
  intros H. unfold step, exec, bind, liftC, ret. by rewrite Register_dup.
Qed.

Lemma run_Registers_ok svcs w :
  NoDup (resolve_name <$> svcs) ->
  (forall svc, svc ∈ svcs -> resolve_name svc ∉ name <$> services (cont w)) ->
  run (EvRegister <$> svcs) w
  = Some (mkWorld (set_services (services (cont w) ++ (info_of <$> svcs)) (cont w))
            (pool w) (history w)).
Proof.
  revert w. induction svcs as [|svc rest IH]; intros w Hnd Hfresh.
  - cbn. rewrite app_nil_r. by destruct w as [[] ? ?].
  - rewrite fmap_cons in Hnd. apply NoDup_cons in Hnd as [Hnotin Hnd].
    rewrite fmap_cons. cbn [run].
    rewrite step_Register_fresh by (apply Hfresh; by left).
    rewrite IH; [|done|].
    + cbn. unfold set_services. cbn. by rewrite <- app_assoc.
    + intros svc' Hin. cbn. rewrite fmap_app, elem_of_app. intros [H|H].
      * by apply (Hfresh svc'); [right|].
      * cbn in H. apply list_elem_of_singleton in H. apply Hnotin. rewrite <- H.
        by apply list_elem_of_fmap_2.
Qed.

Lemma run_Registers_inv svcs w w' :
  run (EvRegister <$> svcs) w = Some w' ->
  NoDup (resolve_name <$> svcs)
  /\ forall svc, svc ∈ svcs -> resolve_name svc ∉ name <$> services (cont w).
Proof.
  revert w. induction svcs as [|svc rest IH]; intros w Hr.
  - split; [constructor|]. intros svc H. by apply elem_of_nil in H.
  - rewrite fmap_cons in Hr. cbn [run] in Hr.
    destruct (decide (resolve_name svc ∈ name <$> services (cont w))) as [Hin|Hnotin];
      [by rewrite step_Register_dup in Hr|].
    rewrite step_Register_fresh in Hr by done.
    apply IH in Hr as [Hnd Hfresh]. cbn in Hfresh. split.
    + rewrite fmap_cons. apply NoDup_cons. split; [|done].
      intros Hin. apply list_elem_of_fmap in Hin as (svc' & Heq & Hin).
      apply (Hfresh svc' Hin). rewrite fmap_app, elem_of_app. right.
      cbn. apply list_elem_of_singleton. by rewrite Heq.
    + intros svc' Hin. apply elem_of_cons in Hin as [->|Hin]; [done|].
      intros H. apply (Hfresh svc' Hin). rewrite fmap_app, elem_of_app. by left.
Qed.

(** X1: A sequence of registrations goes through exactly when the names
    the services resolve to are pairwise distinct and none of them is
    registered yet; the services are then appended to the registry in the
    order of the calls, and nothing else changes. *)
Theorem Register_sequence_in_order (svcs : list Runner) (w : World) :
  (is_Some (run (EvRegister <$> svcs) w)
   <-> NoDup (resolve_name <$> svcs)
       /\ forall svc, svc ∈ svcs -> resolve_name svc ∉ name <$> services (cont w))
  /\ (forall w',
        run (EvRegister <$> svcs) w = Some w' ->
        w' = mkWorld (set_services (services (cont w) ++ (info_of <$> svcs)) (cont w))
               (pool w) (history w)).
Proof.
  split.
  - split.
    + intros [w' H]. by eapply run_Registers_inv.
    + intros [Hnd Hfresh]. rewrite run_Registers_ok by done. by eexists.
  - intros w' H. destruct (run_Registers_inv _ _ _ H) as [Hnd Hfresh].
    rewrite run_Registers_ok in H by done. by inversion H.
Qed.

(** ** Registration after [StartAll] *)

Lemma effect_has_record w x :
  inv w -> inv_records w -> x ∈ history w ->
  is_Some (runContexts (cont w) !! effect_name x).
Proof.
  intros Hinv Hrec Hx. destruct x as [nm r|nm|nm r]; cbn.
  - by eapply recs_init.
  - destruct (inv_launched w Hinv nm Hx) as (_ & rc & Hl & _). by eexists.
  - destruct (inv_returned w Hinv nm r Hx) as (_ & rc & Hl & _). by eexists.
Qed.

Lemma goroutine_has_record w g :
  inv w -> g ∈ pool w -> is_Some (runContexts (cont w) !! go_name g).
Proof.
  intros Hinv Hg. destruct g as [nm|s]; cbn.
  - destruct (inv_pool_synth w Hinv nm Hg) as (_ & rc & Hl & _). by eexists.
  - destruct (inv_pool_run w Hinv s Hg) as (rc & Hl & _). by eexists.
Qed.

Lemma record_is_registered w nm :
  inv_records w -> is_Some (runContexts (cont w) !! nm) ->
  nm ∈ name <$> services (cont w).
Proof.
  intros Hrec H. destruct (recs_prefix w Hrec) as (k & Hk & Hpre).
  apply Hpre in H. rewrite fmap_take in H. by eapply subseteq_take.
Qed.

(** X2: [Register] has no guard on the lifecycle: a service registered
    after [StartAll] is accepted and added to the registry, but whatever
    happens later it never gets a run record, its [Init] and [Run] are
    never called, no goroutine is started for it, and a further
    [StartAll] only panics. *)
Theorem late_Register_never_started (w : World) (svc : Runner) :
  reachable w ->
  is_Some (runCtx (cont w)) ->
  resolve_name svc ∉ name <$> services (cont w) ->
  exists w1,
    step (EvRegister svc) w = Some w1
    /\ services (cont w1) = services (cont w) ++ [info_of svc]
    /\ forall evs w',
         run evs w1 = Some w' ->
         info_of svc ∈ services (cont w')
         /\ runContexts (cont w') !! resolve_name svc = None
         /\ (forall x, x ∈ history w' -> effect_name x <> resolve_name svc)
         /\ (forall g, g ∈ pool w' -> go_name g <> resolve_name svc)
         /\ (forall steps ctx,
               StartAll_sched steps ctx w'
               = Panic "Container.StartAll can only be called once" w').
Proof.
  intros Hw Hx Hfresh. eexists. split; [by apply step_Register_fresh|]. split; [done|].
  intros evs w' Hr.
  set (w1 := mkWorld (set_services (services (cont w) ++ [info_of svc]) (cont w))
               (pool w) (history w)) in *.
  assert (Hw1 : reachable w1).
  { eapply reachable_step; [exact Hw|]. by apply step_Register_fresh. }
  pose proof (reachable_inv w1 Hw1) as Hinv1.
  assert (Hx1 : is_Some (runCtx (cont w1))) by done.
  pose proof (run_reachable evs w1 w' Hw1 Hr) as Hw'.
  pose proof (reachable_inv w' Hw') as Hinv'.
  pose proof (reachable_inv_records w' Hw') as Hrec'.
  destruct (run_started_same_records evs w1 w' Hinv1 Hx1 Hr) as (A1 & A2 & A3).
  assert (Hnone : runContexts (cont w') !! resolve_name svc = None).
  { destruct (runContexts (cont w') !! resolve_name svc) as [rc|] eqn:E; [|done].
    exfalso. apply Hfresh.
    apply (record_is_registered w); [by apply reachable_inv_records|].
    pose proof (A1 (resolve_name svc)) as E'. rewrite E in E'. cbn in E'.
    destruct (runContexts (cont w) !! resolve_name svc); [done|]. done. }
  split; [|split; [done|split; [|split]]].
  - apply A3. cbn. apply elem_of_app. right. by left.
  - intros x Hin Heq. destruct (effect_has_record w' x Hinv' Hrec' Hin) as [rc Hl].
    rewrite Heq in Hl. congruence.
  - intros g Hin Heq. destruct (goroutine_has_record w' g Hinv' Hin) as [rc Hl].
    rewrite Heq in Hl. congruence.
  - intros steps ctx.
    destruct (run_keeps_started evs w1 w' Hinv1 Hx1 Hr) as [x' Hx'].
    by apply (StartAll_sched_started _ _ _ x').
Qed.

(** ** [ServiceNames] *)

Lemma foldl_snoc_fmap {A B} (f : A -> B) (l : list A) (acc : list B) :
  foldl (fun acc x => acc ++ [f x]) acc l = acc ++ (f <$> l).
Proof.
  revert acc. induction l as [|a l IH]; intros acc; cbn.
  - by rewrite app_nil_r.
  - rewrite IH. by rewrite <- app_assoc.
Qed.

Lemma ServiceNames_over_fmap kvs :
  ServiceNames_over kvs = (fun kv => name (rc_service kv.2)) <$> kvs.
Proof. unfold ServiceNames_over. by rewrite (foldl_snoc_fmap (fun kv : string * runContext => name (rc_service kv.2))). Qed.

Lemma ServiceNames_over_keys w kvs :
  inv w -> range_of (cont w) kvs ->
  ServiceNames_over kvs ≡ₚ (map_to_list (runContexts (cont w))).*1.
Proof.
  intros Hinv Hr. rewrite ServiceNames_over_fmap. unfold range_of in Hr. rewrite Hr.
  assert (E : (fun kv : string * runContext => name (rc_service kv.2))
                <$> map_to_list (runContexts (cont w))
              = (map_to_list (runContexts (cont w))).*1); [|by rewrite E].
  apply Forall_fmap_ext, Forall_forall. intros [nm rc] Hin.
  apply elem_of_map_to_list in Hin. cbn. by eapply inv_rec_name.
Qed.

Lemma elem_of_keys (m : gmap string runContext) nm :
  nm ∈ (map_to_list m).*1 <-> is_Some (m !! nm).
Proof.
  split.
  - intros Hin. apply list_elem_of_fmap in Hin as ([k rc] & -> & Hin).
    apply elem_of_map_to_list in Hin. by eexists.
  - intros [rc H]. apply elem_of_map_to_list in H.
    by apply (list_elem_of_fmap_2 fst) in H.
Qed.

Lemma NoDup_names_take k ss :
  NoDup (name <$> ss) -> NoDup (name <$> take k ss).
Proof.
  intros H. rewrite fmap_take. eapply sublist_NoDup; [done|apply sublist_take].
Qed.

Lemma ServiceNames_prefix w kvs k :
  inv w -> started_prefix k w -> range_of (cont w) kvs ->
  ServiceNames_over kvs ≡ₚ name <$> take k (services (cont w)).
Proof.
  intros Hinv [Hk Hpre] Hr. rewrite (ServiceNames_over_keys w) by done.
  apply NoDup_Permutation.
  - apply NoDup_fst_map_to_list.
  - apply NoDup_names_take, Hinv.
  - intros nm. by rewrite elem_of_keys, Hpre.
Qed.

(** X3: In every reachable state, and for every order in which the map
    is ranged over, [ServiceNames] lists each name once; the names are
    those of the run records, which are the first [k] registered services
    for some [k]; before [StartAll] the list is empty. *)
Theorem ServiceNames_started_prefix (w : World) (kvs : list (string * runContext)) :
  reachable w ->
  range_of (cont w) kvs ->
  NoDup (ServiceNames_over kvs)
  /\ (forall nm, nm ∈ ServiceNames_over kvs <-> is_Some (runContexts (cont w) !! nm))
  /\ (exists k, k <= length (services (cont w))
                /\ ServiceNames_over kvs ≡ₚ name <$> take k (services (cont w)))
  /\ (runCtx (cont w) = None -> ServiceNames_over kvs = []).
Proof.
  intros Hw Hr. pose proof (reachable_inv w Hw) as Hinv.
  pose proof (ServiceNames_over_keys w kvs Hinv Hr) as Hkeys.
  split; [|split; [|split]].
  - rewrite Hkeys. apply NoDup_fst_map_to_list.
  - intros nm. by rewrite Hkeys, elem_of_keys.
  - destruct (recs_prefix w (reachable_inv_records w Hw)) as (k & Hk).
    exists k. split; [apply Hk|]. by apply (ServiceNames_prefix w).
  - intros Hx. destruct (inv_unstarted w Hinv Hx) as (Hm & _).
    apply Permutation_nil_r. rewrite Hkeys, Hm. by rewrite map_to_list_empty.
Qed.

(** X4: After [StartAll] has returned [nil], [ServiceNames] is a
    permutation of the names of all the services registered at the call;
    after it has returned the error of a failed [Init], of the names of
    the services up to and including the one that failed.  Later events
    do not change the list, up to its order. *)
Theorem ServiceNames_after_StartAll (w : World) (steps : list (list nat)) (ctx : Context)
    (r : option error) (w' : World) :
  reachable w ->
  StartAll_sched steps ctx w = Ok r w' ->
  (forall kvs,
     range_of (cont w') kvs ->
     match r with
     | None => ServiceNames_over kvs ≡ₚ name <$> services (cont w)
     | Some err =>
         exists pre sk post e,
           services (cont w) = pre ++ sk :: post
           /\ err = init_error sk e
           /\ ServiceNames_over kvs ≡ₚ name <$> (pre ++ [sk])
     end)
  /\ (forall evs w'' kvs kvs'',
        run evs w' = Some w'' ->
        range_of (cont w') kvs -> range_of (cont w'') kvs'' ->
        ServiceNames_over kvs'' ≡ₚ ServiceNames_over kvs).
Proof.
  intros Hw Hs. pose proof (reachable_inv w Hw) as Hinv.
  pose proof (inv_StartAll_sched steps ctx w r w' Hinv Hs) as Hinv'.
  split.
  - intros kvs Hr.
    destruct (StartAll_sched_records steps ctx w r w' Hinv Hs)
      as (Hx & Hss & [(-> & Hok & A2 & A3 & _ & A5)
                     |(pre & sk & post & e & Hsplit & Hpre & Hk & -> & ->)]).
    + rewrite (ServiceNames_over_keys w') by done. apply NoDup_Permutation.
      * apply NoDup_fst_map_to_list.
      * apply Hinv.
      * intros nm. rewrite elem_of_keys, <- (fmap_is_Some rc_service), A2, fmap_is_Some.
        rewrite is_Some_add_recs, lookup_empty. split; [|by left]. intros [?|[? ?]]; done.
    + exists pre, sk, post, e. split; [done|]. split; [done|].
      rewrite (ServiceNames_over_keys _ kvs Hinv' Hr). cbn. apply NoDup_Permutation.
      * apply NoDup_fst_map_to_list.
      * pose proof (inv_names w Hinv) as Hnd. rewrite Hsplit in Hnd.
        rewrite (cons_middle sk pre post), app_assoc, fmap_app in Hnd.
        by apply NoDup_app in Hnd as (Hnd & _).
      * intros nm. rewrite elem_of_keys, is_Some_add_recs, lookup_empty.
        split; [|by left]. intros [?|[? ?]]; done.
  - intros evs w'' kvs kvs'' Hr Hk Hk''.
    assert (Hx' : is_Some (runCtx (cont w'))).
    { destruct (StartAll_sched_cases steps ctx w Hinv)
        as [(w1 & Heq & _ & H & _)|[(sk & e & w1 & _ & _ & Heq & _ & H)|[_ Heq]]];
        rewrite Heq in Hs; by inversion Hs; subst. }
    destruct (run_started_same_records evs w' w'' Hinv' Hx' Hr) as (A1 & _ & _).
    rewrite (ServiceNames_over_keys w'' kvs'') by (by eapply run_inv || done).
    rewrite (ServiceNames_over_keys w' kvs) by done.
    apply NoDup_Permutation; [apply NoDup_fst_map_to_list..|].
    intros nm. rewrite !elem_of_keys, <- !(fmap_is_Some rc_service). by rewrite A1.
Qed.

(** ** [runningServices] and [RunningCount] *)

Lemma foldl_running_filter (l : list (string * runContext)) (acc : list runContext) :
  foldl (fun rcs kv => if running kv.2 then rcs ++ [kv.2] else rcs) acc l
  = acc ++ filter (fun rc => running rc = true) l.*2.
Proof.
  revert acc. induction l as [|[nm rc] l IH]; intros acc; cbn [foldl].
  - by rewrite app_nil_r.
  - rewrite IH. rewrite fmap_cons. cbn [snd]. destruct (running rc) eqn:Hr.
    + rewrite filter_cons_True by done. by rewrite <- app_assoc.
    + rewrite filter_cons_False by congruence. done.
Qed.

Lemma runningServices_over_filter kvs :
  runningServices_over kvs = filter (fun rc => running rc = true) kvs.*2.
Proof. unfold runningServices_over. by rewrite foldl_running_filter. Qed.

Lemma RunningCount_length c :
  RunningCount c
  = length (filter (fun kv : string * runContext => running kv.2 = true)
              (map_to_list (runContexts c))).
Proof.
  unfold RunningCount. rewrite map_fold_foldr.
  induction (map_to_list (runContexts c)) as [|[nm rc] l IH]; [done|].
  cbn [foldr uncurry]. rewrite IH. cbn [snd]. destruct (running rc) eqn:Hr.
  - by rewrite filter_cons_True by done.
  - by rewrite filter_cons_False by (cbn; congruence).
Qed.

Lemma length_filter_snd (l : list (string * runContext)) :
  length (filter (fun rc => running rc = true) l.*2)
  = length (filter (fun kv : string * runContext => running kv.2 = true) l).
Proof.
  induction l as [|[nm rc] l IH]; [done|]. rewrite fmap_cons. cbn [snd].
  destruct (running rc) eqn:Hr.
  - rewrite !filter_cons_True by done. cbn. by rewrite IH.
  - rewrite !filter_cons_False by (cbn; congruence). done.
Qed.

(** X5: For every order in which the map is ranged over,
    [runningServices] returns exactly the run records whose [running] flag
    is set, and [RunningCount] is the length of that slice. *)
Theorem runningServices_RunningCount (c : Container) (kvs : list (string * runContext)) :
  range_of c kvs ->
  length (runningServices_over kvs) = RunningCount c
  /\ (forall rc,
        rc ∈ runningServices_over kvs
        <-> running rc = true /\ exists nm, runContexts c !! nm = Some rc).
Proof.
  intros Hr. unfold range_of in Hr. rewrite runningServices_over_filter. split.
  - rewrite RunningCount_length, length_filter_snd. by rewrite Hr.
  - intros rc. rewrite list_elem_of_filter, Hr. split.
    + intros [Hrun Hin]. split; [done|].
      apply list_elem_of_fmap in Hin as ([nm rc'] & -> & Hin).
      apply elem_of_map_to_list in Hin. by exists nm.
    + intros [Hrun (nm & Hl)]. split; [done|].
      apply elem_of_map_to_list in Hl. by apply (list_elem_of_fmap_2 snd) in Hl.
Qed.

(** ** [RunningCount] and the goroutines of the units *)





(** ** Panics *)

(** X7: In a reachable state a call of the API panics only at one of its
    three guards, and then it has changed nothing: [Register] on a name
    that is registered, [StartAll] after [StartAll], [StopAll] and
    [WaitAllStoppedTimeout] before [StartAll].  The goroutines of the
    container never panic: no channel is closed twice, nothing is sent on
    a closed channel, and the [StopAll] of a failed unit finds the cancel
    function set. *)
Theorem panics_only_at_guards (w : World) :
  reachable w ->
  (forall ev msg w',
     exec ev w = Some (Panic msg w') ->
     w' = w
     /\ match ev with
        | EvRegister svc =>
            msg = "Service '" +:+ resolve_name svc +:+ "' already registered"
            /\ resolve_name svc ∈ name <$> services (cont w)
        | EvStartAll _ _ =>
            msg = "Container.StartAll can only be called once"
            /\ is_Some (runCtx (cont w))
        | EvStopAll =>
            msg = "call Container.StartAll() before StopAll()"
            /\ runCtx (cont w) = None
        | EvParentCancel => False
        | EvGo _ => False
        end)
  /\ (forall d sched msg w',
        WaitAllStoppedTimeout d sched w = Panic msg w' ->
        w' = w
        /\ msg = "call Container.StartAll() before WaitAllStopped()"
        /\ runCtx (cont w) = None).
Proof.
  intros Hw. pose proof (reachable_inv w Hw) as Hinv. split.
  - intros ev msg w' He. destruct ev as [svc|ctx steps| | |i]; cbn [exec] in He.
    + unfold bind, liftC, ret in He.
      destruct (decide (resolve_name svc ∈ name <$> services (cont w))) as [Hin|Hnotin].
      * rewrite Register_dup in He by done. inversion He; subst msg w'.
        split; [by destruct w|done].
      * by rewrite Register_fresh in He.
    + destruct (StartAll_sched_cases steps ctx w Hinv)
        as [(w1 & Heq & _)|[(sk & e & w1 & _ & _ & Heq & _)|[Hx Heq]]];
        rewrite Heq in He; [done|done|]. by inversion He; subst msg w'.
    + unfold bind, liftC, ret in He.
      destruct (runCtxCancel (cont w)) as [f|] eqn:Hf.
      * by rewrite (StopAll_started _ f) in He.
      * rewrite StopAll_unstarted in He by done. inversion He; subst msg w'.
        split; [by destruct w|]. split; [done|]. by apply (inv_cancel w Hinv).
    + done.
    + destruct (go_step i w) as [r|] eqn:Hg; [|done].
      destruct (go_step_inv w i r Hinv Hg) as (w1 & -> & _). done.
  - intros d sched msg w' He. unfold WaitAllStoppedTimeout in He.
    destruct (runCtxCancel (cont w)) as [f|] eqn:Hf.
    + by destruct (wait_loop sched 0 (wait_start d (cont w)) w).
    + inversion He; subst msg w'. split; [done|]. split; [done|]. by apply (inv_cancel w Hinv).
Qed.

(** ** Errors and failures are final *)

(** X8: An entry of [ServiceErrors] is never removed or replaced: what
    the map holds in a reachable state it holds after any further
    events. *)
Theorem ServiceErrors_stable (w : World) (evs : list event) (w' : World) :
  reachable w ->
  run evs w = Some w' ->
  ServiceErrors (cont w) ⊆ ServiceErrors (cont w').
Proof.
  intros Hw Hr. pose proof (reachable_inv w Hw) as Hinv.
  pose proof (run_inv evs w w' Hinv Hr) as Hinv'.
  apply map_subseteq_spec. intros nm e He.
  apply (ServiceErrors_spec w nm e Hinv) in He as (rc & Hl & Herr).
  pose proof (inv_err w Hinv nm rc e Hl Herr) as Hret.
  apply (proj2 (run_mono evs w w' Hinv Hr)) in Hret.
  destruct (inv_returned w' Hinv' nm (Some e) Hret) as (_ & rc' & Hl' & _ & Herr' & _).
  apply (ServiceErrors_spec w' nm e Hinv'). by exists rc'.
Qed.

Lemma init_failed_mono evs w w' :
  inv w -> run evs w = Some w' -> init_failed (history w) -> init_failed (history w').
Proof.
  intros Hinv Hr (nm & e & H). exists nm, e. by apply (proj2 (run_mono evs w w' Hinv Hr)).
Qed.

(** X9: A failed [Init] is final.  In a reachable state whose history
    holds a failed [Init] the cancellation signal is triggered, and
    whatever happens later no [Run] is ever launched, no unit is in the
    pool and [RunningCount] is zero. *)
Theorem init_failure_is_final (w : World) :
  reachable w ->
  init_failed (history w) ->
  cancelled (cont w) = true
  /\ forall evs w',
       run evs w = Some w' ->
       init_failed (history w')
       /\ cancelled (cont w') = true
       /\ (forall nm, LaunchRun nm ∉ history w')
       /\ (forall nm r, RunReturned nm r ∉ history w')
       /\ (forall g, g ∈ pool w' -> is_unit g = false)
       /\ RunningCount (cont w') = 0.
Proof.
  intros Hw Hf. pose proof (reachable_inv w Hw) as Hinv.
  split; [by apply (recs_failed w (reachable_inv_records w Hw))|].
  intros evs w' Hr.
  pose proof (run_reachable evs w w' Hw Hr) as Hw'.
  pose proof (reachable_inv w' Hw') as Hinv'.
  pose proof (init_failed_mono evs w w' Hinv Hr Hf) as Hf'.
  assert (Hno : forall nm, LaunchRun nm ∉ history w').
  { intros nm H. by destruct (inv_launched w' Hinv' nm H) as (Hn & _). }
  assert (Hunit : forall s, GoRun s ∉ pool w').
  { intros s H. destruct (inv_pool_run w' Hinv' s H) as (rc & Hl & Hrun & _).
    destruct (inv_running w' Hinv' (name s) rc Hl Hrun) as (Hla & _). by apply Hno in Hla. }
  split; [done|]. split; [by apply (recs_failed w' (reachable_inv_records w' Hw'))|].
  split; [done|]. split; [|split].
  - intros nm r H. destruct (inv_returned w' Hinv' nm r H) as (Hla & _). by apply Hno in Hla.
  - intros g Hg. destruct g as [nm|s]; [done|]. by apply Hunit in Hg.
  - by apply pool_empty_RunningCount.
Qed.

(** ** [StopAll] *)

(** X10: Once [StartAll] has been called, [StopAll] returns at once and
    does one thing, it triggers the cancellation signal: the run records,
    the goroutines and [RunningCount] are as before, a second call
    changes nothing, and cancelling the context passed to [StartAll]
    leads to the same state.  Nothing resets the signal: it stays
    triggered under all later events. *)
Theorem StopAll_only_cancels (w : World) :
  reachable w ->
  is_Some (runCtx (cont w)) ->
  exists w1,
    liftC StopAll w = Ok tt w1
    /\ cancelled (cont w1) = true
    /\ services (cont w1) = services (cont w)
    /\ runContexts (cont w1) = runContexts (cont w)
    /\ pool w1 = pool w
    /\ history w1 = history w
    /\ RunningCount (cont w1) = RunningCount (cont w)
    /\ liftC StopAll w1 = Ok tt w1
    /\ exec EvParentCancel w = Some (Ok None w1)
    /\ (forall evs w', run evs w1 = Some w' -> cancelled (cont w') = true).
Proof.
  intros Hw [x Hx]. pose proof (reachable_inv w Hw) as Hinv.
  destruct (runCtxCancel (cont w)) as [f|] eqn:Hf;
    [|apply (inv_cancel w Hinv) in Hf; congruence].
  exists (mkWorld (set_runCtx (Some (mkContext true)) (Some f) (cont w)) (pool w) (history w)).
  split.
  { unfold liftC. rewrite (StopAll_started _ f) by done. by rewrite Hx, Hf. }
  split; [done|]. split; [done|]. split; [done|]. split; [done|]. split; [done|].
  split; [done|]. split; [|split].
  - unfold liftC. by rewrite (StopAll_started _ f) by done.
  - cbn [exec]. unfold on_cont. rewrite parent_cancel_eq. by rewrite Hx, Hf.
  - intros evs w' Hr.
    assert (Hinv1 : inv (mkWorld (set_runCtx (Some (mkContext true)) (Some f) (cont w))
                           (pool w) (history w))).
    { apply (step_inv EvStopAll w); [done|].
      unfold step, exec, bind, liftC, ret. rewrite (StopAll_started _ f) by done.
      by rewrite Hx, Hf. }
    by apply (proj1 (run_mono evs _ w' Hinv1 Hr)).
Qed.

(** ** A negative timeout *)

(** X11: [WaitAllStoppedTimeout] with a negative timeout does not wait
    at all: the test [timeout != 0] sends it to [context.WithTimeout],
    whose deadline has passed, so the call returns at once, whatever is
    still running. *)
Theorem WaitAllStoppedTimeout_negative (w : World) (d : Z) (sched : list wait_event) :
  is_Some (runCtxCancel (cont w)) ->
  (d < 0)%Z ->
  WaitAllStoppedTimeout d sched w = Ok (WaitReturned 0 0) w.
Proof.
  intros [f Hf] Hd. unfold WaitAllStoppedTimeout. rewrite Hf.
  assert (Hdone : local_done (wait_start d (cont w)) = true).
  { unfold local_done, wait_start. cbn.
    destruct (Z.eqb_spec d 0) as [->|_]; [lia|]. cbn. by apply Z.leb_le; lia. }
  destruct sched as [|ev rest]; cbn [wait_loop]; by rewrite Hdone.
Qed.

(** ** [StartAll] on a context that is done *)

(** X12: [StartAll] does not look at the state of the context it is
    given.  When the context is already done and no [Init] fails, every
    [Init] is still called and every [Run] is still launched, [StartAll]
    returns [nil], and the signal is triggered from the start: services
    that honour the contract of [Runner] return as soon as they are
    scheduled. *)
Theorem StartAll_done_context (w : World) (steps : list (list nat)) (ctx : Context) :
  reachable w ->
  runCtx (cont w) = None ->
  ctx_done ctx = true ->
  Forall (fun s => init_result ctx s = None) (services (cont w)) ->
  exists w1,
    StartAll_sched steps ctx w = Ok None w1
    /\ cancelled (cont w1) = true
    /\ (forall x, x ∈ init_calls ctx (services (cont w)) -> x ∈ history w1)
    /\ (forall s, s ∈ services (cont w) -> LaunchRun (name s) ∈ history w1)
    /\ ((forall s, s ∈ services (cont w) -> cooperative s) ->
        exists w2,
          run (repeat (EvGo 0) (length (pool w1))) w1 = Some w2
          /\ pool w2 = [] /\ RunningCount (cont w2) = 0).
Proof.
  intros Hw Hx Hd Hok. pose proof (reachable_inv w Hw) as Hinv.
  assert (Hctx : (WithCancel ctx).1 = ctx).
  { destruct ctx as [b]. cbn in *. by subst b. }
  destruct (StartAll_sched_cases steps ctx w Hinv)
    as [(w1 & Heq & Hinv1 & Hx1 & _ & _ & Hla & Hic)
       |[(sk & e & w1 & Hin & Hk & _)|[[x' Hx'] _]]].
  - exists w1. split; [done|].
    destruct (StartAll_sched_records steps ctx w None w1 Hinv Heq)
      as (_ & Hss & [(_ & _ & _ & _ & Hc & Hp)|(pre & sk & post & e & _ & _ & _ & ? & _)]);
      [|done].
    split; [by apply Hc|]. split; [by rewrite <- Hctx|]. split; [done|].
    intros Hcoop.
    destruct (run_drain (length (pool w1)) w1) as (w2 & Hr & Hp2 & Hinv2);
      [done|by apply Hc|done| |].
    + intros s Hs. destruct (Hp _ Hs) as (s' & Hs' & [= ->]). by apply Hcoop.
    + exists w2. split; [done|]. split; [done|].
      apply pool_empty_RunningCount; [done|]. intros s. rewrite Hp2. apply not_elem_of_nil.
  - rewrite Hctx in Hk. rewrite Forall_forall in Hok. rewrite (Hok sk Hin) in Hk. done.
  - congruence.
Qed.

(** ** Stopping and waiting *)

Lemma run_run_skip evs w w' : run evs w = Some w' -> run_skip evs w = w'.
Proof.
  revert w. induction evs as [|ev rest IH]; intros w Hr; cbn in Hr.
  - by inversion Hr.
  - destruct (step ev w) as [w1|] eqn:Hs; [|done].
    unfold run_skip. cbn [foldl]. unfold step_or_skip at 2. rewrite Hs. by apply IH.
Qed.

Lemma wait_loop_world_prefix evs rest n st w :
  local_done st = false ->
  wait_loop ((WWorld <$> evs) ++ rest) n st w
  = wait_loop rest (n + length evs) st (run_skip evs w).
Proof.
  intros Hd. revert n w. induction evs as [|ev evs IH]; intros n w.
  - cbn. by rewrite Nat.add_0_r.
  - rewrite fmap_cons. cbn [app wait_loop]. rewrite Hd. cbn [wait_step].
    rewrite IH. cbn [length]. by replace (S n + length evs) with (n + S (length evs)) by lia.
Qed.

(** X13: The way out: after [StartAll], when all registered services
    honour the contract of [Runner], [StopAll] followed by
    [WaitAllStopped] comes to an end.  Under the schedule in which the
    goroutines of the pool run one after the other and then the waiters
    and the joining goroutine, [WaitAllStopped] returns without any time
    having passed, the pool is empty, [RunningCount] is zero and the
    [done] channel of every launched service is closed. *)
Theorem StopAll_WaitAllStopped_shutdown (w : World) :
  reachable w ->
  is_Some (runCtx (cont w)) ->
  (forall s, s ∈ services (cont w) -> cooperative s) ->
  exists w1 w2,
    liftC StopAll w = Ok tt w1
    /\ run (repeat (EvGo 0) (length (pool w))) w1 = Some w2
    /\ WaitAllStopped
         ((WWorld <$> repeat (EvGo 0) (length (pool w)))
            ++ repeat (WWaiter 0) (size (runContexts (cont w))) ++ [WJoin]) w1
       = Ok (WaitReturned 0 (length (pool w) + size (runContexts (cont w)) + 1)) w2
    /\ pool w2 = []
    /\ RunningCount (cont w2) = 0
    /\ (forall nm,
          LaunchRun nm ∈ history w2 ->
          exists rc, runContexts (cont w2) !! nm = Some rc
                     /\ running rc = false /\ chan_closed (done rc) = true).
Proof.
  intros Hw [x Hx] Hcoop. pose proof (reachable_inv w Hw) as Hinv.
  destruct (runCtxCancel (cont w)) as [f|] eqn:Hf;
    [|apply (inv_cancel w Hinv) in Hf; congruence].
  set (w1 := mkWorld (set_runCtx (Some (mkContext true)) (Some f) (cont w))
               (pool w) (history w)).
  assert (Hstop : liftC StopAll w = Ok tt w1).
  { unfold liftC. rewrite (StopAll_started _ f) by done. by rewrite Hx, Hf. }
  assert (Hw1 : reachable w1).
  { apply (reachable_step EvStopAll w w1 Hw).
    unfold step, exec, bind, ret. by rewrite Hstop. }
  pose proof (reachable_inv w1 Hw1) as Hinv1.
  destruct (run_drain (length (pool w)) w1) as (w2 & Hr & Hp2 & Hinv2); [done..| |].
  { intros s Hs. apply Hcoop.
    by apply (recs_pool w (reachable_inv_records w Hw)). }
  assert (Hzero : RunningCount (cont w2) = 0).
  { apply pool_empty_RunningCount; [done|]. intros s. rewrite Hp2. apply not_elem_of_nil. }
  exists w1, w2. split; [done|]. split; [done|]. split; [|split; [done|split; [done|]]].
  - unfold WaitAllStopped, WaitAllStoppedTimeout. cbn [w1 cont runCtxCancel set_runCtx].
    rewrite wait_loop_world_prefix by done.
    rewrite (run_run_skip _ _ _ Hr), repeat_length.
    assert (Hlen : length (map_to_list (runContexts (cont w))).*1 = size (runContexts (cont w))).
    { by rewrite length_fmap, length_map_to_list. }
    unfold wait_start. cbn [runContexts set_runCtx]. rewrite <- Hlen.
    rewrite wait_loop_all_stopped; [done|].
    intros nm rc _ Hl. by apply (proj1 (RunningCount_zero (cont w2)) Hzero nm rc).
  - intros nm Hla. destruct (inv_launched w2 Hinv2 nm Hla) as (_ & rc & Hl & _ & Hor).
    exists rc. split; [done|].
    pose proof (proj1 (RunningCount_zero (cont w2)) Hzero nm rc Hl) as Hrun.
    split; [done|]. destruct Hor as [Hor|Hor]; [congruence|done].
Qed.

(** ** Services made of functions *)

Lemma Register_cases svc c :
  Register svc c
  = if decide (resolve_name svc ∈ name <$> services c)
    then Panic ("Service '" +:+ resolve_name svc +:+ "' already registered") c
    else Ok tt (set_services (services c ++ [info_of svc]) c).
Proof.
  case_decide as H; [by apply Register_dup|by apply Register_fresh].
Qed.

(** X14: A service made by [WithFunc], [WithRunFunc] or [FuncService]
    is registered under the name of its run function; the init function
    plays no part in it.  So once [WithFunc(initFn, runFn)] is
    registered, a service made of a function by any of the three panics
    in [Register] exactly when its run function has the name of [runFn]
    or of a service registered before. *)
Theorem function_services_named_after_run (c c1 : Container)
    (initFn initFn' : option InitFunc) (runFn runFn' : Func RunFunc) :
  Register (WithFunc initFn runFn) c = Ok tt c1 ->
  services c1 = services c ++ [mkServiceInfo (func_name runFn) (WithFunc initFn runFn)]
  /\ forall svc,
       svc = WithFunc initFn' runFn' \/ svc = WithRunFunc runFn'
       \/ svc = FuncService_Runner runFn' ->
       (func_name runFn' = func_name runFn \/ func_name runFn' ∈ name <$> services c ->
        Register svc c1
        = Panic ("Service '" +:+ func_name runFn' +:+ "' already registered") c1)
       /\ (func_name runFn' <> func_name runFn -> func_name runFn' ∉ name <$> services c ->
           Register svc c1
           = Ok tt (set_services (services c1 ++ [mkServiceInfo (func_name runFn') svc]) c1)).
Proof.
  intros Hr. rewrite Register_cases in Hr. case_decide as Hin; [done|].
  inversion Hr; subst c1. cbn [services set_services]. split; [done|].
  intros svc Hsvc.
  assert (Hnm : resolve_name svc = func_name runFn').
  { by destruct Hsvc as [->|[->| ->]]. }
  assert (Hnames : name <$> services c ++ [info_of (WithFunc initFn runFn)]
                   = (name <$> services c) ++ [func_name runFn]).
  { by rewrite fmap_app. }
  split.
  - intros Hor. rewrite Register_cases, Hnm. cbn [services set_services].
    case_decide as Hin'; [done|]. exfalso. apply Hin'. rewrite Hnames, elem_of_app.
    destruct Hor as [->|Hor]; [right; by left|by left].
  - intros Hne Hnotin. rewrite Register_cases, Hnm. cbn [services set_services].
    case_decide as Hin'.
    + exfalso. rewrite Hnames, elem_of_app in Hin'. destruct Hin' as [Hin'|Hin']; [done|].
      by apply list_elem_of_singleton in Hin'.
    + unfold info_of. by rewrite Hnm.
Qed.

Lemma elem_of_init_calls_initer x ss nm r :
  CallInit nm r ∈ init_calls x ss ->
  exists s f, s ∈ ss /\ name s = nm /\ initer (service s) = Some f /\ r = f x.
Proof.
  induction ss as [|s rest IH]; cbn [init_calls]; intros Hin.
  - by apply elem_of_nil in Hin.
  - destruct (initer (service s)) as [f|] eqn:Hf.
    + apply elem_of_cons in Hin as [Heq|Hin].
      * inversion Heq; subst. exists s, f. split; [by left|done].
      * destruct (IH Hin) as (s' & f' & Hs' & ?). exists s', f'. split; [by right|done].
    + destruct (IH Hin) as (s' & f' & Hs' & ?). exists s', f'. split; [by right|done].
Qed.

Lemma init_calls_initer x ss s f :
  s ∈ ss -> initer (service s) = Some f -> CallInit (name s) (f x) ∈ init_calls x ss.
Proof.
  induction ss as [|s' rest IH]; cbn [init_calls]; intros Hin Hf.
  - by apply elem_of_nil in Hin.
  - apply elem_of_cons in Hin as [<-|Hin].
    + rewrite Hf. by left.
    + destruct (initer (service s')); [right|]; by apply IH.
Qed.

(** X15: [genericService.Init] answers [nil] for a nil init function,
    and [FuncService] has no [Init].  A container that holds only
    services made by [WithRunFunc], by [WithFunc] with a nil init
    function, or by [FuncService] therefore starts under every schedule:
    [StartAll] returns [nil] and every [Run] is launched.  [Init] is
    still called, with result [nil], for the first two kinds, and is
    never called for a [FuncService]. *)
Theorem function_services_without_init_start (w : World) (steps : list (list nat))
    (ctx : Context) :
  reachable w ->
  runCtx (cont w) = None ->
  (forall s, s ∈ services (cont w) ->
             exists f, service s = WithRunFunc f \/ service s = WithFunc None f
                       \/ service s = FuncService_Runner f) ->
  exists w1,
    StartAll_sched steps ctx w = Ok None w1
    /\ (forall s, s ∈ services (cont w) -> LaunchRun (name s) ∈ history w1)
    /\ (forall nm e, CallInit nm (Some e) ∉ history w1)
    /\ (forall s f, s ∈ services (cont w) ->
                    service s = WithRunFunc f \/ service s = WithFunc None f ->
                    CallInit (name s) None ∈ history w1)
    /\ (forall s f r, s ∈ services (cont w) ->
                      service s = FuncService_Runner f ->
                      CallInit (name s) r ∉ history w1).
Proof.
  intros Hw Hx Hall. pose proof (reachable_inv w Hw) as Hinv.
  assert (Hok : Forall (fun s => init_result (WithCancel ctx).1 s = None) (services (cont w))).
  { apply Forall_forall. intros s Hs. unfold init_result.
    destruct (Hall s Hs) as (f & [->|[->| ->]]); done. }
  destruct (StartAll_sched_cases steps ctx w Hinv)
    as [(w1 & Heq & Hinv1 & Hx1 & _ & _ & Hla & Hic)
       |[(sk & e & w1 & Hin & Hk & _)|[[x' Hx'] _]]].
  - exists w1. split; [done|]. split; [done|].
    destruct (StartAll_sched_records steps ctx w None w1 Hinv Heq)
      as (_ & Hss & [(_ & _ & _ & A3 & _)|(pre & sk & post & e & _ & _ & _ & ? & _)]);
      [|done].
    split; [|split].
    + intros nm e H. apply A3 in H. by apply init_calls_ok in H.
    + intros s f Hs Hsvc. apply Hic.
      assert (Hi : exists g, initer (service s) = Some g /\ g (WithCancel ctx).1 = None).
      { destruct Hsvc as [->| ->]; by eexists. }
      destruct Hi as (g & Hg & Hres). rewrite <- Hres. by apply init_calls_initer.
    + intros s f r Hs Hsvc H. apply A3 in H.
      apply elem_of_init_calls_initer in H as (s' & g & Hs' & Hnm & Hg & _).
      assert (s' = s) as ->.
      { pose proof (inv_names w Hinv) as Hnd.
        apply list_elem_of_lookup in Hs as [i Hi]. apply list_elem_of_lookup in Hs' as [j Hj].
        destruct (decide (i = j)) as [->|Hne]; [congruence|].
        exfalso. by apply (NoDup_fmap_lookup_ne name (services (cont w)) j i s' s Hnd). }
      rewrite Hsvc in Hg. done.
  - rewrite Forall_forall in Hok. rewrite (Hok sk Hin) in Hk. done.
  - congruence.
Qed.

(** ** The builder *)

(** X16: A builder registers its service under the name given to
    [New], whatever [Init] and [Run] were set to and in whatever order:
    on a new name the registry gains the service with the funcs set last,
    on a registered name [Register] panics. *)
Theorem Builder_Register_by_name (nm : string) (f f0 : InitFunc) (g g0 : RunFunc)
    (c : Container) :
  let b := Builder.Run g (Builder.Init f (Builder.Run g0 (Builder.Init f0 (New nm)))) in
  let svc := startRunner_Runner (startRunner.mk nm f g) in
  Builder.Init f (Builder.Run g (New nm)) = b
  /\ resolve_name svc = nm
  /\ init_result Background (mkServiceInfo nm svc) = f Background
  /\ (nm ∉ name <$> services c ->
      Builder.Register b c
      = Ok tt (set_services (services c ++ [mkServiceInfo nm svc]) c))
  /\ (nm ∈ name <$> services c ->
      Builder.Register b c = Panic ("Service '" +:+ nm +:+ "' already registered") c).
Proof.
  cbn zeta. split; [done|]. split; [done|]. split; [done|].
  unfold Builder.Register. cbn [Builder.name Builder.init Builder.run Builder.Run Builder.Init New].
  split; intros H.
  - by rewrite Register_fresh.
  - by rewrite Register_dup.
Qed.

(** X17: The funcs [New] starts from both return [nil], and the run
    func does so without waiting for the context.  The [Init] of a
    service built by [New(name)] alone therefore never fails, and
    whenever its unit is in the pool it can take its step: the record
    becomes terminal without an error, and the cancellation signal is as
    it was. *)
Theorem New_defaults_return_nil (w : World) (i : nat) (s : serviceInfo) (nm : string) :
  reachable w ->
  pool w !! i = Some (GoRun s) ->
  service s = startRunner_Runner
                (startRunner.mk nm (Builder.init (New nm)) (Builder.run (New nm))) ->
  (forall ctx, init_result ctx s = None)
  /\ exists rc w',
       runContexts (cont w) !! name s = Some rc
       /\ step (EvGo i) w = Some w'
       /\ runContexts (cont w') !! name s
          = Some (mkRunContext (rc_service rc) false (mkChan 1 [] true) None)
       /\ cancelled (cont w') = cancelled (cont w)
       /\ pool w' = delete i (pool w)
       /\ ServiceErrors (cont w') !! name s = None.
Proof.
  intros Hw Hi Hsvc. pose proof (reachable_inv w Hw) as Hinv. split.
  { intros ctx. unfold init_result. by rewrite Hsvc. }
  assert (Hrun : Run (service s) (runCtx_of (cont w)) = Some None) by (by rewrite Hsvc).
  destruct (go_run_step w i s None Hinv Hi Hrun) as (rc & Hl & Hrn & Hd & He & Hx & Hs).
  exists rc. eexists. split; [done|]. split; [by apply step_go|].
  assert (Hinv' : inv (mkWorld (after_run (name s) rc None (cont w)) (delete i (pool w))
                         (history w ++ [RunReturned (name s) None]))).
  { by apply inv_after_run. }
  cbn [cont pool after_run runContexts]. rewrite lookup_insert_eq, Hd. cbn.
  split; [done|]. split; [done|]. split; [done|].
  destruct (ServiceErrors _ !! name s) as [e|] eqn:E; [|done].
  apply (ServiceErrors_spec _ (name s) e Hinv') in E as (rc' & Hl' & He').
  cbn in Hl'. rewrite lookup_insert_eq in Hl'. inversion Hl'; subst rc'. done.
Qed.

(** X18: [RegisterDefault] registers in the container [Default()]
    returns: after one builder has been registered there, a builder of
    the same name panics in [RegisterDefault], whatever its funcs are,
    and leaves the process as it was. *)
Theorem Builder_RegisterDefault_duplicate (p p1 : Process) (b b' : Builder.t) :
  Builder.RegisterDefault b p = Ok tt p1 ->
  Builder.name b' = Builder.name b ->
  Builder.RegisterDefault b' p1
  = Panic ("Service '" +:+ Builder.name b +:+ "' already registered") p1
  /\ exists ptr c,
       Default p1 = Ok ptr p1
       /\ heap p1 !! ptr = Some c
       /\ Builder.name b ∈ name <$> services c.
Proof.
  intros Hr Hnm. unfold Builder.RegisterDefault in *.
  set (svc := startRunner_Runner
                (startRunner.mk (Builder.name b) (Builder.init b) (Builder.run b))) in *.
  set (svc' := startRunner_Runner
                 (startRunner.mk (Builder.name b') (Builder.init b') (Builder.run b'))).
  assert (Hres' : resolve_name svc' = Builder.name b) by (cbn; done).
  assert (Hdef : exists ptr p0, Default p = Ok ptr p0 /\ defaultContainer p0 = Some ptr).
  { destruct (defaultContainer p) as [q|] eqn:Hq.
    - exists q, p. split; [by apply Default_set|done].
    - eexists _, _. split; [by apply Default_unset|done]. }
  destruct Hdef as (ptr & p0 & Hd & Hptr).
  rewrite (RegisterDefault_via p ptr p0 svc Hd) in Hr. unfold at_ptr in Hr.
  destruct (heap p0 !! ptr) as [c0|] eqn:Hl; [|done].
  rewrite Register_cases in Hr. case_decide as Hin; [done|]. inversion Hr; subst p1.
  assert (Hd1 : Default (mkProcess (<[ptr := set_services (services c0 ++ [info_of svc]) c0]>
                                      (heap p0)) (defaultContainer p0))
                = Ok ptr (mkProcess (<[ptr := set_services (services c0 ++ [info_of svc]) c0]>
                                       (heap p0)) (defaultContainer p0))).
  { by apply Default_set. }
  assert (Hl1 : <[ptr := set_services (services c0 ++ [info_of svc]) c0]> (heap p0) !! ptr
                = Some (set_services (services c0 ++ [info_of svc]) c0)).
  { apply list_lookup_insert_eq. by eapply lookup_lt_Some. }
  assert (Hin1 : Builder.name b
                 ∈ name <$> services (set_services (services c0 ++ [info_of svc]) c0)).
  { cbn. rewrite fmap_app, elem_of_app. right. by left. }
  split.
  - rewrite (RegisterDefault_via _ ptr _ svc' Hd1). unfold at_ptr. cbn [heap]. rewrite Hl1.
    rewrite Register_dup by (by rewrite Hres'). rewrite Hres'. cbn [heap defaultContainer].
    by rewrite list_insert_insert_eq.
  - by eexists _, _.
Qed.

(** ** The order of the calls into the services *)

Lemma inv_history_eq w w' : history w' = history w -> inv_history w -> inv_history w'.
Proof. intros E [H1 H2 H3]. split; rewrite E; done. Qed.

Lemma inv_history_snoc w w' x :
  inv_history w ->
  history w' = history w ++ [x] ->
  effect_key x ∉ effect_key <$> history w ->
  effect_kind x <> 0 ->
  (forall nm r, x = LaunchRun nm -> RunReturned nm r ∉ history w) ->
  inv_history w'.
Proof.
  intros [H1 H2 H3] E Hfresh Hkind Hret. split; rewrite E.
  - rewrite fmap_app. apply NoDup_app. split; [done|]. split.
    + intros k Hk Hk'. cbn in Hk'. apply list_elem_of_singleton in Hk'. by subst k.
    + cbn. apply NoDup_singleton.
  - intros i j nm r nm' Hi Hj.
    apply lookup_snoc_Some in Hi as [[Hi Hi']|[_ Hi']]; [|by subst x].
    apply lookup_snoc_Some in Hj as [[Hj Hj']|[Hj _]]; [by eapply H2|lia].
  - intros i j nm r Hi Hj.
    apply lookup_snoc_Some in Hj as [[Hj Hj']|[Hj Hj']].
    + apply lookup_snoc_Some in Hi as [[Hi Hi']|[Hi Hi']]; [by eapply H3|].
      exfalso. apply (Hret nm r); [done|]. by eapply list_elem_of_lookup_2.
    + apply lookup_snoc_Some in Hi as [[Hi Hi']|[Hi Hi']]; [lia|]. subst x. done.
Qed.

Lemma key_in_history (h : list effect) (k : nat) (nm : string) :
  (k, nm) ∈ effect_key <$> h -> exists x, x ∈ h /\ effect_kind x = k /\ effect_name x = nm.
Proof.
  intros Hin. apply list_elem_of_fmap in Hin as (x & Heq & Hx).
  inversion Heq. by exists x.
Qed.

Lemma go_step_inv_history w i w' :
  inv w -> inv_history w -> go_step i w = Some (Ok tt w') -> inv_history w'.
Proof.
  intros Hinv Hh Hs. destruct (pool w !! i) as [g|] eqn:Hi; [|by rewrite go_step_none in Hs].
  assert (Hg : g ∈ pool w) by (by eapply list_elem_of_lookup_2).
  destruct (inv_pool_started w g Hinv Hg) as (x & f & Hx & Hf).
  destruct g as [nm0|s].
  - destruct (inv_pool_synth w Hinv nm0 Hg) as (Hfail & rc0 & Hl & Hr & Hd & He).
    rewrite (go_step_synth i nm0 w rc0) in Hs by done. inversion Hs; subst w'.
    by apply (inv_history_eq w).
  - destruct (inv_pool_run w Hinv s Hg) as (rc0 & Hl & Hr & Hd & He).
    destruct (Run (service s) (runCtx_of (cont w))) as [runErr|] eqn:Hrun.
    + rewrite (go_step_run i s runErr w rc0 f) in Hs; [|done..|by rewrite Hd|done].
      inversion Hs; subst w'.
      apply (inv_history_snoc w _ (RunReturned (name s) runErr)); [done|done| |done|done].
      intros Hin. apply key_in_history in Hin as (y & Hy & Hk & Hn).
      destruct y as [nm r|nm|nm r]; try done. cbn in Hn. subst nm.
      destruct (inv_returned w Hinv (name s) r Hy) as (_ & rc & Hl' & Hrun' & _).
      congruence.
    + by rewrite (go_step_run_blocked i s) in Hs.
Qed.

Lemma interleave_inv_history js w w' :
  inv w -> inv_history w -> interleave js w = Ok tt w' -> inv_history w'.
Proof.
  revert w. induction js as [|j rest IH]; intros w Hinv Hh Hs.
  - by inversion Hs; subst.
  - cbn [interleave] in Hs. unfold bind at 1, yield_to in Hs.
    destruct (go_step j w) as [r|] eqn:Hg.
    + destruct (go_step_inv w j r Hinv Hg) as (w1 & -> & Hinv1).
      apply (IH w1); [done| |done]. exact (go_step_inv_history w j w1 Hinv Hh Hg).
    + by apply (IH w).
Qed.

Lemma run_loop_inv_history steps ss w w' :
  inv w -> is_Some (runCtx (cont w)) -> ~ init_failed (history w) ->
  NoDup (name <$> ss) ->
  (forall s, s ∈ ss -> runContexts (cont w) !! name s = Some (newRunContext s)) ->
  inv_history w ->
  run_loop steps ss w = Ok None w' ->
  inv_history w'.
Proof.
  revert steps w. induction ss as [|s rest IH]; intros steps w Hinv Hx Hnf Hnd Hrec Hh Hs.
  - by inversion Hs; subst.
  - rewrite fmap_cons in Hnd. apply NoDup_cons in Hnd as [Hnotin Hnd].
    cbn [run_loop] in Hs. unfold bind at 1 in Hs.
    destruct (interleave_spec (hd [] steps) w Hinv) as (w1 & Heq & Hinv1 & G1 & G2 & G3 & G4).
    pose proof (interleave_inv_history _ _ _ Hinv Hh Heq) as Hh1.
    rewrite Heq in Hs.
    assert (Hrec1 : forall s', s' ∈ s :: rest ->
                      runContexts (cont w1) !! name s' = Some (newRunContext s')).
    { intros s' Hs'. apply G1; [done|by apply Hrec|done]. }
    assert (Hnew : forall nm, nm = name s -> LaunchRun nm ∉ history w1).
    { intros nm -> Hin. destruct (inv_launched w1 Hinv1 (name s) Hin) as (_ & rc & Hl & _ & Hor).
      rewrite (Hrec1 s) in Hl by (by left). inversion Hl; subst rc. by destruct Hor. }
    unfold bind at 1 in Hs.
    rewrite (runOne_ok s (newRunContext s)) in Hs; [|apply Hrec1; by left|done].
    apply IH in Hs; [done| | | |done| |].
    + apply inv_launch; auto. apply Hrec1. by left.
    + cbn. by apply G3.
    + cbn. intros Hf. apply init_failed_snoc_launch in Hf. auto.
    + intros s' Hs'. cbn. rewrite lookup_alter_ne; [apply Hrec1; by right|].
      intros Heq'. apply Hnotin. rewrite Heq'. by apply list_elem_of_fmap_2.
    + apply (inv_history_snoc w1 _ (LaunchRun (name s))); [done|done| |done|].
      * intros Hin. apply key_in_history in Hin as (y & Hy & Hk & Hn).
        destruct y as [nm r|nm|nm r]; try done. cbn in Hn. subst nm.
        by apply (Hnew (name s)).
      * intros nm r [= <-] Hin.
        destruct (inv_returned w1 Hinv1 (name s) r Hin) as (Hla & _).
        by apply (Hnew (name s)).
Qed.

Lemma NoDup_keys_init_calls x ss :
  NoDup (name <$> ss) -> NoDup (effect_key <$> init_calls x ss).
Proof.
  induction ss as [|s rest IH]; intros Hnd; [constructor|].
  rewrite fmap_cons in Hnd. apply NoDup_cons in Hnd as [Hnotin Hnd].
  cbn [init_calls]. destruct (initer (service s)) as [f|]; [|by apply IH].
  rewrite fmap_cons. apply NoDup_cons. split; [|by apply IH].
  intros Hin. apply key_in_history in Hin as (y & Hy & _ & Hn).
  apply elem_of_init_calls in Hy as (s' & Hs' & ->). cbn in Hn.
  apply Hnotin. rewrite <- Hn. by apply list_elem_of_fmap_2.
Qed.

Lemma inv_history_init_calls x ss w :
  NoDup (name <$> ss) -> history w = init_calls x ss -> inv_history w.
Proof.
  intros Hnd E. split; rewrite E.
  - by apply NoDup_keys_init_calls.
  - intros i j nm r nm' _ Hj. apply list_elem_of_lookup_2 in Hj.
    by apply launch_not_in_init_calls in Hj.
  - intros i j nm r Hi _. apply list_elem_of_lookup_2 in Hi.
    by apply launch_not_in_init_calls in Hi.
Qed.

Lemma StartAll_sched_inv_history steps ctx w r w' :
  inv w -> StartAll_sched steps ctx w = Ok r w' -> inv_history w'.
Proof.
  intros Hinv Hs. destruct (runCtx (cont w)) as [x|] eqn:Hx.
  { by rewrite (StartAll_sched_started _ _ _ x) in Hs. }
  destruct (inv_unstarted w Hinv Hx) as (Hm & Hp & Hh).
  pose proof (inv_names w Hinv) as Hnd.
  destruct (init_split (WithCancel ctx).1 (services (cont w)))
    as [Hok|(pre & sk & post & e & Hss & Hpre & Hk)].
  - rewrite StartAll_sched_init_ok in Hs by done. rewrite Hp, Hh in Hs. cbn [app] in Hs.
    set (w0 := mkWorld (mkContainer (Some (WithCancel ctx).1) (Some (WithCancel ctx).2)
                          (services (cont w)) (add_recs (services (cont w)) ∅))
                 [] (init_calls (WithCancel ctx).1 (services (cont w)))) in *.
    assert (Hinv0 : inv w0) by (by apply inv_initialized).
    assert (Hnf : ~ init_failed (history w0)) by (by apply init_calls_not_failed).
    assert (Hrec : forall s, s ∈ services (cont w) ->
                     runContexts (cont w0) !! name s = Some (newRunContext s)).
    { intros s Hin. cbn. by apply lookup_add_recs_in. }
    destruct (run_loop_inv steps (services (cont w)) w0) as (w1 & Heq & _); [done..|].
    rewrite Heq in Hs. inversion Hs; subst r w1.
    apply (run_loop_inv_history steps (services (cont w)) w0 w'); [done..| |done].
    by apply (inv_history_init_calls (WithCancel ctx).1 (services (cont w))).
  - rewrite (StartAll_sched_fail steps ctx w pre sk post e) in Hs by done.
    inversion Hs; subst r w'.
    apply (inv_history_init_calls (WithCancel ctx).1 (pre ++ [sk])).
    + rewrite Hss in Hnd. rewrite (cons_middle sk pre post), app_assoc, fmap_app in Hnd.
      by apply NoDup_app in Hnd as (Hnd & _).
    + cbn. by rewrite Hh.
Qed.

Lemma inv_history_init : inv_history init_world.
Proof.
  split; cbn.
  - constructor.
  - intros i j nm r nm' H. by rewrite lookup_nil in H.
  - intros i j nm r H. by rewrite lookup_nil in H.
Qed.

Lemma step_inv_history ev w w' :
  inv w -> inv_history w -> step ev w = Some w' -> inv_history w'.
Proof.
  intros Hinv Hh Hs. destruct ev as [svc|ctx steps| | |i].
  - unfold step, exec, bind, liftC, ret in Hs.
    destruct (decide (resolve_name svc ∈ name <$> services (cont w))) as [Hin|Hnotin].
    + by rewrite Register_dup in Hs.
    + rewrite Register_fresh in Hs by done. inversion Hs; subst w'.
      by apply (inv_history_eq w).
  - unfold step, exec in Hs.
    destruct (StartAll_sched steps ctx w) as [r w1|] eqn:Hr; [|done].
    inversion Hs; subst w'. by eapply StartAll_sched_inv_history.
  - unfold step, exec, bind, liftC, ret in Hs.
    destruct (runCtxCancel (cont w)) as [f|] eqn:Hf.
    + rewrite (StopAll_started _ f) in Hs by done. inversion Hs; subst w'.
      by apply (inv_history_eq w).
    + by rewrite StopAll_unstarted in Hs.
  - unfold step, exec in Hs. inversion Hs; subst w'. by apply (inv_history_eq w).
  - apply step_go in Hs. by eapply go_step_inv_history.
Qed.

Lemma reachable_inv_history w : reachable w -> inv_history w.
Proof.
  induction 1 as [|ev w w' Hw IH Hs]; [apply inv_history_init|].
  eapply step_inv_history; [by apply reachable_inv|done..].
Qed.

(** X19: In every reachable state, and so under every schedule of the
    goroutines: for each service [Init] has been called at most once,
    [Run] has been launched at most once and has returned at most once;
    every call of [Init] came before every launch of [Run]; and the
    return of a [Run] came after its launch. *)
Theorem calls_once_and_in_order (w : World) :
  reachable w ->
  NoDup (effect_key <$> history w)
  /\ (forall i j nm r nm',
        history w !! i = Some (CallInit nm r) ->
        history w !! j = Some (LaunchRun nm') -> i < j)
  /\ (forall j nm r,
        history w !! j = Some (RunReturned nm r) ->
        exists i, i < j /\ history w !! i = Some (LaunchRun nm)).
Proof.
  intros Hw. destruct (reachable_inv_history w Hw) as [H1 H2 H3].
  split; [done|]. split; [done|].
  intros j nm r Hj.
  destruct (inv_returned w (reachable_inv w Hw) nm r) as (Hla & _);
    [by eapply list_elem_of_lookup_2|].
  apply list_elem_of_lookup in Hla as [i Hi]. exists i. split; [by eapply H3|done].
Qed.


(** ** The theorems of this part on the services of the examples *)

Lemma testService_cooperative t : cooperative (info_of (testService_Runner t)).
Proof.
  intros ctx Hd. cbn. destruct (ErrorDuringRun t); [done|].
  rewrite Hd. by rewrite orb_true_r.
Qed.

Lemma late_Register_never_started_witness :
  exists w1,
    step (EvRegister ts4) (world_after (regs_returns ++ [EvStartAll Background []])) = Some w1
    /\ runContexts (cont w1) !! "testService.s4" = None
    /\ StartAll_sched [] Background w1
       = Panic "Container.StartAll can only be called once" w1.
Proof.
  destruct (late_Register_never_started
              (world_after (regs_returns ++ [EvStartAll Background []])) ts4)
    as (w1 & H1 & _ & H2).
  - after_is_reachable (regs_returns ++ [EvStartAll Background []]).
  - eexists. by_computation.
  - assert (Hs : name <$> services (cont (world_after (regs_returns ++ [EvStartAll Background []])))
                 = ["testService.s1"; "testService.s2"; "testService.s3"]) by by_computation.
    rewrite Hs. intros Hin. repeat (apply elem_of_cons in Hin as [Hin|Hin]; [done|]).
    by apply elem_of_nil in Hin.
  - destruct (H2 [] w1 eq_refl) as (_ & H3 & _ & _ & H4).
    exists w1. split; [assumption|]. split; [exact H3|apply H4].
Defined.

Lemma ServiceNames_started_prefix_witness :
  NoDup (ServiceNames (cont (world_after (regs_init_fails ++ [EvStartAll Background []]))))
  /\ "testService.s2"
     ∈ ServiceNames (cont (world_after (regs_init_fails ++ [EvStartAll Background []]))).
Proof.
  destruct (ServiceNames_started_prefix
              (world_after (regs_init_fails ++ [EvStartAll Background []]))
              (map_to_list (runContexts
                 (cont (world_after (regs_init_fails ++ [EvStartAll Background []]))))))
    as (H1 & H2 & _).
  - after_is_reachable (regs_init_fails ++ [EvStartAll Background []]).
  - unfold range_of. reflexivity.
  - split; [exact H1|]. apply (proj2 (H2 "testService.s2")). eexists. by_computation.
Defined.

Lemma ServiceNames_after_StartAll_witness :
  ServiceNames (cont (world_after (regs_returns ++ [EvStartAll Background []])))
  ≡ₚ name <$> services (cont (world_after regs_returns)).
Proof.
  destruct (ServiceNames_after_StartAll (world_after regs_returns) [] Background None
              (world_after (regs_returns ++ [EvStartAll Background []])))
    as (H1 & _).
  - after_is_reachable regs_returns.
  - by_computation.
  - apply (H1 (map_to_list (runContexts
                 (cont (world_after (regs_returns ++ [EvStartAll Background []])))))).
    unfold range_of. reflexivity.
Defined.

Lemma runningServices_RunningCount_witness :
  length (runningServices
            (cont (world_after (regs_returns ++ [EvStartAll Background []; EvGo 1]))))
  = RunningCount (cont (world_after (regs_returns ++ [EvStartAll Background []; EvGo 1])))
  /\ RunningCount (cont (world_after (regs_returns ++ [EvStartAll Background []; EvGo 1]))) = 2.
Proof.
  destruct (runningServices_RunningCount
              (cont (world_after (regs_returns ++ [EvStartAll Background []; EvGo 1])))
              (map_to_list (runContexts
                 (cont (world_after (regs_returns ++ [EvStartAll Background []; EvGo 1]))))))
    as (H1 & _).
  - unfold range_of. reflexivity.
  - split; [exact H1|by_computation].
Defined.


Lemma panics_only_at_guards_witness :
  exec EvStopAll (world_after regs_returns)
  = Some (Panic "call Container.StartAll() before StopAll()" (world_after regs_returns))
  /\ runCtx (cont (world_after regs_returns)) = None.
Proof.
  assert (He : exec EvStopAll (world_after regs_returns)
               = Some (Panic "call Container.StartAll() before StopAll()"
                         (world_after regs_returns))) by by_computation.
  destruct (panics_only_at_guards (world_after regs_returns)) as (H1 & _).
  - after_is_reachable regs_returns.
  - destruct (H1 EvStopAll _ _ He) as (_ & _ & H2). split; [exact He|exact H2].
Defined.

Lemma ServiceErrors_stable_witness :
  ServiceErrors
    (cont (world_after (regs_run_fails ++ [EvStartAll Background []; EvGo 1; EvGo 0; EvGo 0])))
  !! "testService.s2" = Some run_failure.
Proof.
  pose proof (ServiceErrors_stable
                (world_after (regs_run_fails ++ [EvStartAll Background []; EvGo 1]))
                [EvGo 0; EvGo 0]
                (world_after (regs_run_fails
                                ++ [EvStartAll Background []; EvGo 1; EvGo 0; EvGo 0]))) as H.
  eapply (proj1 (map_subseteq_spec _ _)).
  - apply H.
    + after_is_reachable (regs_run_fails ++ [EvStartAll Background []; EvGo 1]).
    + by_computation.
  - by_computation.
Defined.

Lemma init_failure_is_final_witness :
  cancelled (cont (world_after (regs_init_fails ++ [EvStartAll Background []]))) = true
  /\ RunningCount
       (cont (world_after (regs_init_fails ++ [EvStartAll Background []; EvGo 0]))) = 0.
Proof.
  destruct (init_failure_is_final
              (world_after (regs_init_fails ++ [EvStartAll Background []]))) as (H1 & H2).
  - after_is_reachable (regs_init_fails ++ [EvStartAll Background []]).
  - exists "testService.s2", init_failure.
    assert (Hh : history (world_after (regs_init_fails ++ [EvStartAll Background []]))
                 = [CallInit "testService.s1" None;
                    CallInit "testService.s2" (Some init_failure)]) by by_computation.
    rewrite Hh. right. by left.
  - split; [exact H1|].
    destruct (H2 [EvGo 0]
                (world_after (regs_init_fails ++ [EvStartAll Background []; EvGo 0])))
      as (_ & _ & _ & _ & _ & H3); [by_computation|exact H3].
Defined.

Lemma StopAll_only_cancels_witness :
  exists w1,
    liftC StopAll (world_after (regs_returns ++ [EvStartAll Background []])) = Ok tt w1
    /\ cancelled (cont w1) = true
    /\ RunningCount (cont w1) = 3.
Proof.
  destruct (StopAll_only_cancels (world_after (regs_returns ++ [EvStartAll Background []])))
    as (w1 & H1 & H2 & _ & _ & _ & _ & H3 & _).
  - after_is_reachable (regs_returns ++ [EvStartAll Background []]).
  - eexists. by_computation.
  - exists w1. split; [exact H1|]. split; [exact H2|]. rewrite H3. by_computation.
Defined.

Lemma WaitAllStoppedTimeout_negative_witness :
  WaitAllStoppedTimeout (-1) [WTick]
    (world_after (regs_returns ++ [EvStartAll Background []]))
  = Ok (WaitReturned 0 0) (world_after (regs_returns ++ [EvStartAll Background []])).
Proof.
  apply WaitAllStoppedTimeout_negative.
  - eexists. by_computation.
  - lia.
Defined.

Lemma StartAll_done_context_witness :
  exists w1,
    StartAll_sched [] (mkContext true) (world_after regs_returns) = Ok None w1
    /\ cancelled (cont w1) = true.
Proof.
  destruct (StartAll_done_context (world_after regs_returns) [] (mkContext true))
    as (w1 & H1 & H2 & _).
  - after_is_reachable regs_returns.
  - by_computation.
  - reflexivity.
  - assert (Hs : services (cont (world_after regs_returns))
                 = [info_of ts1; info_of ts2_returns; info_of ts3]) by by_computation.
    rewrite Hs. repeat constructor.
  - exists w1. split; assumption.
Defined.

Lemma StopAll_WaitAllStopped_shutdown_witness :
  exists w1 w2 n,
    liftC StopAll (world_after (regs_returns ++ [EvStartAll Background []])) = Ok tt w1
    /\ WaitAllStopped
         ((WWorld <$> repeat (EvGo 0) 3) ++ repeat (WWaiter 0) 3 ++ [WJoin]) w1
       = Ok (WaitReturned 0 n) w2
    /\ RunningCount (cont w2) = 0.
Proof.
  destruct (StopAll_WaitAllStopped_shutdown
              (world_after (regs_returns ++ [EvStartAll Background []])))
    as (w1 & w2 & H1 & _ & H2 & _ & H3 & _).
  - after_is_reachable (regs_returns ++ [EvStartAll Background []]).
  - eexists. by_computation.
  - assert (Hs : services (cont (world_after (regs_returns ++ [EvStartAll Background []])))
                 = [info_of ts1; info_of ts2_returns; info_of ts3]) by by_computation.
    rewrite Hs. intros s Hin.
    repeat (apply elem_of_cons in Hin as [->|Hin]; [apply testService_cooperative|]).
    by apply elem_of_nil in Hin.
  - assert (Hp : length (pool (world_after (regs_returns ++ [EvStartAll Background []]))) = 3)
      by by_computation.
    assert (Hz : size (runContexts
                         (cont (world_after (regs_returns ++ [EvStartAll Background []])))) = 3)
      by by_computation.
    rewrite Hp, Hz in H2. exists w1, w2. eexists. split; [exact H1|]. split; [exact H2|exact H3].
Defined.

Lemma function_services_named_after_run_witness :
  Register (WithRunFunc serve) (state_of (Register (WithFunc None serve) NewContainer))
  = Panic "Service 'main.serve' already registered"
      (state_of (Register (WithFunc None serve) NewContainer))
  /\ is_panic (Register (FuncService_Runner poll)
                 (state_of (Register (WithFunc None serve) NewContainer))) = false.
Proof.
  destruct (function_services_named_after_run NewContainer
              (state_of (Register (WithFunc None serve) NewContainer)) None None serve serve)
    as (_ & H1); [by_computation|].
  destruct (function_services_named_after_run NewContainer
              (state_of (Register (WithFunc None serve) NewContainer)) None None serve poll)
    as (_ & H2); [by_computation|].
  split.
  - apply (H1 (WithRunFunc serve)); [right; by left|by left].
  - destruct (H2 (FuncService_Runner poll)) as (_ & H3); [right; by right|].
    rewrite H3; [reflexivity|done|]. cbn. apply not_elem_of_nil.
Defined.

Lemma function_services_without_init_start_witness :
  exists w1,
    StartAll_sched [] Background (world_after regs_functions) = Ok None w1
    /\ CallInit "main.serve" None ∈ history w1
    /\ LaunchRun "main.poll" ∈ history w1.
Proof.
  assert (Hs : services (cont (world_after regs_functions))
               = [info_of (WithRunFunc serve); info_of (FuncService_Runner poll)])
    by by_computation.
  destruct (function_services_without_init_start (world_after regs_functions) [] Background)
    as (w1 & H1 & H2 & _ & H3 & _).
  - after_is_reachable regs_functions.
  - by_computation.
  - rewrite Hs. intros s Hin. apply elem_of_cons in Hin as [->|Hin].
    { exists serve. by left. }
    apply list_elem_of_singleton in Hin as ->. exists poll. right. by right.
  - exists w1. split; [exact H1|]. split.
    + apply (H3 (info_of (WithRunFunc serve)) serve); [rewrite Hs; by left|by left].
    + apply (H2 (info_of (FuncService_Runner poll))). rewrite Hs. right. by left.
Defined.

Lemma New_defaults_return_nil_witness :
  exists rc w',
    runContexts (cont (world_after (regs_job ++ [EvStartAll Background []]))) !! "job" = Some rc
    /\ step (EvGo 1) (world_after (regs_job ++ [EvStartAll Background []])) = Some w'
    /\ cancelled (cont w') = false.
Proof.
  destruct (New_defaults_return_nil
              (world_after (regs_job ++ [EvStartAll Background []])) 1 (info_of job) "job")
    as (_ & rc & w' & H1 & H2 & _ & H3 & _).
  - after_is_reachable (regs_job ++ [EvStartAll Background []]).
  - by_computation.
  - reflexivity.
  - exists rc, w'. split; [exact H1|]. split; [exact H2|]. rewrite H3. by_computation.
Defined.

Lemma Builder_RegisterDefault_duplicate_witness :
  Builder.RegisterDefault (Builder.Init (fun _ => Some init_failure) (New "srv1"))
    (state_of (Builder.RegisterDefault (New "srv1") init_process))
  = Panic "Service 'srv1' already registered"
      (state_of (Builder.RegisterDefault (New "srv1") init_process)).
Proof.
  destruct (Builder_RegisterDefault_duplicate init_process
              (state_of (Builder.RegisterDefault (New "srv1") init_process))
              (New "srv1") (Builder.Init (fun _ => Some init_failure) (New "srv1")))
    as (H1 & _).
  - by_computation.
  - reflexivity.
  - exact H1.
Defined.

Lemma calls_once_and_in_order_witness :
  NoDup (effect_key <$> history (world_after (regs_run_fails
                                                ++ [EvStartAll Background [[]; []; [1]]])))
  /\ exists i, i < 5
                /\ history (world_after (regs_run_fails ++ [EvStartAll Background [[]; []; [1]]]))
                   !! i = Some (LaunchRun "testService.s2").
Proof.
  destruct (calls_once_and_in_order
              (world_after (regs_run_fails ++ [EvStartAll Background [[]; []; [1]]])))
    as (H1 & _ & H2).
  - after_is_reachable (regs_run_fails ++ [EvStartAll Background [[]; []; [1]]]).
  - split; [exact H1|].
    apply (H2 5 "testService.s2" (Some run_failure)). by_computation.
Defined.


(** * Proofs for the earlier revision *)

Import V1.

Ltac vunfold :=
  unfold bind, get, modify, ret, panic, liftC, go, emit, on_runner, on_cont in *.

(** ** Lists updated in place *)

Lemma v1_elem_of_insert_inv {A} (l : list A) i x y :
  y ∈ <[i := x]> l -> y = x \/ y ∈ l.
Proof.
  intros H. apply list_elem_of_lookup in H as [j Hj].
  apply list_lookup_insert_Some in Hj as [(_ & -> & _)|(_ & Hj)]; [by left|].
  right. by eapply list_elem_of_lookup_2.
Qed.

Lemma v1_elem_of_insert_keep {A} (l : list A) i x y g :
  l !! i = Some g -> y ∈ l -> y <> g -> y ∈ <[i := x]> l.
Proof.
  intros Hi Hy Hne. apply list_elem_of_lookup in Hy as [j Hj].
  apply list_elem_of_lookup. exists j. rewrite list_lookup_insert_ne; [done|].
  intros ->. congruence.
Qed.

Lemma v1_NoDup_fmap_elem_eq {A B} (f : A -> B) (l : list A) x y :
  NoDup (f <$> l) -> x ∈ l -> y ∈ l -> f x = f y -> x = y.
Proof.
  induction l as [|a l IH]; intros Hnd Hx Hy Heq; [by apply elem_of_nil in Hx|].
  rewrite fmap_cons in Hnd. apply NoDup_cons in Hnd as [Hnotin Hnd].
  apply elem_of_cons in Hx as [->|Hx]; apply elem_of_cons in Hy as [->|Hy].
  - done.
  - exfalso. apply Hnotin. rewrite Heq. by apply list_elem_of_fmap_2.
  - exfalso. apply Hnotin. rewrite <- Heq. by apply list_elem_of_fmap_2.
  - by apply IH.
Qed.

(** ** [startOne] *)

Lemma v1_startOne_ok ctx s w :
  runContexts (cont w) !! name s = None ->
  init_result ctx s = None ->
  startOne ctx s w
  = Ok None
      (mkWorld (set_runContexts
                  (<[name s := set_running true (newRunContext s)]> (runContexts (cont w)))
                  (cont w))
         (pool w ++ [GoRun s]) (parked w) (history w ++ start_calls ctx s)).
Proof.
  intros Hl Hr. unfold startOne, start_calls, init_result in *. vunfold. rewrite Hl. cbn.
  destruct (initer (service s)) as [f|]; cbn.
  - rewrite Hr. cbn. rewrite alter_insert_eq. by rewrite <- app_assoc.
  - by rewrite alter_insert_eq.
Qed.

Lemma v1_startOne_fail ctx s e w :
  runContexts (cont w) !! name s = None ->
  init_result ctx s = Some e ->
  startOne ctx s w
  = Ok (Some (init_error s e))
      (mkWorld (set_runContexts (<[name s := newRunContext s]> (runContexts (cont w)))
                  (cont w))
         (pool w ++ [GoSynthDone (name s)]) (parked w)
         (history w ++ [CallInit (name s) (Some e)])).
Proof.
  intros Hl Hr. unfold startOne, init_result in *. vunfold. rewrite Hl. cbn.
  destruct (initer (service s)) as [f|]; cbn; [|done]. by rewrite Hr.
Qed.

Lemma v1_start_calls_launch ctx s : LaunchRun (name s) ∈ start_calls ctx s.
Proof.
  unfold start_calls. destruct (initer (service s)); [right|]; by left.
Qed.

Lemma v1_start_calls_name ctx s x : x ∈ start_calls ctx s -> effect_name x = name s.
Proof.
  unfold start_calls. destruct (initer (service s)); intros H.
  - apply elem_of_cons in H as [->|H]; [done|]. by apply list_elem_of_singleton in H as ->.
  - by apply list_elem_of_singleton in H as ->.
Qed.

Lemma v1_start_calls_is_start ctx s : filter is_start (start_calls ctx s) = start_calls ctx s.
Proof. unfold start_calls. by destruct (initer (service s)). Qed.

(** ** The invariant *)

Lemma v1_inv_init : inv init_world.
Proof.
  split; cbn.
  - constructor.
  - done.
  - done.
  - intros nm rc H. by rewrite lookup_empty in H.
  - constructor.
  - intros g s H. by apply elem_of_nil in H.
  - intros nm H. by apply elem_of_nil in H.
  - intros nm rc H. by rewrite lookup_empty in H.
  - intros nm H. by apply elem_of_nil in H.
  - intros s v H. by apply elem_of_nil in H.
  - intros nm rc e H. by rewrite lookup_empty in H.
  - intros nm H. by apply elem_of_nil in H.
  - intros nm v H. by apply elem_of_nil in H.
  - intros nm rc H. by rewrite lookup_empty in H.
Qed.

(** Every goroutine of the pool belongs to a run record. *)
Lemma v1_pool_has_record w g :
  inv w -> g ∈ pool w -> is_Some (runContexts (cont w) !! go_name g).
Proof.
  intros Hinv Hg. destruct g as [nm|s|s v]; cbn.
  - by apply (inv_pool_synth w Hinv nm).
  - destruct (inv_pool_unit w Hinv (GoRun s) s Hg eq_refl) as (rc & Hl & _). by exists rc.
  - destruct (inv_pool_unit w Hinv (GoSend s v) s Hg eq_refl) as (rc & Hl & _). by exists rc.
Qed.

Lemma v1_inv_container_frame w c :
  inv w ->
  NoDup (name <$> services c) ->
  (runCtx c = None <-> runCtxCancel c = None) ->
  (runCtx c = None -> runCtx (cont w) = None) ->
  (forall s, s ∈ services (cont w) -> s ∈ services c) ->
  runContexts c = runContexts (cont w) ->
  inv (mkWorld c (pool w) (parked w) (history w)).
Proof.
  intros [I1 I2 I3 I4 I5 I6 I7 I8 I9 I10 I11 I12 I13 I14] Hnd Hc Hx Hss Hm.
  split; cbn; rewrite ?Hm; auto.
  intros nm rc Hl. destruct (I4 nm rc Hl). split; auto.
Qed.

Lemma v1_inv_cancelled w :
  inv w ->
  inv (mkWorld (set_runCtx (match runCtx (cont w) with
                            | Some _ => Some (mkContext true)
                            | None => None
                            end) (runCtxCancel (cont w)) (cont w))
         (pool w) (parked w) (history w)).
Proof.
  intros Hinv. apply v1_inv_container_frame; cbn; [done|apply Hinv| | |done|done].
  - rewrite <- (inv_cancel w Hinv). by destruct (runCtx (cont w)).
  - by destruct (runCtx (cont w)).
Qed.

Lemma v1_inv_Register w svc :
  inv w -> resolve_name svc ∉ name <$> services (cont w) ->
  inv (mkWorld (set_services (services (cont w) ++ [mkServiceInfo (resolve_name svc) svc])
                  (cont w))
         (pool w) (parked w) (history w)).
Proof.
  intros Hinv Hnotin. apply v1_inv_container_frame; cbn; [done| |apply Hinv|done| |done].
  - rewrite fmap_app. apply NoDup_app. split; [apply Hinv|]. split.
    + intros nm H1 H2. cbn in H2. apply list_elem_of_singleton in H2. by subst nm.
    + cbn. apply NoDup_singleton.
  - intros s Hs. apply elem_of_app. by left.
Qed.

(** The world after [startOne] has launched [s]. *)
Lemma v1_inv_launch ctx s w :
  inv w -> is_Some (runCtx (cont w)) ->
  runContexts (cont w) !! name s = None -> s ∈ services (cont w) ->
  inv (mkWorld (set_runContexts
                  (<[name s := set_running true (newRunContext s)]> (runContexts (cont w)))
                  (cont w))
         (pool w ++ [GoRun s]) (parked w) (history w ++ start_calls ctx s)).
Proof.
  intros Hinv [x Hx] Hl Hs.
  assert (Hfresh : forall g, g ∈ pool w -> go_name g <> name s).
  { intros g Hg Heq. destruct (v1_pool_has_record w g Hinv Hg) as [rc Hrc]. congruence. }
  assert (Hla : forall nm, LaunchRun nm ∈ history w ++ start_calls ctx s ->
                  LaunchRun nm ∈ history w \/ nm = name s).
  { intros nm H. apply elem_of_app in H as [H|H]; [by left|].
    right. by apply v1_start_calls_name in H. }
  destruct Hinv as [I1 I2 I3 I4 I5 I6 I7 I8 I9 I10 I11 I12 I13 I14]. split; cbn.
  - done.
  - done.
  - congruence.
  - intros nm rc H. destruct (decide (nm = name s)) as [->|Hne].
    + rewrite lookup_insert_eq in H. by inversion H; subst rc.
    + rewrite lookup_insert_ne in H by done. by apply I4.
  - rewrite fmap_app. apply NoDup_app. split; [done|]. split.
    + intros nm H1 H2. cbn in H2. apply list_elem_of_singleton in H2. subst nm.
      apply list_elem_of_fmap in H1 as (g & Heq & Hg). by apply (Hfresh g).
    + cbn. apply NoDup_singleton.
  - intros g s' Hg Hu. apply elem_of_app in Hg as [Hg|Hg].
    + assert (Hne : name s' <> name s).
      { intros Heq. apply (Hfresh g Hg). rewrite <- Heq. by destruct g; inversion Hu. }
      rewrite lookup_insert_ne by done. by apply (I6 g).
    + apply list_elem_of_singleton in Hg. subst g. inversion Hu; subst s'.
      rewrite lookup_insert_eq. by eexists.
  - intros nm Hg. apply elem_of_app in Hg as [Hg|Hg];
      [|by apply list_elem_of_singleton in Hg].
    destruct (I7 nm Hg) as [Hno Hrec]. split.
    + intros H. apply Hla in H as [H|H]; [done|]. by apply (Hfresh _ Hg).
    + rewrite lookup_insert_is_Some. right. split; [|done]. intros Heq. apply (Hfresh _ Hg). by rewrite Heq.
  - intros nm rc H Hrun. destruct (decide (nm = name s)) as [->|Hne].
    + rewrite lookup_insert_eq in H. inversion H; subst rc. split.
      { apply elem_of_app. right. apply v1_start_calls_launch. }
      split; [done|]. exists (GoRun s), s. split; [|done].
      apply elem_of_app. right. by left.
    + rewrite lookup_insert_ne in H by done.
      destruct (I8 nm rc H Hrun) as (H1 & H2 & g & s' & Hg & Hu & Hn).
      split; [apply elem_of_app; by left|]. split; [done|].
      exists g, s'. split; [|done]. apply elem_of_app. by left.
  - intros nm H. rewrite lookup_insert_is_Some.
    destruct (decide (name s = nm)) as [Heq|Hne]; [by left|]. right. split; [done|].
    apply Hla in H as [H|H]; [by apply I9|congruence].
  - intros s' v Hg. apply elem_of_app in Hg as [Hg|Hg];
      [|by apply list_elem_of_singleton in Hg].
    apply elem_of_app. left. by apply I10.
  - intros nm rc e H He. destruct (decide (nm = name s)) as [->|Hne].
    + rewrite lookup_insert_eq in H. by inversion H; subst rc.
    + rewrite lookup_insert_ne in H by done. apply elem_of_app. left. by eapply I11.
  - intros nm H. apply elem_of_app. left. by apply I12.
  - intros nm v H. apply elem_of_app in H as [H|H].
    + destruct (I13 nm v H) as [(s' & Hg & Hn)|(rc & Hrc & Hr & He)].
      * left. exists s'. split; [|done]. apply elem_of_app. by left.
      * right. exists rc. split; [|done]. rewrite lookup_insert_ne; [done|]. congruence.
    + unfold start_calls in H. destruct (initer (service s)).
      * apply elem_of_cons in H as [H|H]; [done|]. by apply list_elem_of_singleton in H.
      * by apply list_elem_of_singleton in H.
  - intros nm rc H Hr Hl'. destruct (decide (nm = name s)) as [->|Hne].
    + rewrite lookup_insert_eq in H. by inversion H; subst rc.
    + rewrite lookup_insert_ne in H by done. apply elem_of_app. left.
      apply (I14 nm rc H Hr). apply Hla in Hl' as [?|?]; [done|congruence].
Qed.

(** The world after [Init] has failed in [startOne]. *)
Lemma v1_inv_init_failed s e w :
  inv w -> is_Some (runCtx (cont w)) ->
  runContexts (cont w) !! name s = None -> s ∈ services (cont w) ->
  inv (mkWorld (set_runContexts (<[name s := newRunContext s]> (runContexts (cont w)))
                  (cont w))
         (pool w ++ [GoSynthDone (name s)]) (parked w)
         (history w ++ [CallInit (name s) (Some e)])).
Proof.
  intros Hinv [x Hx] Hl Hs.
  assert (Hfresh : forall g, g ∈ pool w -> go_name g <> name s).
  { intros g Hg Heq. destruct (v1_pool_has_record w g Hinv Hg) as [rc Hrc]. congruence. }
  assert (Hla : forall nm, LaunchRun nm ∈ history w ++ [CallInit (name s) (Some e)] ->
                  LaunchRun nm ∈ history w).
  { intros nm H. apply elem_of_app in H as [H|H]; [done|].
    by apply list_elem_of_singleton in H. }
  destruct Hinv as [I1 I2 I3 I4 I5 I6 I7 I8 I9 I10 I11 I12 I13 I14]. split; cbn.
  - done.
  - done.
  - congruence.
  - intros nm rc H. destruct (decide (nm = name s)) as [->|Hne].
    + rewrite lookup_insert_eq in H. by inversion H; subst rc.
    + rewrite lookup_insert_ne in H by done. by apply I4.
  - rewrite fmap_app. apply NoDup_app. split; [done|]. split.
    + intros nm H1 H2. cbn in H2. apply list_elem_of_singleton in H2. subst nm.
      apply list_elem_of_fmap in H1 as (g & Heq & Hg). by apply (Hfresh g).
    + cbn. apply NoDup_singleton.
  - intros g s' Hg Hu. apply elem_of_app in Hg as [Hg|Hg].
    + assert (Hne : name s' <> name s).
      { intros Heq. apply (Hfresh g Hg). rewrite <- Heq. by destruct g; inversion Hu. }
      rewrite lookup_insert_ne by done. by apply (I6 g).
    + apply list_elem_of_singleton in Hg. by subst g.
  - intros nm Hg. apply elem_of_app in Hg as [Hg|Hg].
    + destruct (I7 nm Hg) as [Hno Hrec]. split; [by intros H; apply Hla in H|].
      rewrite lookup_insert_is_Some. right. split; [|done]. intros Heq. apply (Hfresh _ Hg). by rewrite Heq.
    + apply list_elem_of_singleton in Hg. inversion Hg; subst nm. split.
      * intros H. apply Hla in H. apply I9 in H as [rc Hrc]. congruence.
      * by rewrite lookup_insert_eq.
  - intros nm rc H Hrun. destruct (decide (nm = name s)) as [->|Hne].
    + rewrite lookup_insert_eq in H. by inversion H; subst rc.
    + rewrite lookup_insert_ne in H by done.
      destruct (I8 nm rc H Hrun) as (H1 & H2 & g & s' & Hg & Hu & Hn).
      split; [apply elem_of_app; by left|]. split; [done|].
      exists g, s'. split; [|done]. apply elem_of_app. by left.
  - intros nm H. rewrite lookup_insert_is_Some.
    destruct (decide (name s = nm)) as [Heq|Hne]; [by left|]. right. split; [done|].
    apply I9. by apply Hla.
  - intros s' v Hg. apply elem_of_app in Hg as [Hg|Hg];
      [|by apply list_elem_of_singleton in Hg].
    apply elem_of_app. left. by apply I10.
  - intros nm rc e' H He. destruct (decide (nm = name s)) as [->|Hne].
    + rewrite lookup_insert_eq in H. by inversion H; subst rc.
    + rewrite lookup_insert_ne in H by done. apply elem_of_app. left. by eapply I11.
  - intros nm H. apply elem_of_app. left. by apply I12.
  - intros nm v H. apply elem_of_app in H as [H|H];
      [|by apply list_elem_of_singleton in H].
    destruct (I13 nm v H) as [(s' & Hg & Hn)|(rc & Hrc & Hr & He)].
    + left. exists s'. split; [|done]. apply elem_of_app. by left.
    + right. exists rc. split; [|done]. rewrite lookup_insert_ne; [done|]. congruence.
  - intros nm rc H Hr Hl'. apply Hla in Hl'. destruct (decide (nm = name s)) as [->|Hne].
    + apply I9 in Hl' as [rc' Hrc']. congruence.
    + rewrite lookup_insert_ne in H by done. apply elem_of_app. left. by apply (I14 nm rc).
Qed.

(** ** The goroutines *)

Lemma v1_go_step_Some i w w' :
  go_step i w = Some w' ->
  exists s v,
    pool w !! i = Some (GoRun s)
    /\ Run (service s) (runCtx_of (cont w)) = Some v
    /\ w' = mkWorld (cont w) (<[i := GoSend s v]> (pool w)) (parked w)
              (history w ++ [RunReturned (name s) v]).
Proof.
  unfold go_step. intros H.
  destruct (pool w !! i) as [[nm|s|s v]|] eqn:Hi; try done.
  destruct (Run (service s) (runCtx_of (cont w))) as [v|] eqn:Hrun; [|done].
  inversion H. by exists s, v.
Qed.

Lemma v1_inv_go_step w i w' : inv w -> go_step i w = Some w' -> inv w'.
Proof.
  intros Hinv Hs. apply v1_go_step_Some in Hs as (s & v & Hi & Hrun & ->).
  assert (Hg : GoRun s ∈ pool w) by (by eapply list_elem_of_lookup_2).
  assert (Hlt : i < length (pool w)) by (by eapply lookup_lt_Some).
  destruct Hinv as [I1 I2 I3 I4 I5 I6 I7 I8 I9 I10 I11 I12 I13 I14]. split; cbn.
  - done.
  - done.
  - intros Hx. destruct (I3 Hx) as (_ & Hp & _). rewrite Hp in Hg. by apply elem_of_nil in Hg.
  - done.
  - rewrite list_fmap_insert. cbn. rewrite list_insert_id; [done|].
    by rewrite list_lookup_fmap, Hi.
  - intros g s' Hin Hu. apply v1_elem_of_insert_inv in Hin as [->|Hin].
    + inversion Hu; subst s'. by apply (I6 (GoRun s)).
    + by apply (I6 g).
  - intros nm Hin. apply v1_elem_of_insert_inv in Hin as [Hin|Hin]; [done|].
    destruct (I7 nm Hin) as [Hno Hrec]. split; [|done].
    intros H. apply elem_of_app in H as [H|H]; [done|]. by apply list_elem_of_singleton in H.
  - intros nm rc Hl Hr. destruct (I8 nm rc Hl Hr) as (H1 & H2 & g & s' & Hin & Hu & Hnm).
    split; [apply elem_of_app; by left|]. split; [done|].
    destruct (decide (go_name g = name s)) as [Heq|Hne].
    + assert (g = GoRun s) as -> by (by apply (v1_NoDup_fmap_elem_eq go_name (pool w))).
      exists (GoSend s v), s. inversion Hu; subst s'.
      split; [by apply list_elem_of_insert|done].
    + exists g, s'. split; [|done].
      eapply v1_elem_of_insert_keep; [done|done|]. by intros ->.
  - intros nm H. apply I9. apply elem_of_app in H as [H|H]; [done|].
    by apply list_elem_of_singleton in H.
  - intros s' v' Hin. apply elem_of_app.
    apply v1_elem_of_insert_inv in Hin as [Hin|Hin].
    + inversion Hin; subst. right. by left.
    + left. by apply I10.
  - intros nm rc e Hl He. apply elem_of_app. left. by eapply I11.
  - intros nm H. apply elem_of_app. left. by apply I12.
  - intros nm v' H. apply elem_of_app in H as [H|H].
    + destruct (I13 nm v' H) as [(s' & Hg' & Hn)|(rc & Hrc & Hr & He)]; [|by right; exists rc].
      left. exists s'. split; [|done]. by eapply v1_elem_of_insert_keep.
    + apply list_elem_of_singleton in H. inversion H; subst nm v'.
      left. exists s. split; [by apply list_elem_of_insert|done].
  - intros nm rc Hl Hr Hla. apply elem_of_app. left. apply (I14 nm rc Hl Hr).
    apply elem_of_app in Hla as [Hla|Hla]; [done|]. by apply list_elem_of_singleton in Hla.
Qed.

(** What a step of a goroutine leaves as it is. *)
Lemma v1_go_step_frame w i w' :
  go_step i w = Some w' ->
  cont w' = cont w /\ parked w' = parked w
  /\ go_name <$> pool w' = go_name <$> pool w
  /\ unit_of <$> pool w' = unit_of <$> pool w
  /\ filter is_start (history w') = filter is_start (history w)
  /\ (forall x, x ∈ history w -> x ∈ history w')
  /\ (forall g, in_Run g = false -> g ∈ pool w -> g ∈ pool w')
  /\ (forall s, GoRun s ∈ pool w' -> GoRun s ∈ pool w).
Proof.
  intros Hs. apply v1_go_step_Some in Hs as (s & v & Hi & Hrun & ->). cbn.
  split; [done|]. split; [done|]. split; [|split; [|split; [|split; [|split]]]].
  - rewrite list_fmap_insert. cbn. rewrite list_insert_id; [done|].
    by rewrite list_lookup_fmap, Hi.
  - rewrite list_fmap_insert. cbn. rewrite list_insert_id; [done|].
    by rewrite list_lookup_fmap, Hi.
  - rewrite filter_app. cbn. by rewrite app_nil_r.
  - intros x Hx. apply elem_of_app. by left.
  - intros g Hg Hin. eapply v1_elem_of_insert_keep; [done|done|]. intros ->. done.
  - intros s' Hin. by apply v1_elem_of_insert_inv in Hin as [Hin|Hin].
Qed.

Lemma v1_interleave_spec js w :
  inv w ->
  exists w',
    interleave js w = Ok tt w'
    /\ inv w'
    /\ cont w' = cont w /\ parked w' = parked w
    /\ go_name <$> pool w' = go_name <$> pool w
    /\ unit_of <$> pool w' = unit_of <$> pool w
    /\ filter is_start (history w') = filter is_start (history w)
    /\ (forall x, x ∈ history w -> x ∈ history w').
Proof.
  revert w. induction js as [|j rest IH]; intros w Hinv.
  - exists w. do 7 (split; [done|]). done.
  - cbn [interleave]. unfold bind at 1, yield_to.
    destruct (go_step j w) as [w1|] eqn:Hg; [|by apply IH].
    destruct (v1_go_step_frame w j w1 Hg) as (A1 & A2 & A3 & A4 & A5 & A6 & _).
    destruct (IH w1 (v1_inv_go_step w j w1 Hinv Hg))
      as (w' & Heq & Hinv' & B1 & B2 & B3 & B4 & B5 & B6).
    exists w'. split; [done|]. split; [done|].
    split; [congruence|]. split; [congruence|]. split; [congruence|].
    split; [congruence|]. split; [congruence|]. auto.
Qed.

(** ** The loop of [StartAll] *)

Lemma v1_unit_of_name g s : unit_of g = Some s -> go_name g = name s.
Proof. destruct g; intros H; by inversion H. Qed.

Lemma v1_unit_of_fmap_elem (p : list goroutine) (ss : list serviceInfo) s :
  unit_of <$> p = Some <$> ss -> s ∈ ss -> exists g, g ∈ p /\ unit_of g = Some s.
Proof.
  intros E Hs. assert (H : Some s ∈ unit_of <$> p).
  { rewrite E. by apply list_elem_of_fmap_2. }
  apply list_elem_of_fmap in H as (g & Hg & Hin). by exists g.
Qed.

Lemma v1_started_record x ss w s :
  started x ss w -> s ∈ ss ->
  exists rc, runContexts (cont w) !! name s = Some rc
             /\ rc_service rc = s /\ running rc = true /\ err rc = None.
Proof.
  intros [Hinv Hx Hh Hp Hr] Hs.
  destruct (v1_unit_of_fmap_elem _ _ s Hp Hs) as (g & Hg & Hu).
  destruct (inv_pool_unit w Hinv g s Hg Hu) as (rc & Hl & Hrun & Hsvc).
  exists rc. split; [done|]. split; [done|]. split; [done|].
  by destruct (inv_running w Hinv (name s) rc Hl Hrun) as (_ & He & _).
Qed.

Lemma v1_started_interleave x ss js w :
  started x ss w ->
  exists w', interleave js w = Ok tt w' /\ started x ss w'
             /\ cont w' = cont w /\ parked w' = parked w.
Proof.
  intros [Hinv Hx Hh Hp Hr].
  destruct (v1_interleave_spec js w Hinv) as (w' & Heq & Hinv' & B1 & B2 & B3 & B4 & B5 & B6).
  exists w'. split; [done|]. split; [|done].
  split; [done|congruence|congruence|congruence|]. intros nm. rewrite B1. apply Hr.
Qed.

Lemma v1_started_launch x ss s w :
  started x ss w -> name s ∉ name <$> ss -> s ∈ services (cont w) ->
  started x (ss ++ [s])
    (mkWorld (set_runContexts
                (<[name s := set_running true (newRunContext s)]> (runContexts (cont w)))
                (cont w))
       (pool w ++ [GoRun s]) (parked w) (history w ++ start_calls x s)).
Proof.
  intros [Hinv Hx Hh Hp Hr] Hnotin Hs.
  assert (Hl : runContexts (cont w) !! name s = None).
  { apply eq_None_not_Some. intros H. by apply Hr in H. }
  split; cbn.
  - apply v1_inv_launch; [done|by rewrite Hx|done|done].
  - done.
  - rewrite filter_app, Hh, v1_start_calls_is_start, fmap_app, concat_app. cbn.
    by rewrite app_nil_r.
  - rewrite !fmap_app. cbn. by rewrite Hp.
  - intros nm. rewrite lookup_insert_is_Some, fmap_app, elem_of_app, Hr. cbn.
    rewrite list_elem_of_singleton. split.
    + intros [Heq|[_ H]]; [right; by rewrite Heq|by left].
    + intros [H|Heq]; [|by left]. right. split; [|done]. intros Heq. apply Hnotin. by rewrite Heq.
Qed.

Lemma v1_start_loop_ok steps ss :
  forall done w x,
    started x done w ->
    NoDup (name <$> done ++ ss) ->
    (forall s, s ∈ ss -> s ∈ services (cont w)) ->
    Forall (fun s => init_result x s = None) ss ->
    exists w',
      start_loop steps ss w = Ok None w'
      /\ started x (done ++ ss) w'
      /\ services (cont w') = services (cont w)
      /\ runCtxCancel (cont w') = runCtxCancel (cont w)
      /\ parked w' = parked w.
Proof.
  revert steps. induction ss as [|s rest IH]; intros steps done w x Hst Hnd Hss Hok.
  - exists w. rewrite app_nil_r. split; [done|]. split; [done|]. by split.
  - apply Forall_cons in Hok as [Hs Hok].
    cbn [start_loop]. unfold bind at 1.
    destruct (v1_started_interleave x done (hd [] steps) w Hst) as (w1 & Heq & Hst1 & Hc & Hp).
    rewrite Heq. unfold bind at 1, get. unfold bind at 1.
    assert (Hrx : runCtx_of (cont w1) = x).
    { unfold runCtx_of. by rewrite (st_ctx x done w1 Hst1). }
    assert (Hnotin : name s ∉ name <$> done).
    { rewrite fmap_app in Hnd. apply NoDup_app in Hnd as (_ & Hd & _).
      intros H. apply (Hd (name s) H). rewrite fmap_cons. by left. }
    assert (Hl : runContexts (cont w1) !! name s = None).
    { apply eq_None_not_Some. intros H. by apply (st_recs x done w1 Hst1) in H. }
    rewrite Hrx, (v1_startOne_ok x s w1) by done.
    assert (Hin : s ∈ services (cont w1)) by (rewrite Hc; apply Hss; by left).
    destruct (IH (tl steps) (done ++ [s]) _ x (v1_started_launch x done s w1 Hst1 Hnotin Hin))
      as (w' & Heq' & Hst' & A1 & A2 & A3).
    + by rewrite <- app_assoc.
    + intros s' Hs'. cbn. rewrite Hc. apply Hss. by right.
    + done.
    + exists w'. split; [done|]. rewrite <- app_assoc in Hst'. split; [done|].
      cbn in A1, A2, A3. split; [by rewrite A1, Hc|]. split; [by rewrite A2, Hc|].
      by rewrite A3, Hp.
Qed.

Lemma v1_start_loop_fail steps pre sk post e :
  forall done w x f,
    started x done w ->
    runCtxCancel (cont w) = Some f ->
    NoDup (name <$> done ++ pre ++ [sk]) ->
    (forall s, s ∈ pre ++ [sk] -> s ∈ services (cont w)) ->
    Forall (fun s => init_result x s = None) pre ->
    init_result x sk = Some e ->
    exists w1,
      started x (done ++ pre) w1
      /\ services (cont w1) = services (cont w)
      /\ parked w1 = parked w
      /\ start_loop steps (pre ++ sk :: post) w
         = Ok (Some (init_error sk e))
             (mkWorld (mkContainer (Some (mkContext true)) (Some f) (services (cont w))
                         (<[name sk := newRunContext sk]> (runContexts (cont w1))))
                (pool w1 ++ [GoSynthDone (name sk)]) (parked w)
                (history w1 ++ [CallInit (name sk) (Some e)])).
Proof.
  revert steps. induction pre as [|s rest IH]; intros steps done w x f Hst Hf Hnd Hss Hok Hk.
  - cbn [app start_loop]. unfold bind at 1.
    destruct (v1_started_interleave x done (hd [] steps) w Hst) as (w1 & Heq & Hst1 & Hc & Hp).
    rewrite Heq. unfold bind at 1, get. unfold bind at 1.
    assert (Hrx : runCtx_of (cont w1) = x).
    { unfold runCtx_of. by rewrite (st_ctx x done w1 Hst1). }
    assert (Hnotin : name sk ∉ name <$> done).
    { rewrite fmap_app in Hnd. apply NoDup_app in Hnd as (_ & Hd & _).
      intros H. apply (Hd (name sk) H). cbn. by left. }
    assert (Hl : runContexts (cont w1) !! name sk = None).
    { apply eq_None_not_Some. intros H. by apply (st_recs x done w1 Hst1) in H. }
    rewrite Hrx, (v1_startOne_fail x sk e w1) by done.
    exists w1. rewrite app_nil_r. split; [done|]. split; [by rewrite Hc|]. split; [done|].
    unfold bind, liftC, cancel_runCtx, get, ret. cbn. rewrite Hc, Hf. destruct f. cbn.
    by rewrite (st_ctx x done w Hst), Hf, Hp.
  - apply Forall_cons in Hok as [Hs Hok].
    rewrite <- app_comm_cons. cbn [start_loop]. unfold bind at 1.
    destruct (v1_started_interleave x done (hd [] steps) w Hst) as (w1 & Heq & Hst1 & Hc & Hp).
    rewrite Heq. unfold bind at 1, get. unfold bind at 1.
    assert (Hrx : runCtx_of (cont w1) = x).
    { unfold runCtx_of. by rewrite (st_ctx x done w1 Hst1). }
    assert (Hnotin : name s ∉ name <$> done).
    { rewrite fmap_app in Hnd. apply NoDup_app in Hnd as (_ & Hd & _).
      intros H. apply (Hd (name s) H). rewrite <- app_comm_cons, fmap_cons. by left. }
    assert (Hl : runContexts (cont w1) !! name s = None).
    { apply eq_None_not_Some. intros H. by apply (st_recs x done w1 Hst1) in H. }
    rewrite Hrx, (v1_startOne_ok x s w1) by done.
    assert (Hin : s ∈ services (cont w1)) by (rewrite Hc; apply Hss; by left).
    destruct (IH (tl steps) (done ++ [s]) _ x f
                (v1_started_launch x done s w1 Hst1 Hnotin Hin))
      as (w2 & Hst2 & A1 & A2 & A3).
    + cbn. by rewrite Hc.
    + by rewrite <- app_assoc.
    + intros s' Hs'. cbn. rewrite Hc. apply Hss. by right.
    + done.
    + done.
    + exists w2. rewrite <- app_assoc in Hst2. split; [done|].
      cbn in A1, A2, A3. split; [by rewrite A1, Hc|]. split; [by rewrite A2, Hp|].
      rewrite A3. cbn. by rewrite Hc, Hp.
Qed.

(** ** [StartAll] *)

Lemma v1_StartAll_started ctx steps w x :
  runCtx (cont w) = Some x ->
  StartAll ctx steps w = Panic "Container.StartAll can only be called once" w.
Proof. intros H. unfold StartAll, bind, get, panic. by rewrite H. Qed.

(** The state in which the loop of [StartAll] begins. *)
Lemma v1_started_nil ctx w :
  inv w -> runCtx (cont w) = None ->
  started ctx []
    (mkWorld (mkContainer (Some ctx) (Some cancelRunCtx) (services (cont w)) ∅) [] [] []).
Proof.
  intros Hinv Hx. destruct (inv_unstarted w Hinv Hx) as (Hm & Hp & Hk & Hh).
  split; cbn; [|done|done|done|].
  - pose proof (v1_inv_container_frame w
                  (mkContainer (Some ctx) (Some cancelRunCtx) (services (cont w)) ∅) Hinv) as H.
    rewrite Hp, Hk, Hh in H. apply H; cbn; [apply Hinv|done|done|done|done].
  - intros nm. rewrite lookup_empty. split; [by intros [? ?]|]. intros H.
    by apply elem_of_nil in H.
Qed.

Lemma v1_StartAll_unfold ctx steps w :
  inv w -> runCtx (cont w) = None ->
  StartAll ctx steps w
  = start_loop steps (services (cont w))
      (mkWorld (mkContainer (Some ctx) (Some cancelRunCtx) (services (cont w)) ∅) [] [] []).
Proof.
  intros Hinv Hx. destruct (inv_unstarted w Hinv Hx) as (Hm & Hp & Hk & Hh).
  unfold StartAll. unfold bind at 1, get. rewrite Hx. cbn [WithCancel].
  unfold bind at 1, modify, on_cont, set_runCtx. rewrite Hm, Hp, Hk, Hh.
  by destruct ctx.
Qed.

Lemma v1_StartAll_all_ok ctx steps w :
  inv w -> runCtx (cont w) = None ->
  Forall (fun s => init_result ctx s = None) (services (cont w)) ->
  exists w',
    StartAll ctx steps w = Ok None w'
    /\ started ctx (services (cont w)) w'
    /\ services (cont w') = services (cont w)
    /\ runCtxCancel (cont w') = Some cancelRunCtx
    /\ parked w' = [].
Proof.
  intros Hinv Hx Hok. rewrite v1_StartAll_unfold by done.
  destruct (v1_start_loop_ok steps (services (cont w)) [] _ ctx (v1_started_nil ctx w Hinv Hx))
    as (w' & Heq & Hst & A1 & A2 & A3); [apply Hinv|done|done|].
  exists w'. split; [done|]. split; [done|]. split; [done|]. split; [done|]. done.
Qed.

Lemma v1_StartAll_one_fails ctx steps w pre sk post e :
  inv w -> runCtx (cont w) = None ->
  services (cont w) = pre ++ sk :: post ->
  Forall (fun s => init_result ctx s = None) pre ->
  init_result ctx sk = Some e ->
  exists w1,
    started ctx pre w1
    /\ services (cont w1) = services (cont w)
    /\ parked w1 = []
    /\ StartAll ctx steps w
       = Ok (Some (init_error sk e))
           (mkWorld (mkContainer (Some (mkContext true)) (Some cancelRunCtx)
                       (services (cont w))
                       (<[name sk := newRunContext sk]> (runContexts (cont w1))))
              (pool w1 ++ [GoSynthDone (name sk)]) []
              (history w1 ++ [CallInit (name sk) (Some e)])).
Proof.
  intros Hinv Hx Hss Hpre Hk. rewrite v1_StartAll_unfold by done.
  pose proof (inv_names w Hinv) as Hnd.
  destruct (v1_start_loop_fail steps pre sk post e [] _ ctx cancelRunCtx
              (v1_started_nil ctx w Hinv Hx))
    as (w1 & Hst & A1 & A2 & A3); [done| | |done|done|].
  - cbn. rewrite Hss in Hnd. rewrite (cons_middle sk pre post), app_assoc, fmap_app in Hnd.
    by apply NoDup_app in Hnd as (Hnd & _).
  - intros s Hs. cbn. rewrite Hss, (cons_middle sk pre post), app_assoc.
    apply elem_of_app. by left.
  - exists w1. split; [done|]. split; [done|]. split; [done|].
    rewrite Hss in *. exact A3.
Qed.

(** The world in which [StartAll] ends when an [Init] has failed. *)
Lemma v1_inv_StartAll_failed x ss sk e w1 :
  started x ss w1 -> name sk ∉ name <$> ss -> sk ∈ services (cont w1) ->
  inv (mkWorld (mkContainer (Some (mkContext true)) (runCtxCancel (cont w1))
                  (services (cont w1))
                  (<[name sk := newRunContext sk]> (runContexts (cont w1))))
         (pool w1 ++ [GoSynthDone (name sk)]) (parked w1)
         (history w1 ++ [CallInit (name sk) (Some e)])).
Proof.
  intros Hst Hnotin Hin.
  assert (Hl : runContexts (cont w1) !! name sk = None).
  { apply eq_None_not_Some. intros H. by apply (st_recs x ss w1 Hst) in H. }
  pose proof (v1_inv_init_failed sk e w1 (st_inv x ss w1 Hst)) as H.
  rewrite (st_ctx x ss w1 Hst) in H. specialize (H (ltac:(by eexists)) Hl Hin).
  apply v1_inv_cancelled in H. cbn in H. by rewrite (st_ctx x ss w1 Hst) in H.
Qed.

Lemma v1_inv_StartAll ctx steps w r w' : inv w -> StartAll ctx steps w = Ok r w' -> inv w'.
Proof.
  intros Hinv Hs. destruct (runCtx (cont w)) as [x|] eqn:Hx.
  { by rewrite (v1_StartAll_started _ _ _ x) in Hs. }
  pose proof (inv_names w Hinv) as Hnd.
  destruct (init_split ctx (services (cont w)))
    as [Hok|(pre & sk & post & e & Hss & Hpre & Hk)].
  - destruct (v1_StartAll_all_ok ctx steps w Hinv Hx Hok) as (w1 & Heq & Hst & _).
    rewrite Heq in Hs. inversion Hs; subst r w'. apply Hst.
  - destruct (v1_StartAll_one_fails ctx steps w pre sk post e Hinv Hx Hss Hpre Hk)
      as (w1 & Hst & A1 & A2 & Heq).
    rewrite Heq in Hs. inversion Hs; subst r w'.
    pose proof (v1_inv_StartAll_failed ctx pre sk e w1 Hst) as H.
    rewrite A1, A2 in H.
    assert (Hc : runCtxCancel (cont w1) = Some cancelRunCtx).
    { destruct (runCtxCancel (cont w1)) as [[]|] eqn:Hc; [done|].
      apply (inv_cancel w1 (st_inv _ _ _ Hst)) in Hc.
      by rewrite (st_ctx _ _ _ Hst) in Hc. }
    rewrite Hc in H. apply H.
    + rewrite Hss in Hnd. rewrite fmap_app, fmap_cons in Hnd.
      apply NoDup_app in Hnd as (_ & Hd & _). intros Hin. apply (Hd _ Hin). by left.
    + rewrite Hss. apply elem_of_app. right. by left.
Qed.

(** ** What no step undoes *)

Lemma v1_grows_refl w : grows w w.
Proof. by split. Qed.

Lemma v1_grows_trans w1 w2 w3 : grows w1 w2 -> grows w2 w3 -> grows w1 w3.
Proof. intros [A1 A2 A3 A4 A5 A6 A7] [B1 B2 B3 B4 B5 B6 B7]. split; auto. Qed.

Lemma v1_grows_go_step w i w' : go_step i w = Some w' -> grows w w'.
Proof.
  intros Hs. destruct (v1_go_step_frame w i w' Hs) as (A1 & A2 & A3 & A4 & A5 & A6 & A7 & A8).
  split; rewrite ?A1; auto.
Qed.

Lemma v1_grows_container w c :
  (is_Some (runCtx (cont w)) -> is_Some (runCtx c)) ->
  (cancelled (cont w) = true -> cancelled c = true) ->
  (forall s, s ∈ services (cont w) -> s ∈ services c) ->
  runContexts c = runContexts (cont w) ->
  grows w (mkWorld c (pool w) (parked w) (history w)).
Proof. intros H1 H2 H3 H4. split; cbn; rewrite ?H4; auto. Qed.

Lemma v1_grows_cancelled w :
  grows w (mkWorld (set_runCtx (match runCtx (cont w) with
                                | Some _ => Some (mkContext true)
                                | None => None
                                end) (runCtxCancel (cont w)) (cont w))
             (pool w) (parked w) (history w)).
Proof.
  apply v1_grows_container; cbn; [| |done|done].
  - by destruct (runCtx (cont w)).
  - unfold cancelled. cbn. by destruct (runCtx (cont w)).
Qed.

Lemma v1_grows_set_parked w l : grows w (set_parked l w).
Proof. by split. Qed.

(** ** Receiving from a unit *)

Lemma v1_find_sender_Some nm p i v :
  find_sender nm p = Some (i, v) ->
  exists g, p !! i = Some g /\ offers nm g = Some v.
Proof.
  revert i. induction p as [|g rest IH]; intros i H; [done|]. cbn in H.
  destruct (offers nm g) as [v'|] eqn:Ho.
  - inversion H; subst. by exists g.
  - destruct (find_sender nm rest) as [[i' v']|] eqn:Hf; [|done].
    inversion H; subst. destruct (IH i' eq_refl) as (g' & Hg' & Ho'). by exists g'.
Qed.

Lemma v1_find_sender_None nm p g :
  find_sender nm p = None -> g ∈ p -> offers nm g = None.
Proof.
  induction p as [|g' rest IH]; intros H Hin; [by apply elem_of_nil in Hin|].
  cbn in H. destruct (offers nm g') as [v'|] eqn:Ho; [done|].
  destruct (find_sender nm rest) as [[i' v']|] eqn:Hf; [done|].
  apply elem_of_cons in Hin as [->|Hin]; [done|by apply IH].
Qed.

Lemma v1_offers_name nm g v : offers nm g = Some v -> go_name g = nm.
Proof.
  destruct g as [nm'|s|s v']; cbn; [| done |].
  - destruct (String.eqb_spec nm' nm); [done|done].
  - destruct (String.eqb_spec (name s) nm); [done|done].
Qed.

Lemma v1_offers_GoSend s v : offers (name s) (GoSend s v) = Some v.
Proof. cbn. by rewrite String.eqb_refl. Qed.

(** A waiter blocked in the receive on the channel of a launched service
    takes the value of its unit, never the [nil] of a failed [Init]. *)
Lemma v1_inv_receive w nm i v g :
  inv w ->
  pool w !! i = Some g -> offers nm g = Some v ->
  LaunchRun nm ∈ history w ->
  inv (receive nm i v w)
  /\ grows w (receive nm i v w)
  /\ exists s, g = GoSend s v /\ name s = nm.
Proof.
  intros Hinv Hi Ho Hla.
  pose proof (v1_offers_name nm g v Ho) as Hnm.
  assert (Hg : g ∈ pool w) by (by eapply list_elem_of_lookup_2).
  assert (Hsend : exists s, g = GoSend s v /\ name s = nm).
  { destruct g as [nm'|s|s v']; [|done|].
    - cbn in Hnm. subst nm'. by destruct (inv_pool_synth w Hinv nm Hg).
    - cbn in Ho, Hnm. rewrite Hnm, String.eqb_refl in Ho. inversion Ho; subst. by exists s. }
  destruct Hsend as (s & -> & Hs).
  destruct (inv_pool_unit w Hinv (GoSend s v) s Hg eq_refl) as (rc & Hl & Hrun & Hsvc).
  rewrite Hs in Hl.
  assert (Hother : forall g', g' ∈ delete i (pool w) -> go_name g' <> nm).
  { intros g' Hin. rewrite <- Hnm.
    by apply (NoDup_fmap_delete_ne go_name (pool w) i (GoSend s v) g'); [apply Hinv|..]. }
  split; [|split; [|by exists s]].
  - destruct Hinv as [I1 I2 I3 I4 I5 I6 I7 I8 I9 I10 I11 I12 I13 I14]. split; unfold receive; cbn.
    + done.
    + done.
    + intros Hx. destruct (I3 Hx) as (_ & Hp & _). rewrite Hp in Hg.
      by apply elem_of_nil in Hg.
    + intros nm' rc' H. destruct (decide (nm' = nm)) as [->|Hne].
      * rewrite lookup_alter_eq, Hl in H. cbn in H. inversion H; subst rc'. cbn.
        by apply (I4 nm rc).
      * rewrite lookup_alter_ne in H by done. by apply I4.
    + by apply NoDup_fmap_delete.
    + intros g' s' Hin Hu.
      assert (Hne : name s' <> nm).
      { rewrite <- (v1_unit_of_name g' s' Hu). by apply Hother. }
      rewrite lookup_alter_ne by done. apply (I6 g'); [|done].
      by eapply list_elem_of_delete_inv.
    + intros nm' Hin.
      assert (Hne : nm' <> nm) by (by apply (Hother _ Hin)).
      rewrite lookup_alter_ne by done. apply I7. by eapply list_elem_of_delete_inv.
    + intros nm' rc' H Hr'. destruct (decide (nm' = nm)) as [->|Hne].
      * rewrite lookup_alter_eq, Hl in H. cbn in H. by inversion H; subst rc'.
      * rewrite lookup_alter_ne in H by done.
        destruct (I8 nm' rc' H Hr') as (H1 & H2 & g' & s' & Hin & Hu & Hnm').
        split; [done|]. split; [done|]. exists g', s'. split; [|done].
        eapply elem_of_delete_ne; [done|done|]. intros ->. cbn in Hu. inversion Hu; subst s'.
        congruence.
    + intros nm' H. apply I9 in H. destruct (decide (nm' = nm)) as [->|Hne].
      * rewrite lookup_alter_eq, Hl. by eexists.
      * by rewrite lookup_alter_ne.
    + intros s' v' Hin. apply I10. by eapply list_elem_of_delete_inv.
    + intros nm' rc' e H He. destruct (decide (nm' = nm)) as [->|Hne].
      * rewrite lookup_alter_eq, Hl in H. cbn in H. inversion H; subst rc'. cbn in He.
        subst v. rewrite <- Hs. by apply I10.
      * rewrite lookup_alter_ne in H by done. by eapply I11.
    + done.
    + intros nm' v' H. destruct (I13 nm' v' H) as [(s' & Hg' & Hn)|(rc' & Hrc & Hr & He)].
      * destruct (decide (nm' = nm)) as [->|Hne].
        -- assert (GoSend s' v' = GoSend s v) as [= -> ->].
           { apply (v1_NoDup_fmap_elem_eq go_name (pool w)); [done|done|done|]. cbn.
             congruence. }
           right. eexists. rewrite lookup_alter_eq, Hl. cbn. by split.
        -- left. exists s'. split; [|done]. eapply elem_of_delete_ne; [done|done|].
           intros [= -> ->]. congruence.
      * right. exists rc'. split; [|done]. rewrite lookup_alter_ne; [done|]. congruence.
    + intros nm' rc' H Hr' Hla'. destruct (decide (nm' = nm)) as [->|Hne].
      * rewrite lookup_alter_eq, Hl in H. cbn in H. inversion H; subst rc'. cbn.
        rewrite <- Hs. by apply I10.
      * rewrite lookup_alter_ne in H by done. by apply (I14 nm' rc').
  - split; unfold receive; cbn; auto.
    + intros nm' Hin. eapply elem_of_delete_ne; [done|done|]. by intros [=].
    + intros nm' H. destruct (decide (nm' = nm)) as [->|Hne].
      * rewrite lookup_alter_eq, Hl. by eexists.
      * by rewrite lookup_alter_ne.
    + intros nm' rc' H Hr'. destruct (decide (nm' = nm)) as [->|Hne]; [congruence|].
      by rewrite lookup_alter_ne.
Qed.

(** One step of a goroutine in [Wait]. *)
Lemma v1_wait_body_spec x w x' w' :
  inv w ->
  (forall nm, x = WaitRecv nm -> LaunchRun nm ∈ history w) ->
  wait_body x w = Some (x', w') ->
  inv w' /\ grows w w'
  /\ runCtx (cont w') = runCtx (cont w)
  /\ runCtxCancel (cont w') = runCtxCancel (cont w)
  /\ services (cont w') = services (cont w)
  /\ parked w' = parked w
  /\ history w' = history w
  /\ (forall g, g ∈ pool w' -> g ∈ pool w)
  /\ (forall y, x' = Some y -> waiter_name y = waiter_name x)
  /\ (forall nm, x' = Some (WaitRecv nm) -> LaunchRun nm ∈ history w').
Proof.
  intros Hinv Hx Hb. destruct x as [nm|nm]; cbn in Hb.
  - destruct (runContexts (cont w) !! nm) as [rc|] eqn:Hl.
    + destruct (running rc) eqn:Hrun; inversion Hb; subst x' w'.
      * split; [done|]. split; [apply v1_grows_refl|]. do 6 (split; [done|]).
        split; [by intros y [= <-]|]. intros nm' [= <-].
        by destruct (inv_running w Hinv nm rc Hl Hrun).
      * split; [done|]. split; [apply v1_grows_refl|]. by do 7 (split; [done|]).
    + inversion Hb; subst x' w'.
      split; [done|]. split; [apply v1_grows_refl|]. by do 7 (split; [done|]).
  - destruct (find_sender nm (pool w)) as [[i v]|] eqn:Hf; [|done].
    inversion Hb; subst x' w'.
    destruct (v1_find_sender_Some nm (pool w) i v Hf) as (g & Hi & Ho).
    destruct (v1_inv_receive w nm i v g Hinv Hi Ho (Hx nm eq_refl)) as (Hinv' & Hgr & _).
    split; [done|]. split; [done|]. unfold receive; cbn. do 5 (split; [done|]).
    split; [|done]. intros g' H. by eapply list_elem_of_delete_inv.
Qed.

Lemma v1_parked_step_spec j w w' :
  inv w -> parked_step j w = Some w' ->
  inv w' /\ grows w w'
  /\ runCtx (cont w') = runCtx (cont w)
  /\ runCtxCancel (cont w') = runCtxCancel (cont w)
  /\ services (cont w') = services (cont w)
  /\ history w' = history w
  /\ (forall g, g ∈ pool w' -> g ∈ pool w).
Proof.
  intros Hinv Hs. unfold parked_step in Hs.
  destruct (parked w !! j) as [x|] eqn:Hj; [|done].
  assert (Hin : x ∈ parked w) by (by eapply list_elem_of_lookup_2).
  destruct (wait_body x w) as [[x' w1]|] eqn:Hb; [|done].
  destruct (v1_wait_body_spec x w x' w1 Hinv) as (Hinv1 & Hgr & A1 & A2 & A3 & A4 & A5 & A6 & A7 & A8);
    [by intros nm ->; apply (inv_parked w Hinv)|done|].
  assert (Hfin : forall l,
             (forall nm, WaitRecv nm ∈ l -> LaunchRun nm ∈ history w1) ->
             inv (set_parked l w1)).
  { intros l Hl. destruct Hinv1 as [I1 I2 I3 I4 I5 I6 I7 I8 I9 I10 I11 I12 I13 I14].
    split; cbn; auto. intros Hx. exfalso. rewrite A1 in Hx.
    destruct (inv_unstarted w Hinv Hx) as (_ & _ & Hk & _). rewrite Hk in Hin.
    by apply elem_of_nil in Hin. }
  assert (Hold : forall nm, WaitRecv nm ∈ parked w -> LaunchRun nm ∈ history w1).
  { intros nm H. rewrite A5. by apply (inv_parked w Hinv). }
  destruct x' as [y|]; inversion Hs; subst w'.
  - split.
    { apply Hfin. intros nm H. apply v1_elem_of_insert_inv in H as [<-|H]; [by apply A8|auto]. }
    split; [by eapply v1_grows_trans; [done|apply v1_grows_set_parked]|]. by cbn.
  - split.
    { apply Hfin. intros nm H. apply Hold. by eapply list_elem_of_delete_inv. }
    split; [by eapply v1_grows_trans; [done|apply v1_grows_set_parked]|]. by cbn.
Qed.

(** ** Events *)

Lemma v1_StartAll_spec ctx steps w r w' :
  inv w -> StartAll ctx steps w = Ok r w' ->
  inv w' /\ grows w w' /\ runCtx (cont w) = None
  /\ services (cont w') = services (cont w) /\ is_Some (runCtx (cont w')).
Proof.
  intros Hinv Hs. pose proof (v1_inv_StartAll ctx steps w r w' Hinv Hs) as Hinv'.
  destruct (runCtx (cont w)) as [x|] eqn:Hx.
  { by rewrite (v1_StartAll_started _ _ _ x) in Hs. }
  destruct (inv_unstarted w Hinv Hx) as (Hm & Hp & Hk & Hh).
  assert (Hss : services (cont w') = services (cont w) /\ is_Some (runCtx (cont w'))).
  { destruct (init_split ctx (services (cont w)))
      as [Hok|(pre & sk & post & e & Hss & Hpre & Hk')].
    - destruct (v1_StartAll_all_ok ctx steps w Hinv Hx Hok) as (w1 & Heq & Hst & A1 & _).
      rewrite Heq in Hs. inversion Hs; subst r w'. split; [done|].
      by rewrite (st_ctx _ _ _ Hst).
    - destruct (v1_StartAll_one_fails ctx steps w pre sk post e Hinv Hx Hss Hpre Hk')
        as (w1 & Hst & A1 & A2 & Heq).
      rewrite Heq in Hs. inversion Hs; subst r w'. by split. }
  destruct Hss as [Hss Hsome]. split; [done|]. split; [|done].
  split.
  - done.
  - unfold cancelled. by rewrite Hx.
  - by rewrite Hss.
  - rewrite Hh. intros x H. by apply elem_of_nil in H.
  - rewrite Hp. intros x H. by apply elem_of_nil in H.
  - rewrite Hm. intros nm [rc H]. by rewrite lookup_empty in H.
  - rewrite Hm. intros nm rc H. by rewrite lookup_empty in H.
Qed.

Lemma v1_Register_cases svc w :
  (resolve_name svc ∈ name <$> services (cont w)
   /\ liftC (Register svc) w
      = Panic ("Service '" +:+ resolve_name svc +:+ "' already registered") w)
  \/ ((resolve_name svc ∉ name <$> services (cont w))
      /\ liftC (Register svc) w
         = Ok tt (mkWorld (set_services
                             (services (cont w) ++ [mkServiceInfo (resolve_name svc) svc])
                             (cont w))
                    (pool w) (parked w) (history w))).
Proof.
  unfold liftC.
  destruct (decide (resolve_name svc ∈ name <$> services (cont w))) as [Hin|Hnotin].
  - left. split; [done|]. rewrite Register_dup by done. by destruct w.
  - right. split; [done|]. by rewrite Register_fresh.
Qed.

Lemma v1_step_spec ev w w' :
  inv w -> step ev w = Some w' -> inv w' /\ grows w w'.
Proof.
  intros Hinv Hs. destruct ev as [svc|ctx steps|i|j|]; cbn [step] in Hs.
  - destruct (v1_Register_cases svc w) as [[Hin Heq]|[Hnotin Heq]]; rewrite Heq in Hs;
      [done|]. inversion Hs; subst w'. split; [by apply v1_inv_Register|].
    apply v1_grows_container; cbn; [done|done| |done].
    intros s H. apply elem_of_app. by left.
  - destruct (StartAll ctx steps w) as [r w1|] eqn:Hr; [|done].
    inversion Hs; subst w'.
    by destruct (v1_StartAll_spec ctx steps w r w1 Hinv Hr) as (? & ? & _).
  - split; [by eapply v1_inv_go_step|by eapply v1_grows_go_step].
  - by destruct (v1_parked_step_spec j w w' Hinv Hs) as (? & ? & _).
  - inversion Hs; subst w'. unfold on_cont. rewrite parent_cancel_eq.
    split; [by apply v1_inv_cancelled|apply v1_grows_cancelled].
Qed.

Lemma v1_step_or_skip_spec ev w :
  inv w -> inv (step_or_skip ev w) /\ grows w (step_or_skip ev w).
Proof.
  intros Hinv. unfold step_or_skip. destruct (step ev w) as [w'|] eqn:Hs.
  - by apply (v1_step_spec ev).
  - split; [done|apply v1_grows_refl].
Qed.

(** ** The wait loop *)

Lemma v1_wait_start_inv ctx w : inv w -> wait_inv (wait_start ctx (cont w)) w.
Proof.
  intros Hinv. split; cbn.
  - by rewrite !length_fmap, length_map_to_list.
  - rewrite <- list_fmap_compose.
    assert (E : waiter_name ∘ WaitEnter <$> (map_to_list (runContexts (cont w))).*1
                = (map_to_list (runContexts (cont w))).*1).
    { rewrite <- (list_fmap_id ((map_to_list (runContexts (cont w))).*1)) at 2.
      by apply list_fmap_ext. }
    rewrite E. apply NoDup_fst_map_to_list.
  - intros nm H. apply list_elem_of_fmap in H as (k & Hk & _). done.
  - done.
  - intros Hx. destruct (inv_unstarted w Hinv Hx) as (Hm & _). rewrite Hm.
    by rewrite map_to_list_empty.
Qed.

Lemma v1_wait_inv_grows st w w' : wait_inv st w -> grows w w' -> wait_inv st w'.
Proof.
  intros [W1 W2 W3 W4 W5] Hgr. split; [done|done| |done|].
  - intros nm H. apply (gr_history w w' Hgr). by apply W3.
  - intros Hx. apply W5. destruct (runCtx (cont w)) as [x|] eqn:Hx'; [|done].
    destruct (gr_started w w' Hgr) as [y Hy]; [by eexists|congruence].
Qed.

Lemma v1_wait_inv_done j st w x :
  wait_inv st w -> waiters st !! j = Some x -> wait_inv (waiter_done j st) w.
Proof.
  intros [W1 W2 W3 W4 W5] Hj. split; cbn.
  - rewrite length_delete by (by eexists). by rewrite W1.
  - by apply NoDup_fmap_delete.
  - intros nm' H. apply W3. by eapply list_elem_of_delete_inv.
  - intros H. by rewrite (W4 H).
  - intros H. by rewrite (W5 H).
Qed.

Lemma v1_wait_inv_set j st w x y :
  wait_inv st w -> waiters st !! j = Some x -> waiter_name y = waiter_name x ->
  (forall nm, y = WaitRecv nm -> LaunchRun nm ∈ history w) ->
  wait_inv (set_waiter j y st) w.
Proof.
  intros [W1 W2 W3 W4 W5] Hj Hn Hy. split; cbn.
  - by rewrite length_insert.
  - rewrite list_fmap_insert, Hn. rewrite list_insert_id; [done|].
    by rewrite list_lookup_fmap, Hj.
  - intros nm H. apply v1_elem_of_insert_inv in H as [H|H]; [by apply Hy|by apply W3].
  - intros H. rewrite (W4 H) in Hj. done.
  - intros H. rewrite (W5 H) in Hj. done.
Qed.

Lemma v1_waiter_step_spec j st w st' w' :
  inv w -> wait_inv st w -> waiter_step j st w = Some (st', w') ->
  inv w' /\ wait_inv st' w' /\ grows w w'.
Proof.
  intros Hinv Hw Hs. unfold waiter_step in Hs.
  destruct (waiters st !! j) as [x|] eqn:Hj; [|done].
  assert (Hin : x ∈ waiters st) by (by eapply list_elem_of_lookup_2).
  destruct (wait_body x w) as [[x' w1]|] eqn:Hb; [|done].
  destruct (v1_wait_body_spec x w x' w1 Hinv)
    as (Hinv1 & Hgr & A1 & A2 & A3 & A4 & A5 & A6 & A7 & A8);
    [by intros nm ->; apply (wi_recv st w Hw)|done|].
  pose proof (v1_wait_inv_grows st w w1 Hw Hgr) as Hw1.
  destruct x' as [y|]; inversion Hs; subst st' w'.
  - split; [done|]. split; [|done].
    apply (v1_wait_inv_set j st w1 x y); [done|done|by apply A7|].
    intros nm ->. by apply A8.
  - split; [done|]. split; [|done]. by apply (v1_wait_inv_done j st w1 x).
Qed.

(** What one event of a schedule keeps. *)
Lemma v1_wait_step_spec ev st w st' w' :
  inv w -> wait_inv st w -> wait_step ev st w = (st', w') ->
  inv w' /\ wait_inv st' w' /\ grows w w'.
Proof.
  intros Hinv Hw Hs. destruct ev as [e|j| |]; cbn [wait_step] in Hs.
  - inversion Hs; subst st' w'. destruct (v1_step_or_skip_spec e w Hinv) as [Hinv' Hgr].
    split; [done|]. split; [by eapply v1_wait_inv_grows|done].
  - destruct (waiter_step j st w) as [[st1 w1]|] eqn:Hj.
    + inversion Hs; subst st' w'. by eapply v1_waiter_step_spec.
    + inversion Hs; subst st' w'. split; [done|]. split; [done|apply v1_grows_refl].
  - destruct (join_step st) as [st1|] eqn:Hj.
    + inversion Hs; subst st' w'. split; [done|]. split; [|apply v1_grows_refl].
      unfold join_step in Hj.
      destruct (joiner st && Nat.eqb (wg st) 0) eqn:Hb; [|done].
      inversion Hj; subst st1. apply andb_true_iff in Hb as [_ Hz].
      apply Nat.eqb_eq in Hz. destruct Hw as [W1 W2 W3 W4 W5]. split; cbn; [done..| |done].
      intros _. rewrite Hz in W1. symmetry in W1. by apply nil_length_inv in W1.
    + inversion Hs; subst st' w'. split; [done|]. split; [done|apply v1_grows_refl].
  - inversion Hs; subst st' w'. split; [done|]. split; [by destruct Hw|apply v1_grows_refl].
Qed.

Lemma v1_wait_loop_spec sched n st w r st' w' :
  inv w -> wait_inv st w -> wait_loop sched n st w = (r, st', w') ->
  inv w' /\ wait_inv st' w' /\ grows w w'.
Proof.
  revert n st w. induction sched as [|ev rest IH]; intros n st w Hinv Hw Hl.
  - cbn in Hl. destruct (local_done st); inversion Hl; subst.
    all: split; [done|]; split; [done|apply v1_grows_refl].
  - cbn [wait_loop] in Hl. destruct (local_done st).
    { inversion Hl; subst. split; [done|]. split; [done|apply v1_grows_refl]. }
    destruct (wait_step ev st w) as [st1 w1] eqn:Hs.
    destruct (v1_wait_step_spec ev st w st1 w1 Hinv Hw Hs) as (Hinv1 & Hw1 & Hgr1).
    destruct (IH (S n) st1 w1 Hinv1 Hw1 Hl) as (Hinv' & Hw' & Hgr').
    split; [done|]. split; [done|]. by eapply v1_grows_trans.
Qed.

Lemma v1_inv_park st w : inv w -> wait_inv st w -> inv (park (waiters st) w).
Proof.
  intros [I1 I2 I3 I4 I5 I6 I7 I8 I9 I10 I11 I12 I13 I14] [W1 W2 W3 W4 W5].
  split; cbn; auto.
  - intros Hx. destruct (I3 Hx) as (H1 & H2 & H3 & H4). rewrite H3, (W5 Hx). done.
  - intros nm H. apply elem_of_app in H as [H|H]; auto.
Qed.

Lemma v1_WaitAllStopped_spec ctx sched w r w' :
  inv w -> WaitAllStopped ctx sched w = Ok r w' -> inv w' /\ grows w w'.
Proof.
  intros Hinv Hs. unfold WaitAllStopped in Hs.
  destruct (wait_loop sched 0 (wait_start ctx (cont w)) w) as [[out st] w1] eqn:Hl.
  inversion Hs; subst r w'.
  destruct (v1_wait_loop_spec sched 0 _ w out st w1 Hinv (v1_wait_start_inv ctx w Hinv) Hl)
    as (Hinv1 & Hw1 & Hgr).
  split; [by apply v1_inv_park|].
  eapply v1_grows_trans; [done|apply v1_grows_set_parked].
Qed.

Lemma v1_StopAll_cases ctx sched w :
  (runCtxCancel (cont w) = None
   /\ StopAll ctx sched w = Panic "call Container.StartAll() before StopAll()" w)
  \/ (is_Some (runCtxCancel (cont w))
      /\ StopAll ctx sched w
         = WaitAllStopped ctx sched
             (mkWorld (set_runCtx (match runCtx (cont w) with
                                   | Some _ => Some (mkContext true)
                                   | None => None
                                   end) (runCtxCancel (cont w)) (cont w))
                (pool w) (parked w) (history w))).
Proof.
  unfold StopAll, bind, get, panic. destruct (runCtxCancel (cont w)) as [f|] eqn:Hf.
  - right. split; [by eexists|]. destruct f. unfold liftC. cbn. by rewrite Hf.
  - by left.
Qed.

Lemma v1_act_spec a w w' : inv w -> act a w = Some w' -> inv w' /\ grows w w'.
Proof.
  intros Hinv Hs. destruct a as [ev|ctx sched|ctx sched]; cbn [act] in Hs.
  - by apply (v1_step_spec ev).
  - destruct (WaitAllStopped ctx sched w) as [r w1|] eqn:Hr; [|done].
    inversion Hs; subst w'. by eapply v1_WaitAllStopped_spec.
  - destruct (v1_StopAll_cases ctx sched w) as [[_ Heq]|(_ & Heq)]; rewrite Heq in Hs;
      [done|].
    match type of Hs with
    | context [WaitAllStopped ctx sched ?w0] =>
        destruct (WaitAllStopped ctx sched w0) as [r w1|] eqn:Hr; [|done];
        inversion Hs; subst w';
        destruct (v1_WaitAllStopped_spec ctx sched w0 r w1 (v1_inv_cancelled w Hinv) Hr)
          as [Hinv1 Hgr1]
    end.
    split; [done|]. eapply v1_grows_trans; [apply v1_grows_cancelled|done].
Qed.

Lemma v1_reachable_inv w : reachable w -> inv w.
Proof.
  induction 1 as [|a w w' _ IH Hs]; [apply v1_inv_init|].
  by destruct (v1_act_spec a w w' IH Hs).
Qed.

Lemma v1_run_spec acts w w' :
  reachable w -> run acts w = Some w' -> reachable w' /\ grows w w'.
Proof.
  revert w. induction acts as [|a rest IH]; intros w Hw Hr; simpl in Hr.
  - inversion Hr; subst. split; [done|apply v1_grows_refl].
  - destruct (act a w) as [w1|] eqn:Hs; [|done].
    destruct (v1_act_spec a w w1 (v1_reachable_inv w Hw) Hs) as [_ Hgr].
    destruct (IH w1 (reachable_act a w w1 Hw Hs) Hr) as [Hw' Hgr'].
    split; [done|]. by eapply v1_grows_trans.
Qed.

Lemma v1_world_after_reachable acts w :
  run acts init_world = Some w -> reachable w /\ world_after acts = w.
Proof.
  intros Hr. split.
  - by destruct (v1_run_spec acts init_world w reachable_init Hr).
  - unfold world_after. by rewrite Hr.
Qed.

(** ** [StartAll] in the earlier revision *)

(** X21: In the earlier revision [StartAll] starts the services one
    after the other: when no [Init] fails it returns [nil], and whatever
    the launched units do in between, the calls it makes are, in the order
    of registration, [Init] of a service and at once the launch of its
    [Run], so that a service is initialised while the services registered
    before it are already running.  Every service has its unit and a
    record that says running, and no other record exists. *)
Theorem v1_StartAll_starts_in_turn
  (w : World) (ctx : Context) (steps : list (list nat)) :
  reachable w ->
  runCtx (cont w) = None ->
  Forall (fun s => init_result ctx s = None) (services (cont w)) ->
  exists w1,
    StartAll ctx steps w = Ok None w1
    /\ filter is_start (history w1) = concat (start_calls ctx <$> services (cont w))
    /\ unit_of <$> pool w1 = Some <$> services (cont w)
    /\ (forall s, s ∈ services (cont w) ->
          exists rc, runContexts (cont w1) !! name s = Some rc
                     /\ rc_service rc = s /\ running rc = true /\ err rc = None)
    /\ (forall nm, is_Some (runContexts (cont w1) !! nm) ->
                   nm ∈ name <$> services (cont w))
    /\ cancelled (cont w1) = ctx_done ctx.
Proof.
  intros Hw Hx Hok. pose proof (v1_reachable_inv w Hw) as Hinv.
  destruct (v1_StartAll_all_ok ctx steps w Hinv Hx Hok) as (w1 & Heq & Hst & A1 & A2 & A3).
  exists w1. split; [done|]. split; [apply Hst|]. split; [apply Hst|].
  split; [by intros s Hs; apply (v1_started_record ctx (services (cont w)))|].
  split; [by intros nm H; apply (st_recs _ _ _ Hst)|].
  unfold cancelled. by rewrite (st_ctx _ _ _ Hst).
Qed.

(** X22: When an [Init] fails, [StartAll] of the earlier revision has
    already launched the services registered before the failing one: it
    triggers the cancellation signal and returns the wrapped error, but
    their units are in the pool and their records say running; nothing
    waits for them.  The failing service gets a record that is not
    running and a goroutine blocked in the send of [nil]; the services
    registered after it get no record. *)
Theorem v1_StartAll_failure_leaves_units
  (w : World) (ctx : Context) (steps : list (list nat))
  (pre post : list serviceInfo) (sk : serviceInfo) (e : error) :
  reachable w ->
  runCtx (cont w) = None ->
  services (cont w) = pre ++ sk :: post ->
  Forall (fun s => init_result ctx s = None) pre ->
  init_result ctx sk = Some e ->
  exists w1,
    StartAll ctx steps w = Ok (Some (init_error sk e)) w1
    /\ cancelled (cont w1) = true
    /\ filter is_start (history w1)
       = concat (start_calls ctx <$> pre) ++ [CallInit (name sk) (Some e)]
    /\ unit_of <$> pool w1 = (Some <$> pre) ++ [None]
    /\ GoSynthDone (name sk) ∈ pool w1
    /\ (forall s, s ∈ pre ->
          exists rc, runContexts (cont w1) !! name s = Some rc /\ running rc = true)
    /\ (exists rc, runContexts (cont w1) !! name sk = Some rc
                   /\ running rc = false /\ err rc = None)
    /\ (forall s, s ∈ post -> runContexts (cont w1) !! name s = None).
Proof.
  intros Hw Hx Hss Hpre Hk. pose proof (v1_reachable_inv w Hw) as Hinv.
  pose proof (inv_names w Hinv) as Hnd. rewrite Hss, fmap_app, fmap_cons in Hnd.
  apply NoDup_app in Hnd as (Hnd1 & Hd & Hnd2). apply NoDup_cons in Hnd2 as [Hsk Hnd2].
  destruct (v1_StartAll_one_fails ctx steps w pre sk post e Hinv Hx Hss Hpre Hk)
    as (w1 & Hst & A1 & A2 & Heq).
  eexists. split; [exact Heq|]. cbn.
  split; [done|]. split; [|split; [|split; [|split; [|split]]]].
  - rewrite filter_app, (st_hist _ _ _ Hst). done.
  - rewrite fmap_app, (st_pool _ _ _ Hst). done.
  - apply elem_of_app. right. by left.
  - intros s Hs. destruct (v1_started_record ctx pre w1 s Hst Hs) as (rc & Hl & _ & Hr & _).
    exists rc. split; [|done]. rewrite lookup_insert_ne; [done|].
    intros Heq'. apply (Hd (name s)); [by apply list_elem_of_fmap_2|]. rewrite <- Heq'.
    by left.
  - exists (newRunContext sk). by rewrite lookup_insert_eq.
  - intros s Hs. rewrite lookup_insert_ne.
    + apply eq_None_not_Some. intros H. apply (st_recs _ _ _ Hst) in H.
      apply (Hd (name s) H). right. by apply list_elem_of_fmap_2.
    + intros Heq'. apply Hsk. rewrite Heq'. by apply list_elem_of_fmap_2.
Qed.

(** X23: The error [StartAll] returns is always that of a failed [Init],
    wrapped with the name of its service: the guard of [startOne] against
    a record that exists already never fires, since [Register] keeps the
    names apart and [StartAll] runs once. *)
Theorem v1_StartAll_error_is_init_failure
  (w : World) (ctx : Context) (steps : list (list nat)) (e : error) (w' : World) :
  reachable w ->
  StartAll ctx steps w = Ok (Some e) w' ->
  exists sk e0,
    sk ∈ services (cont w)
    /\ init_result ctx sk = Some e0
    /\ e = init_error sk e0
    /\ Unwrap e = Some e0.
Proof.
  intros Hw Hs. pose proof (v1_reachable_inv w Hw) as Hinv.
  destruct (runCtx (cont w)) as [x|] eqn:Hx.
  { by rewrite (v1_StartAll_started _ _ _ x) in Hs. }
  destruct (init_split ctx (services (cont w)))
    as [Hok|(pre & sk & post & e0 & Hss & Hpre & Hk)].
  - destruct (v1_StartAll_all_ok ctx steps w Hinv Hx Hok) as (w1 & Heq & _).
    rewrite Heq in Hs. done.
  - destruct (v1_StartAll_one_fails ctx steps w pre sk post e0 Hinv Hx Hss Hpre Hk)
      as (w1 & _ & _ & _ & Heq).
    rewrite Heq in Hs. inversion Hs; subst e w'. exists sk, e0.
    split; [rewrite Hss; apply elem_of_app; right; by left|]. by split.
Qed.

(** ** What the goroutines leave behind *)

(** X24: The goroutine that [startOne] starts after a failed [Init] never
    ends.  It is blocked in the send of [nil] on a channel without
    buffer, and [Wait] does not receive on the channel of a record that
    is not running: whatever happens later, the goroutine is still in the
    pool and the record is as it was. *)
Theorem v1_failed_init_goroutine_never_ends
  (w : World) (nm : string) (acts : list action) (w' : World) :
  reachable w ->
  GoSynthDone nm ∈ pool w ->
  run acts w = Some w' ->
  GoSynthDone nm ∈ pool w'
  /\ exists rc, runContexts (cont w) !! nm = Some rc
                /\ runContexts (cont w') !! nm = Some rc
                /\ running rc = false.
Proof.
  intros Hw Hg Hr. pose proof (v1_reachable_inv w Hw) as Hinv.
  destruct (v1_run_spec acts w w' Hw Hr) as [Hw' Hgr].
  split; [by apply (gr_synth w w' Hgr)|].
  destruct (inv_pool_synth w Hinv nm Hg) as [Hno [rc Hl]].
  assert (Hrun : running rc = false).
  { destruct (running rc) eqn:Hrun; [|done].
    by destruct (inv_running w Hinv nm rc Hl Hrun) as (Hla & _). }
  exists rc. split; [done|]. split; [by apply (gr_stopped w w' Hgr)|done].
Qed.

(** X25: A record that is not running is final: neither the record nor
    the error in it is changed by anything that happens later.  [Wait]
    writes the result of a service once. *)
Theorem v1_stopped_record_is_final
  (w : World) (nm : string) (rc : runContext) (acts : list action) (w' : World) :
  reachable w ->
  runContexts (cont w) !! nm = Some rc ->
  running rc = false ->
  run acts w = Some w' ->
  runContexts (cont w') !! nm = Some rc.
Proof.
  intros Hw Hl Hrun Hr. destruct (v1_run_spec acts w w' Hw Hr) as [_ Hgr].
  by apply (gr_stopped w w' Hgr).
Qed.

(** X26: The result of [Run] is not recorded when [Run] returns.  As
    long as nothing has waited for it, the unit is blocked in its send,
    and the record of the service still says running, with no error:
    [runningServices] lists it, for every order in which the map is
    ranged over. *)
Theorem v1_result_unrecorded_until_Wait
  (w : World) (s : serviceInfo) (v : option error) :
  reachable w ->
  GoSend s v ∈ pool w ->
  RunReturned (name s) v ∈ history w
  /\ exists rc,
       runContexts (cont w) !! name s = Some rc
       /\ rc_service rc = s /\ running rc = true /\ err rc = None
       /\ forall kvs, range_of (cont w) kvs -> rc ∈ runningServices_over kvs.
Proof.
  intros Hw Hg. pose proof (v1_reachable_inv w Hw) as Hinv.
  split; [by apply (inv_returned w Hinv)|].
  destruct (inv_pool_unit w Hinv (GoSend s v) s Hg eq_refl) as (rc & Hl & Hrun & Hsvc).
  exists rc. split; [done|]. split; [done|]. split; [done|].
  split; [by destruct (inv_running w Hinv (name s) rc Hl Hrun) as (_ & ? & _)|].
  intros kvs Hk. unfold range_of in Hk.
  rewrite runningServices_over_filter, list_elem_of_filter, Hk. split; [done|].
  apply list_elem_of_fmap. exists (name s, rc). split; [done|].
  by apply elem_of_map_to_list.
Qed.

(** ** What triggers the signal *)

Lemma v1_undisturbed_refl w : undisturbed w w.
Proof. by split. Qed.

Lemma v1_undisturbed_trans w1 w2 w3 :
  undisturbed w1 w2 -> undisturbed w2 w3 -> undisturbed w1 w3.
Proof.
  intros [A1 A2] [B1 B2]. split; [congruence|].
  intros s Hs Hr. apply B2; [by apply A2|]. unfold runCtx_of in *. by rewrite A1.
Qed.

Lemma v1_undisturbed_go_step i w w' : go_step i w = Some w' -> undisturbed w w'.
Proof.
  intros Hs. apply v1_go_step_Some in Hs as (s0 & v & Hi & Hrun & ->). split; [done|].
  cbn. intros s Hs Hr. eapply v1_elem_of_insert_keep; [done|done|].
  intros [= ->]. congruence.
Qed.

Lemma v1_undisturbed_wait_body x w x' w' :
  inv w ->
  (forall nm, x = WaitRecv nm -> LaunchRun nm ∈ history w) ->
  wait_body x w = Some (x', w') ->
  undisturbed w w'.
Proof.
  intros Hinv Hx Hb. destruct x as [nm|nm]; cbn in Hb.
  - destruct (runContexts (cont w) !! nm) as [rc|]; [destruct (running rc)|];
      inversion Hb; subst; apply v1_undisturbed_refl.
  - destruct (find_sender nm (pool w)) as [[i v]|] eqn:Hf; [|done].
    inversion Hb; subst x' w'.
    destruct (v1_find_sender_Some nm (pool w) i v Hf) as (g & Hi & Ho).
    destruct (v1_inv_receive w nm i v g Hinv Hi Ho (Hx nm eq_refl)) as (_ & _ & s0 & -> & _).
    split; [done|]. cbn. intros s Hs _. by eapply elem_of_delete_ne.
Qed.

Lemma v1_undisturbed_step ev w w' :
  inv w -> quiet_event ev = true -> step ev w = Some w' -> undisturbed w w'.
Proof.
  intros Hinv Hq Hs. destruct ev as [svc|ctx steps|i|j|]; try done; cbn [step] in Hs.
  - destruct (v1_Register_cases svc w) as [[Hin Heq]|[Hnotin Heq]]; rewrite Heq in Hs;
      [done|]. inversion Hs; subst w'. by split.
  - by eapply v1_undisturbed_go_step.
  - unfold parked_step in Hs. destruct (parked w !! j) as [x|] eqn:Hj; [|done].
    destruct (wait_body x w) as [[x' w1]|] eqn:Hb; [|done].
    assert (Hu : undisturbed w w1).
    { apply (v1_undisturbed_wait_body x w x' w1 Hinv); [|done].
      intros nm ->. apply (inv_parked w Hinv). by eapply list_elem_of_lookup_2. }
    destruct x' as [y|]; inversion Hs; subst w'; exact Hu.
Qed.

Lemma v1_undisturbed_wait_step ev st w st' w' :
  inv w -> wait_inv st w -> quiet_wait ev = true ->
  wait_step ev st w = (st', w') -> undisturbed w w'.
Proof.
  intros Hinv Hw Hq Hs. destruct ev as [e|j| |]; cbn [wait_step] in Hs.
  - inversion Hs; subst st' w'. unfold step_or_skip.
    destruct (step e w) as [w1|] eqn:He; [|apply v1_undisturbed_refl].
    by apply (v1_undisturbed_step e).
  - destruct (waiter_step j st w) as [[st1 w1]|] eqn:Hj;
      inversion Hs; subst st' w'; [|apply v1_undisturbed_refl].
    unfold waiter_step in Hj. destruct (waiters st !! j) as [x|] eqn:Hx; [|done].
    destruct (wait_body x w) as [[x' w2]|] eqn:Hb; [|done].
    assert (Hu : undisturbed w w2).
    { apply (v1_undisturbed_wait_body x w x' w2 Hinv); [|done].
      intros nm ->. apply (wi_recv st w Hw). by eapply list_elem_of_lookup_2. }
    destruct x' as [y|]; inversion Hj; subst; exact Hu.
  - destruct (join_step st); inversion Hs; subst; apply v1_undisturbed_refl.
  - inversion Hs; subst. apply v1_undisturbed_refl.
Qed.

Lemma v1_undisturbed_wait_loop sched n st w r st' w' :
  inv w -> wait_inv st w -> forallb quiet_wait sched = true ->
  wait_loop sched n st w = (r, st', w') -> undisturbed w w'.
Proof.
  revert n st w. induction sched as [|ev rest IH]; intros n st w Hinv Hw Hq Hl.
  - cbn in Hl. destruct (local_done st); inversion Hl; subst; apply v1_undisturbed_refl.
  - cbn [wait_loop] in Hl. destruct (local_done st).
    { inversion Hl; subst. apply v1_undisturbed_refl. }
    cbn in Hq. apply andb_true_iff in Hq as [Hq1 Hq2].
    destruct (wait_step ev st w) as [st1 w1] eqn:Hs.
    destruct (v1_wait_step_spec ev st w st1 w1 Hinv Hw Hs) as (Hinv1 & Hw1 & _).
    eapply v1_undisturbed_trans; [by eapply v1_undisturbed_wait_step|by eapply IH].
Qed.

Lemma v1_undisturbed_act a w w' :
  inv w -> quiet a = true -> act a w = Some w' -> undisturbed w w'.
Proof.
  intros Hinv Hq Hs. destruct a as [ev|ctx sched|ctx sched]; [| |done]; cbn [act] in Hs.
  - by apply (v1_undisturbed_step ev).
  - unfold WaitAllStopped in Hs.
    destruct (wait_loop sched 0 (wait_start ctx (cont w)) w) as [[out st] w1] eqn:Hl.
    inversion Hs; subst w'.
    pose proof (v1_undisturbed_wait_loop sched 0 _ w out st w1 Hinv
                  (v1_wait_start_inv ctx w Hinv) Hq Hl) as [A1 A2].
    by split.
Qed.

(** X27: In the earlier revision a [Run] that returns, even with an
    error, stops nothing.  Under registrations, steps of the goroutines
    and calls of [WaitAllStopped] the cancellation signal stays as it is,
    and a unit whose [Run] is blocked stays in [Run]: the signal is only
    triggered by [StopAll], by the context given to [StartAll], or by
    [StartAll] itself when an [Init] fails. *)
Theorem v1_run_error_stops_nothing (w : World) (acts : list action) (w' : World) :
  reachable w ->
  forallb quiet acts = true ->
  run acts w = Some w' ->
  cancelled (cont w') = cancelled (cont w)
  /\ forall s, GoRun s ∈ pool w -> Run (service s) (runCtx_of (cont w)) = None ->
               GoRun s ∈ pool w'.
Proof.
  intros Hw Hq Hr.
  assert (Hu : undisturbed w w').
  { revert w Hw Hr. induction acts as [|a rest IH]; intros w Hw Hr; cbn in Hr.
    - inversion Hr; subst. apply v1_undisturbed_refl.
    - cbn in Hq. apply andb_true_iff in Hq as [Hq1 Hq2].
      destruct (act a w) as [w1|] eqn:Hs; [|done].
      eapply v1_undisturbed_trans.
      + by apply (v1_undisturbed_act a w w1 (v1_reachable_inv w Hw)).
      + apply IH; [done|by eapply reachable_act|done]. }
  destruct Hu as [A1 A2]. split; [|done]. unfold cancelled. by rewrite A1.
Qed.

(** ** [FuncService] *)

(** X28: A [FuncService] of the earlier revision has no [String] method,
    so [Register] names it after its type: once one func is registered,
    the registration of any other panics. *)
Theorem v1_second_FuncService_panics (f g : RunFunc) (c c1 : Container) :
  Register (FuncService_Runner f) c = Ok tt c1 ->
  Register (FuncService_Runner g) c1
  = Panic "Service 'services.FuncService' already registered" c1.
Proof.
  intros H.
  destruct (decide (resolve_name (FuncService_Runner f) ∈ name <$> services c)) as [Hin|Hnotin].
  - by rewrite Register_dup in H.
  - rewrite Register_fresh in H by done. inversion H; subst c1.
    rewrite Register_dup; [done|]. cbn. rewrite fmap_app. apply elem_of_app. right. by left.
Qed.

(** ** Waiting for units that have returned *)

Lemma v1_sum_steps_start (ks : list string) :
  sum_list (steps_left <$> (WaitEnter <$> ks)) = 2 * length ks.
Proof. induction ks as [|k ks IH]; cbn; [done|]. rewrite IH. lia. Qed.

Lemma v1_sender_found w nm rc :
  inv w -> (forall s, GoRun s ∉ pool w) ->
  runContexts (cont w) !! nm = Some rc -> running rc = true ->
  exists i v, find_sender nm (pool w) = Some (i, v).
Proof.
  intros Hinv Hret Hl Hrun.
  destruct (inv_running w Hinv nm rc Hl Hrun) as (_ & _ & g & s & Hg & Hu & Hn).
  destruct g as [nm'|s'|s' v]; [done|by apply Hret in Hg|]. inversion Hu; subst s'.
  destruct (find_sender nm (pool w)) as [[i v']|] eqn:Hf; [by exists i, v'|].
  pose proof (v1_find_sender_None nm (pool w) _ Hf Hg) as Ho.
  rewrite <- Hn, v1_offers_GoSend in Ho. done.
Qed.

(** One step of the first waiter. *)
Lemma v1_drain_step st w :
  inv w -> wait_inv st w -> can_drain st w ->
  exists st1 w1,
    wait_step (WWaiter 0) st w = (st1, w1)
    /\ inv w1 /\ wait_inv st1 w1 /\ can_drain st1 w1 /\ grows w w1
    /\ joiner st1 = joiner st
    /\ local_cancelled st1 = local_cancelled st
    /\ parent_done st1 = parent_done st
    /\ runCtx (cont w1) = runCtx (cont w)
    /\ runCtxCancel (cont w1) = runCtxCancel (cont w)
    /\ services (cont w1) = services (cont w)
    /\ parked w1 = parked w
    /\ history w1 = history w
    /\ sum_list (steps_left <$> waiters st1) <= sum_list (steps_left <$> waiters st) - 1.
Proof.
  intros Hinv Hw [H1 H2 H3]. cbn [wait_step]. unfold waiter_step.
  destruct (waiters st) as [|x l] eqn:E.
  { exists st, w. cbn. rewrite E. split; [done|]. split; [done|]. split; [done|].
    split; [split; rewrite ?E; done|]. split; [apply v1_grows_refl|].
    by do 8 (split; [done|]). }
  assert (Hj : waiters st !! 0 = Some x) by (by rewrite E).
  cbn [lookup list_lookup].
  assert (Hdone : forall w1 : World,
             inv w1 -> grows w w1 -> (forall s, GoRun s ∉ pool w1) ->
             (forall nm rc, runContexts (cont w1) !! nm = Some rc -> running rc = true ->
                            nm <> waiter_name x
                            /\ exists rc0, runContexts (cont w) !! nm = Some rc0
                                           /\ running rc0 = true) ->
             (forall nm, WaitRecv nm ∈ l ->
                         runContexts (cont w1) !! nm = runContexts (cont w) !! nm) ->
             wait_inv (waiter_done 0 st) w1 /\ can_drain (waiter_done 0 st) w1
             /\ sum_list (steps_left <$> waiters (waiter_done 0 st))
                <= sum_list (steps_left <$> x :: l) - 1).
  { intros w1 Hinv1 Hgr Hret Hrunning Hsame.
    split; [apply (v1_wait_inv_done 0 st w1 x); [by eapply v1_wait_inv_grows|done]|].
    split.
    - split; cbn; rewrite ?E; cbn.
      + intros nm Hin. rewrite Hsame by done. apply H1. by right.
      + intros nm rc Hl Hr. destruct (Hrunning nm rc Hl Hr) as (Hne & rc0 & Hl0 & Hr0).
        pose proof (H2 nm rc0 Hl0 Hr0) as Hin. rewrite fmap_cons in Hin.
        apply elem_of_cons in Hin as [?|?]; [done|done].
      + done.
    - cbn. rewrite E. cbn. destruct x; cbn; lia. }
  destruct x as [nm|nm]; cbn [wait_body].
  - (* the test of rc.running *)
    destruct (runContexts (cont w) !! nm) as [rc|] eqn:Hl; [destruct (running rc) eqn:Hrun|].
    + exists (set_waiter 0 (WaitRecv nm) st), w. split; [done|]. split; [done|].
      split.
      { apply (v1_wait_inv_set 0 st w (WaitEnter nm)); [done|done|done|].
        intros nm' [= <-]. by destruct (inv_running w Hinv nm rc Hl Hrun). }
      split.
      { split; cbn; rewrite ?E; cbn.
        - intros nm' Hin. apply elem_of_cons in Hin as [[= ->]|Hin]; [by exists rc|].
          apply H1. by right.
        - intros nm' rc' Hl' Hr'. by pose proof (H2 nm' rc' Hl' Hr') as Hin.
        - done. }
      split; [apply v1_grows_refl|]. do 8 (split; [done|]). cbn. rewrite E. cbn. lia.
    + destruct (Hdone w Hinv (v1_grows_refl w) H3) as (A1 & A2 & A3).
      { intros nm' rc' Hl' Hr'. split; [|by exists rc']. cbn. intros ->. congruence. }
      { done. }
      exists (waiter_done 0 st), w. split; [done|]. split; [done|]. split; [done|].
      split; [done|]. split; [apply v1_grows_refl|]. by do 8 (split; [done|]).
    + destruct (Hdone w Hinv (v1_grows_refl w) H3) as (A1 & A2 & A3).
      { intros nm' rc' Hl' Hr'. split; [|by exists rc']. cbn. intros ->. congruence. }
      { done. }
      exists (waiter_done 0 st), w. split; [done|]. split; [done|]. split; [done|].
      split; [done|]. split; [apply v1_grows_refl|]. by do 8 (split; [done|]).
  - (* the receive *)
    assert (Hin : WaitRecv nm ∈ waiters st) by (rewrite E; by left).
    destruct (H1 nm) as (rc & Hl & Hrun); [by left|].
    destruct (v1_sender_found w nm rc Hinv H3 Hl Hrun) as (i & v & Hf). rewrite Hf.
    destruct (v1_find_sender_Some nm (pool w) i v Hf) as (g & Hi & Ho).
    destruct (v1_inv_receive w nm i v g Hinv Hi Ho (wi_recv st w Hw nm Hin))
      as (Hinv1 & Hgr & _).
    pose proof (wi_nodup st w Hw) as Hnd. rewrite E, fmap_cons in Hnd.
    apply NoDup_cons in Hnd as [Hnotin _]. cbn in Hnotin.
    destruct (Hdone (receive nm i v w) Hinv1 Hgr) as (A1 & A2 & A3).
    { intros s Hs. apply (H3 s). unfold receive in Hs. cbn in Hs.
      by eapply list_elem_of_delete_inv. }
    { intros nm' rc' Hl' Hr'. unfold receive in Hl'. cbn in Hl'.
      destruct (decide (nm' = nm)) as [->|Hne].
      - rewrite lookup_alter_eq, Hl in Hl'. cbn in Hl'. by inversion Hl'; subst rc'.
      - rewrite lookup_alter_ne in Hl' by done. split; [done|]. by exists rc'. }
    { intros nm' Hin'. unfold receive. cbn. rewrite lookup_alter_ne; [done|].
      intros <-. apply Hnotin. by apply (list_elem_of_fmap_2 waiter_name) in Hin'. }
    exists (waiter_done 0 st), (receive nm i v w).
    split; [done|]. split; [done|]. split; [done|]. split; [done|]. split; [done|].
    by do 8 (split; [done|]).
Qed.

Lemma v1_drain k :
  forall st w n rest,
    inv w -> wait_inv st w -> can_drain st w -> local_done st = false ->
    sum_list (steps_left <$> waiters st) <= k ->
    exists w',
      wait_loop (repeat (WWaiter 0) k ++ rest) n st w
      = wait_loop rest (n + k)
          (mkWaitState 0 [] (joiner st) (local_cancelled st) (parent_done st)) w'
      /\ inv w' /\ grows w w'
      /\ runCtx (cont w') = runCtx (cont w)
      /\ runCtxCancel (cont w') = runCtxCancel (cont w)
      /\ services (cont w') = services (cont w)
      /\ parked w' = parked w
      /\ history w' = history w
      /\ (forall nm rc, runContexts (cont w') !! nm = Some rc -> running rc = false).
Proof.
  induction k as [|k IH]; intros st w n rest Hinv Hw Hcd Hd Hsum.
  - assert (E : waiters st = []).
    { destruct (waiters st) as [|x l]; [done|]. cbn in Hsum. destruct x; cbn in Hsum; lia. }
    exists w. cbn [repeat app]. rewrite Nat.add_0_r. split.
    { pose proof (wi_wg st w Hw) as Hwg. rewrite E in Hwg. cbn in Hwg.
      destruct st as [g l j lc pd]. cbn in *. by subst g l. }
    split; [done|]. split; [apply v1_grows_refl|]. do 5 (split; [done|]).
    intros nm rc Hl. destruct (running rc) eqn:Hr; [|done].
    pose proof (cd_running st w Hcd nm rc Hl Hr) as Hin. rewrite E in Hin.
    by apply elem_of_nil in Hin.
  - destruct (v1_drain_step st w Hinv Hw Hcd)
      as (st1 & w1 & Hs & Hinv1 & Hw1 & Hcd1 & Hgr & B1 & B2 & B3 & C1 & C2 & C3 & C4 & C5 & Hlt).
    destruct (IH st1 w1 (S n) rest Hinv1 Hw1 Hcd1) as (w' & Heq & Hinv' & Hgr' & D1 & D2 & D3 & D4 & D5 & D6).
    { unfold local_done in *. by rewrite B2, B3. }
    { lia. }
    exists w'. split.
    { cbn [repeat]. rewrite <- app_comm_cons. cbn [wait_loop]. rewrite Hd, Hs, Heq.
      rewrite B1, B2, B3. by replace (S n + k) with (n + S k) by lia. }
    split; [done|]. split; [by eapply v1_grows_trans|].
    split; [congruence|]. split; [congruence|]. split; [congruence|].
    split; [congruence|]. split; [congruence|]. done.
Qed.

Lemma v1_can_drain_start ctx w :
  (forall s, GoRun s ∉ pool w) -> can_drain (wait_start ctx (cont w)) w.
Proof.
  intros Hret. split; cbn.
  - intros nm H. apply list_elem_of_fmap in H as (k & Hk & _). done.
  - intros nm rc Hl _. rewrite <- list_fmap_compose.
    apply list_elem_of_fmap. exists nm. split; [done|].
    apply list_elem_of_fmap. exists (nm, rc). split; [done|]. by apply elem_of_map_to_list.
  - done.
Qed.

(** The wait of a call when no unit is in [Run] any more. *)
Lemma v1_wait_all_returned ctx w n :
  inv w -> ctx_done ctx = false -> (forall s, GoRun s ∉ pool w) ->
  exists st' w',
    wait_loop (waiters_then_join (size (runContexts (cont w)))) n
      (wait_start ctx (cont w)) w
    = (WaitReturned (n + (2 * size (runContexts (cont w)) + 1)), st', w')
    /\ waiters st' = []
    /\ inv w' /\ grows w w'
    /\ runCtx (cont w') = runCtx (cont w)
    /\ parked w' = parked w
    /\ history w' = history w
    /\ (forall nm rc, runContexts (cont w') !! nm = Some rc -> running rc = false)
    /\ (forall g, g ∈ pool w' -> is_synth g = true).
Proof.
  intros Hinv Hd Hret. unfold waiters_then_join.
  destruct (v1_drain (2 * size (runContexts (cont w))) (wait_start ctx (cont w)) w n [WJoin]
              Hinv (v1_wait_start_inv ctx w Hinv) (v1_can_drain_start ctx w Hret))
    as (w' & Heq & Hinv' & Hgr & D1 & D2 & D3 & D4 & D5 & D6).
  { unfold local_done. cbn. by rewrite Hd. }
  { cbn [wait_start waiters]. rewrite v1_sum_steps_start, length_fmap, length_map_to_list.
    lia. }
  eexists _, w'. split.
  { rewrite Heq. cbn. rewrite Hd. cbn.
    by replace (S (n + (size (runContexts (cont w))
                        + (size (runContexts (cont w)) + 0))))
      with (n + (size (runContexts (cont w)) + (size (runContexts (cont w)) + 0) + 1))
      by lia. }
  split; [done|]. split; [done|]. split; [done|]. split; [done|]. split; [done|].
  split; [done|]. split; [done|].
  intros g Hg. destruct g as [nm|s|s v]; [done| |].
  - destruct (inv_pool_unit w' Hinv' (GoRun s) s Hg eq_refl) as (rc & Hl & Hr & _).
    by rewrite (D6 _ _ Hl) in Hr.
  - destruct (inv_pool_unit w' Hinv' (GoSend s v) s Hg eq_refl) as (rc & Hl & Hr & _).
    by rewrite (D6 _ _ Hl) in Hr.
Qed.

(** X29: [WaitAllStopped] collects the results.  When every launched
    [Run] has returned and the context of the caller is not done, then
    under the schedule in which the waiters run one after the other and
    then the joining goroutine, the call returns; after it no record is
    running, every result that a [Run] has returned is the [err] of its
    record, and the only goroutines left are those of failed [Init]s.
    There is no guard: before [StartAll] the call returns as well, having
    nothing to wait for. *)
Theorem v1_WaitAllStopped_collects (w : World) (ctx : Context) :
  reachable w ->
  ctx_done ctx = false ->
  (forall s, GoRun s ∉ pool w) ->
  exists w',
    WaitAllStopped ctx (waiters_then_join (size (runContexts (cont w)))) w
    = Ok (WaitReturned (2 * size (runContexts (cont w)) + 1)) w'
    /\ (forall nm rc, runContexts (cont w') !! nm = Some rc -> running rc = false)
    /\ (forall nm v,
          RunReturned nm v ∈ history w ->
          exists rc, runContexts (cont w') !! nm = Some rc /\ err rc = v)
    /\ (forall g, g ∈ pool w' -> is_synth g = true)
    /\ history w' = history w
    /\ parked w' = parked w
    /\ runCtx (cont w') = runCtx (cont w).
Proof.
  intros Hw Hd Hret. pose proof (v1_reachable_inv w Hw) as Hinv.
  destruct (v1_wait_all_returned ctx w 0 Hinv Hd Hret)
    as (st' & w' & Heq & Hst & Hinv' & Hgr & D1 & D2 & D3 & D4 & D5).
  exists (park (waiters st') w'). split.
  { unfold WaitAllStopped. by rewrite Heq. }
  rewrite Hst. unfold park. cbn. rewrite app_nil_r.
  split; [done|]. split; [|by split].
  intros nm v Hv. rewrite <- D3 in Hv.
  destruct (inv_result w' Hinv' nm v Hv) as [(s & Hs & Hn)|(rc & Hl & _ & He)].
  - by apply D5 in Hs.
  - by exists rc.
Qed.

(** ** Stopping *)

Lemma v1_wait_loop_world evs rest n st w :
  local_done st = false ->
  wait_loop ((WWorld <$> evs) ++ rest) n st w
  = wait_loop rest (n + length evs) st (run_skip evs w).
Proof.
  intros Hd. revert n w. induction evs as [|ev evs IH]; intros n w.
  - cbn. by rewrite Nat.add_0_r.
  - rewrite fmap_cons. cbn [app wait_loop]. rewrite Hd. cbn [wait_step].
    rewrite IH. cbn [length]. by replace (S n + length evs) with (n + S (length evs)) by lia.
Qed.

Lemma v1_cancelled_done c : cancelled c = true -> ctx_done (runCtx_of c) = true.
Proof. unfold cancelled, runCtx_of. by destruct (runCtx c). Qed.

(** Each unit is scheduled once after the signal: those that honour the
    contract of [Runner] return. *)
Lemma v1_return_all n :
  forall w,
    inv w -> cancelled (cont w) = true ->
    (forall s, GoRun s ∈ pool w -> cooperative s) ->
    inv (run_skip (EvGo <$> seq 0 n) w)
    /\ grows w (run_skip (EvGo <$> seq 0 n) w)
    /\ cont (run_skip (EvGo <$> seq 0 n) w) = cont w
    /\ parked (run_skip (EvGo <$> seq 0 n) w) = parked w
    /\ length (pool (run_skip (EvGo <$> seq 0 n) w)) = length (pool w)
    /\ (forall i s, i < n -> pool (run_skip (EvGo <$> seq 0 n) w) !! i <> Some (GoRun s))
    /\ (forall s, GoRun s ∈ pool (run_skip (EvGo <$> seq 0 n) w) -> GoRun s ∈ pool w).
Proof.
  induction n as [|n IH]; intros w Hinv Hc Hcoop.
  - cbn. split; [done|]. split; [apply v1_grows_refl|]. do 3 (split; [done|]).
    split; [intros; lia|done].
  - rewrite seq_S, Nat.add_0_l, fmap_app. unfold run_skip. rewrite foldl_app. cbn [foldl fmap list_fmap].
    fold (run_skip (EvGo <$> seq 0 n) w).
    destruct (IH w Hinv Hc Hcoop) as (Hinv1 & Hgr1 & A1 & A2 & A3 & A4 & A5).
    set (w1 := run_skip (EvGo <$> seq 0 n) w) in *.
    unfold step_or_skip. cbn [step]. destruct (go_step n w1) as [w2|] eqn:Hg.
    + pose proof (v1_inv_go_step w1 n w2 Hinv1 Hg) as Hinv2.
      pose proof (v1_grows_go_step w1 n w2 Hg) as Hgr2.
      apply v1_go_step_Some in Hg as (s0 & v & Hi & Hrun & ->). cbn.
      split; [done|]. split; [by eapply v1_grows_trans|]. split; [done|]. split; [done|].
      split; [by rewrite length_insert|]. split.
      * intros i s Hlt. destruct (decide (i = n)) as [->|Hne].
        -- rewrite list_lookup_insert_eq by (by eapply lookup_lt_Some). done.
        -- rewrite list_lookup_insert_ne by done. apply A4. lia.
      * intros s Hs. apply v1_elem_of_insert_inv in Hs as [Hs|Hs]; [done|by apply A5].
    + split; [done|]. split; [done|]. split; [done|]. split; [done|]. split; [done|].
      split; [|done].
      intros i s Hlt. destruct (decide (i = n)) as [->|Hne]; [|apply A4; lia].
      intros Hi. unfold go_step in Hg. rewrite Hi in Hg.
      assert (Hs : GoRun s ∈ pool w) by (apply A5; by eapply list_elem_of_lookup_2).
      destruct (Run (service s) (runCtx_of (cont w1))) as [v|] eqn:Hrun; [done|].
      apply (Hcoop s Hs (runCtx_of (cont w1))); [|done].
      apply v1_cancelled_done. by rewrite A1.
Qed.

(** X30: [StopAll] stops services that honour the contract of [Runner].
    After [StartAll], when the context of the caller is not done, then
    under the schedule in which every unit is scheduled once, then the
    waiters and then the joining goroutine, [StopAll] returns: the signal
    is triggered, no record is running, every launched service has
    returned and its result is the [err] of its record, and the only
    goroutines left are those of failed [Init]s. *)
Theorem v1_StopAll_shutdown (w : World) (ctx : Context) :
  reachable w ->
  is_Some (runCtx (cont w)) ->
  ctx_done ctx = false ->
  (forall s, s ∈ services (cont w) -> cooperative s) ->
  exists w',
    StopAll ctx (units_first (length (pool w)) (size (runContexts (cont w)))) w
    = Ok (WaitReturned (length (pool w) + (2 * size (runContexts (cont w)) + 1))) w'
    /\ cancelled (cont w') = true
    /\ (forall nm rc, runContexts (cont w') !! nm = Some rc -> running rc = false)
    /\ (forall nm,
          LaunchRun nm ∈ history w' ->
          exists rc, runContexts (cont w') !! nm = Some rc
                     /\ RunReturned nm (err rc) ∈ history w')
    /\ (forall g, g ∈ pool w' -> is_synth g = true)
    /\ parked w' = parked w.
Proof.
  intros Hw [x Hx] Hd Hcoop. pose proof (v1_reachable_inv w Hw) as Hinv.
  destruct (v1_StopAll_cases ctx (units_first (length (pool w)) (size (runContexts (cont w)))) w)
    as [[Hf _]|[_ Heq]].
  { apply (inv_cancel w Hinv) in Hf. congruence. }
  rewrite Heq, Hx. clear Heq.
  set (w0 := mkWorld (set_runCtx (Some (mkContext true)) (runCtxCancel (cont w)) (cont w))
               (pool w) (parked w) (history w)).
  assert (Hinv0 : inv w0).
  { pose proof (v1_inv_cancelled w Hinv) as H. by rewrite Hx in H. }
  assert (Hcoop0 : forall s, GoRun s ∈ pool w0 -> cooperative s).
  { intros s Hs. apply Hcoop.
    destruct (inv_pool_unit w Hinv (GoRun s) s Hs eq_refl) as (rc & Hl & _ & Hsvc).
    rewrite <- Hsvc. by apply (inv_rec_service w Hinv (name s) rc). }
  destruct (v1_return_all (length (pool w)) w0 Hinv0 eq_refl Hcoop0)
    as (Hinv1 & Hgr1 & A1 & A2 & A3 & A4 & A5).
  set (w1 := run_skip (EvGo <$> seq 0 (length (pool w))) w0) in *.
  assert (Hret : forall s, GoRun s ∉ pool w1).
  { intros s Hs. apply list_elem_of_lookup in Hs as [i Hi].
    apply (A4 i s); [|done]. change (i < length (pool w0)). rewrite <- A3.
    by eapply lookup_lt_Some. }
  destruct (v1_wait_all_returned ctx w1 (0 + length (pool w)) Hinv1 Hd Hret)
    as (st' & w' & Heq & Hst & Hinv' & Hgr & D1 & D2 & D3 & D4 & D5).
  exists (park (waiters st') w'). split.
  { unfold WaitAllStopped, units_first.
    rewrite v1_wait_loop_world by (unfold local_done; cbn; by rewrite Hd).
    rewrite length_fmap, length_seq. fold w1.
    replace (wait_start ctx (cont w0)) with (wait_start ctx (cont w1)) by (by rewrite A1).
    replace (size (runContexts (cont w))) with (size (runContexts (cont w1)))
      by (by rewrite A1).
    by rewrite Heq. }
  rewrite Hst. unfold park. cbn. rewrite app_nil_r.
  split; [unfold cancelled; by rewrite D1, A1|]. split; [done|].
  split; [|split; [done|by rewrite D2, A2]].
  intros nm Hla. destruct (inv_launched w' Hinv' nm Hla) as [rc Hl].
  exists rc. split; [done|]. apply (inv_stopped w' Hinv' nm rc Hl); [|done].
  by apply (D4 nm rc).
Qed.

(** ** The theorems on the earlier revision, on the services of the tests *)

Lemma v1_after_reachable acts w :
  run acts init_world = Some w -> reachable (world_after acts).
Proof.
  intros H. destruct (v1_world_after_reachable acts w H) as [Hw ->]. exact Hw.
Qed.

Ltac v1_after_is_reachable acts :=
  apply (v1_after_reachable acts (world_after acts)); by_computation.

Lemma v1_StartAll_starts_in_turn_witness :
  exists w1,
    StartAll Background [[]; []; [1]] (world_after acts_returns) = Ok None w1
    /\ filter is_start (history w1)
       = [CallInit "testService.s1" None; LaunchRun "testService.s1";
          CallInit "testService.s2" None; LaunchRun "testService.s2";
          CallInit "testService.s3" None; LaunchRun "testService.s3"]
    /\ unit_of <$> pool w1
       = [Some (info_of ts1); Some (info_of ts2_returns); Some (info_of ts3)]
    /\ cancelled (cont w1) = false.
Proof.
  assert (Hss : services (cont (world_after acts_returns))
                = [info_of ts1; info_of ts2_returns; info_of ts3]) by by_computation.
  destruct (v1_StartAll_starts_in_turn (world_after acts_returns) Background [[]; []; [1]])
    as (w1 & H1 & H2 & H3 & _ & _ & H6).
  - v1_after_is_reachable acts_returns.
  - by_computation.
  - rewrite Hss. repeat constructor.
  - exists w1. split; [exact H1|]. rewrite Hss in H2, H3.
    split; [exact H2|]. split; [exact H3|exact H6].
Defined.

Lemma v1_StartAll_failure_leaves_units_witness :
  exists w1,
    StartAll Background [] (world_after acts_init_fails)
    = Ok (Some (init_error (info_of ts2_init_fails) init_failure)) w1
    /\ cancelled (cont w1) = true
    /\ unit_of <$> pool w1 = [Some (info_of ts1); None]
    /\ GoSynthDone "testService.s2" ∈ pool w1
    /\ runContexts (cont w1) !! "testService.s3" = None.
Proof.
  destruct (v1_StartAll_failure_leaves_units (world_after acts_init_fails) Background []
              [info_of ts1] [info_of ts3] (info_of ts2_init_fails) init_failure)
    as (w1 & H1 & H2 & _ & H4 & H5 & _ & _ & H8).
  - v1_after_is_reachable acts_init_fails.
  - by_computation.
  - by_computation.
  - repeat constructor.
  - reflexivity.
  - exists w1. split; [exact H1|]. split; [exact H2|]. split; [exact H4|].
    split; [exact H5|]. apply (H8 (info_of ts3)). by left.
Defined.

Lemma v1_StartAll_error_is_init_failure_witness :
  exists sk e0,
    sk ∈ services (cont (world_after acts_init_fails))
    /\ init_result Background sk = Some e0
    /\ init_error (info_of ts2_init_fails) init_failure = init_error sk e0
    /\ Unwrap (init_error (info_of ts2_init_fails) init_failure) = Some e0.
Proof.
  apply (v1_StartAll_error_is_init_failure (world_after acts_init_fails) Background []
           (init_error (info_of ts2_init_fails) init_failure)
           (world_after (acts_init_fails ++ [start]))).
  - v1_after_is_reachable acts_init_fails.
  - by_computation.
Defined.

Lemma v1_failed_init_goroutine_never_ends_witness :
  GoSynthDone "testService.s2"
  ∈ pool (world_after (acts_init_fails ++ [start; CallStopAll Background (units_first 2 2)])).
Proof.
  apply (v1_failed_init_goroutine_never_ends
           (world_after (acts_init_fails ++ [start])) "testService.s2"
           [CallStopAll Background (units_first 2 2)]).
  - v1_after_is_reachable (acts_init_fails ++ [start]).
  - assert (Hp : pool (world_after (acts_init_fails ++ [start]))
                 = [GoRun (info_of ts1); GoSynthDone "testService.s2"]) by by_computation.
    rewrite Hp. right. by left.
  - by_computation.
Defined.

Lemma v1_stopped_record_is_final_witness :
  runContexts
    (cont (world_after (acts_init_fails ++ [start; CallStopAll Background (units_first 2 2)])))
    !! "testService.s2"
  = Some (newRunContext (info_of ts2_init_fails)).
Proof.
  apply (v1_stopped_record_is_final
           (world_after (acts_init_fails ++ [start])) "testService.s2"
           (newRunContext (info_of ts2_init_fails))
           [CallStopAll Background (units_first 2 2)]).
  - v1_after_is_reachable (acts_init_fails ++ [start]).
  - by_computation.
  - reflexivity.
  - by_computation.
Defined.

Lemma v1_result_unrecorded_until_Wait_witness :
  RunReturned "testService.s2" (Some run_failure)
  ∈ history (world_after (acts_run_fails ++ [start; Event (EvGo 1)]))
  /\ exists rc,
       runContexts (cont (world_after (acts_run_fails ++ [start; Event (EvGo 1)])))
         !! "testService.s2" = Some rc
       /\ running rc = true /\ err rc = None.
Proof.
  destruct (v1_result_unrecorded_until_Wait
              (world_after (acts_run_fails ++ [start; Event (EvGo 1)]))
              (info_of ts2_run_fails) (Some run_failure))
    as (H1 & rc & H2 & _ & H3 & H4 & _).
  - v1_after_is_reachable (acts_run_fails ++ [start; Event (EvGo 1)]).
  - assert (Hp : pool (world_after (acts_run_fails ++ [start; Event (EvGo 1)]))
                 = [GoRun (info_of ts1); GoSend (info_of ts2_run_fails) (Some run_failure);
                    GoRun (info_of ts3)]) by by_computation.
    rewrite Hp. right. by left.
  - split; [exact H1|]. exists rc. split; [exact H2|]. split; [exact H3|exact H4].
Defined.

Lemma v1_run_error_stops_nothing_witness :
  cancelled (cont (world_after (acts_run_fails
                                  ++ [start; Event (EvGo 1);
                                      CallWaitAllStopped (mkContext true) []])))
  = false
  /\ GoRun (info_of ts1)
     ∈ pool (world_after (acts_run_fails
                            ++ [start; Event (EvGo 1);
                                CallWaitAllStopped (mkContext true) []])).
Proof.
  destruct (v1_run_error_stops_nothing
              (world_after (acts_run_fails ++ [start]))
              [Event (EvGo 1); CallWaitAllStopped (mkContext true) []]
              (world_after (acts_run_fails
                              ++ [start; Event (EvGo 1);
                                  CallWaitAllStopped (mkContext true) []])))
    as (H1 & H2).
  - v1_after_is_reachable (acts_run_fails ++ [start]).
  - by_computation.
  - by_computation.
  - split.
    + rewrite H1. by_computation.
    + apply H2.
      * assert (Hp : pool (world_after (acts_run_fails ++ [start]))
                     = [GoRun (info_of ts1); GoRun (info_of ts2_run_fails);
                        GoRun (info_of ts3)]) by by_computation.
        rewrite Hp. by left.
      * by_computation.
Defined.

Lemma v1_second_FuncService_panics_witness :
  exists c1,
    Register (FuncService_Runner (func_call serve)) NewContainer = Ok tt c1
    /\ Register (FuncService_Runner (func_call poll)) c1
       = Panic "Service 'services.FuncService' already registered" c1.
Proof.
  eexists. split; [by_computation|].
  apply (v1_second_FuncService_panics (func_call serve) (func_call poll) NewContainer).
  by_computation.
Defined.

Lemma v1_WaitAllStopped_collects_witness :
  exists w',
    WaitAllStopped Background (waiters_then_join 3)
      (world_after (acts_run_fails
                      ++ [start; Event EvParentCancel;
                          Event (EvGo 0); Event (EvGo 1); Event (EvGo 2)]))
    = Ok (WaitReturned 7) w'
    /\ (exists rc, runContexts (cont w') !! "testService.s2" = Some rc
                   /\ err rc = Some run_failure)
    /\ history w'
       = history (world_after (acts_run_fails
                                 ++ [start; Event EvParentCancel;
                                     Event (EvGo 0); Event (EvGo 1); Event (EvGo 2)])).
Proof.
  set (acts := acts_run_fails
                 ++ [start; Event EvParentCancel;
                     Event (EvGo 0); Event (EvGo 1); Event (EvGo 2)]).
  assert (Hsz : size (runContexts (cont (world_after acts))) = 3) by by_computation.
  assert (Hp : pool (world_after acts)
               = [GoSend (info_of ts1) None; GoSend (info_of ts2_run_fails) (Some run_failure);
                  GoSend (info_of ts3) None]) by by_computation.
  destruct (v1_WaitAllStopped_collects (world_after acts) Background)
    as (w' & H1 & _ & H3 & _ & H5 & _).
  - v1_after_is_reachable acts.
  - reflexivity.
  - rewrite Hp. intros s Hs. repeat (apply elem_of_cons in Hs as [Hs|Hs]; [done|]).
    by apply elem_of_nil in Hs.
  - rewrite Hsz in H1. exists w'. split; [exact H1|]. split; [|exact H5].
    apply H3.
    assert (Hh : history (world_after acts) !! 7
                 = Some (RunReturned "testService.s2" (Some run_failure))) by by_computation.
    by eapply list_elem_of_lookup_2.
Defined.

Lemma v1_StopAll_shutdown_witness :
  exists w',
    StopAll Background (units_first 3 3) (world_after (acts_run_fails ++ [start]))
    = Ok (WaitReturned 10) w'
    /\ cancelled (cont w') = true
    /\ (exists rc, runContexts (cont w') !! "testService.s2" = Some rc
                   /\ RunReturned "testService.s2" (err rc) ∈ history w').
Proof.
  assert (Hsz : size (runContexts (cont (world_after (acts_run_fails ++ [start])))) = 3)
    by by_computation.
  assert (Hlen : length (pool (world_after (acts_run_fails ++ [start]))) = 3)
    by by_computation.
  assert (Hss : services (cont (world_after (acts_run_fails ++ [start])))
                = [info_of ts1; info_of ts2_run_fails; info_of ts3]) by by_computation.
  destruct (v1_StopAll_shutdown (world_after (acts_run_fails ++ [start])) Background)
    as (w' & H1 & H2 & _ & H4 & _).
  - v1_after_is_reachable (acts_run_fails ++ [start]).
  - eexists. by_computation.
  - reflexivity.
  - rewrite Hss. intros s Hs.
    repeat (apply elem_of_cons in Hs as [->|Hs]; [apply testService_cooperative|]).
    destruct (not_elem_of_nil s Hs).
  - rewrite Hsz, Hlen in H1. exists w'. split; [exact H1|]. split; [exact H2|].
    apply H4.
    assert (Hw : w' = world_after (acts_run_fails
                                     ++ [start; CallStopAll Background (units_first 3 3)])).
    { assert (Hc : StopAll Background (units_first 3 3)
                     (world_after (acts_run_fails ++ [start]))
                   = Ok (WaitReturned 10)
                       (world_after (acts_run_fails
                                       ++ [start; CallStopAll Background (units_first 3 3)])))
        by by_computation.
      exact (f_equal state_of (eq_trans (eq_sym H1) Hc)). }
    rewrite Hw.
    assert (Hh : history (world_after (acts_run_fails
                                         ++ [start; CallStopAll Background (units_first 3 3)]))
                   !! 3 = Some (LaunchRun "testService.s2")) by by_computation.
    by eapply list_elem_of_lookup_2.
Defined.

